(** * CacheGen encoder of LMCache: a shallow embedding and its properties

    Source: [lmcache/storage_backend/serde/cachegen_encoder.py].

    Numeric model.  The entries of the input KV tensor are finite numbers, taken
    as exact rationals ([Q]): neither the rounding of single-precision
    arithmetic to 24 bits nor its overflow and underflow are modelled.  A
    statement about a value that this rounding can move (a CDF entry, a
    dequantized entry, the symbol of a row maximum) therefore allows a margin
    for it, or is restricted to the inputs where it does not matter.  What
    the code can produce from finite entries by dividing by zero (infinities,
    NaN) is modelled by [fval].  Fixed-width integer tensors (int8, int16,
    int32) are integers in [Z] with their two's-complement wrap-around written
    out.  The arithmetic coder and the serialization of the output record are
    outside the module and are parameters. *)

From Stdlib Require Import String.
From Stdlib Require Import ZArith QArith Qround Qabs Qminmax List Lia Lqa
  Bool PeanoNat.
From Stdlib Require SpecFloat.
Import ListNotations.

Set Implicit Arguments.

Local Open Scope Z_scope.

(* ================================================================== *)
(** ** Python exceptions as an error monad *)

Inductive error : Type :=
| IndexError      (* indexing a tensor outside its shape *)
| KeyError        (* a key that is not in a dictionary *)
| RuntimeError    (* raised by a torch operator *)
| CoderError.     (* raised by the external arithmetic coder *)

Inductive result (A : Type) : Type :=
| Ok (a : A)
| Raise (e : error).

Arguments Ok {A} a.
Arguments Raise {A} e.

Definition bind {A B : Type} (m : result A) (k : A -> result B) : result B :=
  match m with
  | Ok a => k a
  | Raise e => Raise e
  end.

Notation "x <- m ;; k" := (bind m (fun x => k))
  (at level 61, m at next level, right associativity).
Notation "' pat <- m ;; k" := (bind m (fun x => match x with pat => k end))
  (at level 61, pat pattern, m at next level, right associativity).

(** [for x in xs: acc = body(acc, x)], stopping at the first exception. *)
Fixpoint for_each {A S : Type} (xs : list A) (body : S -> A -> result S)
  (acc : S) : result S :=
  match xs with
  | [] => Ok acc
  | x :: xs' => acc' <- body acc x ;; for_each xs' body acc'
  end.

(** [[f(x) for x in xs]], stopping at the first exception. *)
Fixpoint map_result {A B : Type} (f : A -> result B) (xs : list A)
  : result (list B) :=
  match xs with
  | [] => Ok []
  | x :: xs' => y <- f x ;; ys <- map_result f xs' ;; Ok (y :: ys)
  end.

Definition is_ok {A : Type} (m : result A) : bool :=
  match m with Ok _ => true | Raise _ => false end.

(* ================================================================== *)
(** ** Fixed-width integers *)

(** The two's-complement reading of the low [w] bits of [z]. *)
Definition wrap (w : Z) (z : Z) : Z :=
  (z + 2 ^ (w - 1)) mod 2 ^ w - 2 ^ (w - 1).

Definition wrap8 : Z -> Z := wrap 8.
Definition wrap16 : Z -> Z := wrap 16.
Definition wrap32 : Z -> Z := wrap 32.

(** The same bit pattern read as an unsigned 16-bit integer. *)
Definition as_uint16 (z : Z) : Z := z mod 2 ^ 16.

(* ================================================================== *)
(** ** Floating-point values *)

Inductive fval : Type :=
| Fin (q : Q)
| PInf
| NInf
| NaN.

(** Sign of a rational as a comparison with 0. *)
Definition Qsign (q : Q) : comparison := (0 ?= q)%Q.

Definition fmul (x y : fval) : fval :=
  match x, y with
  | NaN, _ | _, NaN => NaN
  | Fin a, Fin b => Fin (a * b)
  | Fin a, PInf | PInf, Fin a =>
      match Qsign a with Eq => NaN | Lt => PInf | Gt => NInf end
  | Fin a, NInf | NInf, Fin a =>
      match Qsign a with Eq => NaN | Lt => NInf | Gt => PInf end
  | PInf, PInf | NInf, NInf => PInf
  | PInf, NInf | NInf, PInf => NInf
  end.

Definition fdiv (x y : fval) : fval :=
  match x, y with
  | NaN, _ | _, NaN => NaN
  | Fin a, Fin b =>
      match Qsign b with
      | Eq => match Qsign a with Eq => NaN | Lt => PInf | Gt => NInf end
      | _ => Fin (a / b)
      end
  | Fin _, (PInf | NInf) => Fin 0
  | (PInf | NInf), (PInf | NInf) => NaN
  | PInf, Fin b => match Qsign b with Gt => NInf | _ => PInf end
  | NInf, Fin b => match Qsign b with Gt => PInf | _ => NInf end
  end.

Definition fadd (x y : fval) : fval :=
  match x, y with
  | NaN, _ | _, NaN => NaN
  | Fin a, Fin b => Fin (a + b)
  | PInf, NInf | NInf, PInf => NaN
  | PInf, _ | _, PInf => PInf
  | NInf, _ | _, NInf => NInf
  end.

(** Round half to even, the rounding of [torch.round]. *)
Definition round_half_even (q : Q) : Z :=
  let f := Qfloor q in
  match (q - inject_Z f ?= 1 # 2)%Q with
  | Lt => f
  | Gt => f + 1
  | Eq => if Z.even f then f else f + 1
  end.

Definition torch_round (x : fval) : fval :=
  match x with
  | Fin q => Fin (inject_Z (round_half_even q))
  | _ => x
  end.

(** Truncation towards zero, the conversion of a finite float to an integer. *)
Definition Qtrunc (q : Q) : Z :=
  if Qle_bool 0 q then Qfloor q else Qceiling q.

Section Numerics.

(** What the conversion of NaN or of an infinity to an integer type yields.
    C++ leaves it undefined; it is a parameter of the model. *)
Variable indefinite : Z.

(** [x.to(dtype=torch.intN)] for [N = w].  A finite value is truncated
    towards zero and keeps its low [w] bits when it does not fit (the CDF
    normalizer relies on this for values of [2 ^ 15] and more).  The
    hardware does so for values within the 32-bit range only; the exact
    values of the model (symbols up to [bins], CDF entries up to [2 ^ 16])
    stay inside it. *)
Definition to_int (w : Z) (x : fval) : Z :=
  match x with
  | Fin q => wrap w (Qtrunc q)
  | _ => wrap w indefinite
  end.

End Numerics.

(* ================================================================== *)
(** ** Tensors

    A tensor carries its shape and its entries.  The 5-dimensional input is
    a shape with an indexing function; the 2- and 3-dimensional tensors the
    encoder works on are nested lists (outermost axis first). *)

Record Tensor5 : Type := mkTensor5 {
  shape5 : nat * nat * nat * nat * nat;
  at5 : nat -> nat -> nat -> nat -> nat -> Q
}.

Record Tensor2 (A : Type) : Type := mkTensor2 {
  shape2 : nat * nat;
  data2 : list (list A)
}.

Record Tensor3 (A : Type) : Type := mkTensor3 {
  shape3 : nat * nat * nat;
  data3 : list (list (list A))
}.

(** [len(t)] of a 3-dimensional tensor. *)
Definition len3 {A} (t : Tensor3 A) : nat :=
  let '(n, _, _) := shape3 t in n.

(** [t[i]]: the [i]-th slab along the first axis. *)
Definition index3 {A} (t : Tensor3 A) (i : nat) : result (Tensor2 A) :=
  let '(_, r, c) := shape3 t in
  match nth_error (data3 t) i with
  | Some d => Ok (mkTensor2 (r, c) d)
  | None => Raise IndexError
  end.

Definition map2d {A B} (f : A -> B) (d : list (list A)) : list (list B) :=
  map (map f) d.

Definition map3d {A B} (f : A -> B) (d : list (list (list A)))
  : list (list (list B)) :=
  map (map2d f) d.

Definition tmap2 {A B} (f : A -> B) (t : Tensor2 A) : Tensor2 B :=
  mkTensor2 (shape2 t) (map2d f (data2 t)).

Definition tmap3 {A B} (f : A -> B) (t : Tensor3 A) : Tensor3 B :=
  mkTensor3 (shape3 t) (map3d f (data3 t)).

(** [t.permute(1, 0)] of a 2-dimensional tensor. *)
Definition permute2 {A} (dflt : A) (t : Tensor2 A) : Tensor2 A :=
  let '(r, c) := shape2 t in
  mkTensor2 (c, r)
    (map (fun j => map (fun row => nth j row dflt) (data2 t)) (seq 0 c)).

(** [t.permute(0, 1, 3, 2, 4)] *)
Definition permute_01324 (t : Tensor5) : Tensor5 :=
  let '(d0, d1, d2, d3, d4) := shape5 t in
  mkTensor5 (d0, d1, d3, d2, d4)
    (fun i0 i1 i2 i3 i4 => at5 t i0 i1 i3 i2 i4).

(** [torch.stack] of a list of 2-dimensional tensors along a new first
    axis; an empty list is refused, and so are tensors of different shapes.
    The class of the exception for an empty list depends on the version of
    torch; it is filed under [RuntimeError] here, and [encode_function]
    never stacks an empty list. *)
Definition stack2 {A} (ts : list (Tensor2 A)) : result (Tensor3 A) :=
  match ts with
  | [] => Raise RuntimeError
  | t0 :: _ =>
      let '(r, c) := shape2 t0 in
      if forallb (fun t => let '(r', c') := shape2 t in
                           Nat.eqb r' r && Nat.eqb c' c) ts
      then Ok (mkTensor3 (length ts, r, c) (map (@data2 A) ts))
      else Raise RuntimeError
  end.

(** [torch.cat((a, b), dim=0)] of two 3-dimensional tensors. *)
Definition cat3 {A} (a b : Tensor3 A) : result (Tensor3 A) :=
  let '(na, ra, ca) := shape3 a in
  let '(nb, rb, cb) := shape3 b in
  if Nat.eqb ra rb && Nat.eqb ca cb
  then Ok (mkTensor3 ((na + nb)%nat, ra, ca) (data3 a ++ data3 b))
  else Raise RuntimeError.

(** [t.reshape((n, r, c))] of a 2-dimensional tensor: the entries in
    row-major order, regrouped; refused when the sizes differ. *)
Definition reshape_2_to_3 {A} (t : Tensor2 A) (n r c : nat)
  : result (Tensor3 A) :=
  let '(rows, cols) := shape2 t in
  let flat := concat (data2 t) in
  if Nat.eqb (rows * cols) (n * r * c)
  then Ok (mkTensor3 (n, r, c)
             (map (fun l =>
                map (fun j => firstn c (skipn ((l * r + j) * c) flat))
                    (seq 0 r))
                (seq 0 n)))
  else Raise RuntimeError.

(** [torch.cat(ts, dim=0)] of a list of 2-dimensional tensors with [c]
    columns each. *)
Definition cat2 {A} (ts : list (Tensor2 A)) : result (Tensor2 A) :=
  match ts with
  | [] => Raise RuntimeError
  | t0 :: _ =>
      let c := snd (shape2 t0) in
      if forallb (fun t => Nat.eqb (snd (shape2 t)) c) ts
      then Ok (mkTensor2
                 (fold_right (fun t n => (fst (shape2 t) + n)%nat) 0%nat ts, c)
                 (concat (map (@data2 A) ts)))
      else Raise RuntimeError
  end.

(* ================================================================== *)
(** ** Python dictionaries keyed by layer index

    Insertion-ordered, as [dict.values()] is iterated in that order. *)

Definition dict (V : Type) : Type := list (nat * V).

(** [d[k] = v] *)
Fixpoint dict_set {V} (d : dict V) (k : nat) (v : V) : dict V :=
  match d with
  | [] => [(k, v)]
  | (k', v') :: d' =>
      if Nat.eqb k' k then (k, v) :: d' else (k', v') :: dict_set d' k v
  end.

(** [d[k]]; a missing key raises. *)
Fixpoint dict_get {V} (d : dict V) (k : nat) : result V :=
  match d with
  | [] => Raise KeyError
  | (k', v') :: d' => if Nat.eqb k' k then Ok v' else dict_get d' k
  end.

(** [d.values()] *)
Definition dict_values {V} (d : dict V) : list V := map snd d.

(* ================================================================== *)
(** ** The codec configuration

    [CacheGenConfig] is declared outside this module; the encoder reads
    these eight integer entries of it. *)

Record CacheGenConfig : Type := mkConfig {
  key_first_layers : Z;
  key_second_layers : Z;
  key_first_bins : Z;
  key_second_bins : Z;
  key_third_bins : Z;
  value_first_layers : Z;
  value_first_bins : Z;
  value_second_bins : Z
}.

(** The bin count [quantize] picks for a key layer. *)
Definition key_bins (config : CacheGenConfig) (layer : nat) : Z :=
  if Z.of_nat layer <? key_first_layers config then key_first_bins config
  else if Z.of_nat layer <? key_second_layers config then key_second_bins config
  else key_third_bins config.

(** The bin count [quantize] picks for a value layer. *)
Definition value_bins (config : CacheGenConfig) (layer : nat) : Z :=
  if Z.of_nat layer <? value_first_layers config then value_first_bins config
  else value_second_bins config.

(* ================================================================== *)
(** ** [_split_kv] *)

(** The entries of [tensor.reshape(L, 2, T, H * D)[:, k]]. *)
Definition split_data (tensor : Tensor5) (k : nat) : list (list (list Q)) :=
  let '(num_layers, _, num_tokens, num_heads, head_size) := shape5 tensor in
  map (fun l =>
    map (fun t =>
      map (fun c => at5 tensor l k t (c / head_size)%nat (c mod head_size)%nat)
          (seq 0 (num_heads * head_size)))
      (seq 0 num_tokens))
    (seq 0 num_layers).

(** The reshape is refused unless the element counts agree; with entries
    present that means the second axis has size 2. *)
Definition _split_kv (tensor : Tensor5)
  : result (Tensor3 Q * Tensor3 Q) :=
  let '(num_layers, d1, num_tokens, num_heads, head_size) := shape5 tensor in
  if Nat.eqb (num_layers * d1 * num_tokens * num_heads * head_size)
             (num_layers * 2 * num_tokens * (num_heads * head_size))
  then
    let sh := (num_layers, num_tokens, (num_heads * head_size)%nat) in
    Ok (mkTensor3 sh (split_data tensor 0), mkTensor3 sh (split_data tensor 1))
  else Raise RuntimeError.

(* ================================================================== *)
(** ** The quantizer *)

(** [torch.amax(torch.abs(row))] of a non-empty row. *)
Definition amax_abs (row : list Q) : Q :=
  match row with
  | [] => 0%Q
  | x :: xs => fold_left Qmax (map Qabs xs) (Qabs x)
  end.

(** [t op col] where [col] has one entry per row of [t] (broadcasting a
    tensor of shape [[T, 1]] against one of shape [[T, C]]). *)
Definition broadcast_col {A B C} (f : A -> B -> C) (t : list (list A))
  (col : list B) : list (list C) :=
  map (fun '(row, m) => map (fun x => f x m) row) (combine t col).

(** [t + s] for an int8 tensor [t] and a Python integer [s]: the sum stays
    int8. *)
Definition add_scalar_int8 (t : Tensor2 Z) (s : Z) : Tensor2 Z :=
  tmap2 (fun x => wrap8 (x + s)) t.

Record CacheGenEncoderImpl : Type := mkEncoder {
  fp_k : Tensor3 Q;
  fp_v : Tensor3 Q;
  quantized_key : dict (Tensor2 Z);
  max_tensors_key : dict (Tensor2 Q);
  quantized_value : dict (Tensor2 Z);
  max_tensors_value : dict (Tensor2 Q);
  config : CacheGenConfig
}.

(** [CacheGenEncoderImpl.__init__] *)
Definition new_encoder (k v : Tensor3 Q) (cfg : CacheGenConfig)
  : CacheGenEncoderImpl :=
  mkEncoder k v [] [] [] [] cfg.

Definition set_key (self : CacheGenEncoderImpl) (layer : nat)
  (q : Tensor2 Z) (m : Tensor2 Q) : CacheGenEncoderImpl :=
  mkEncoder (fp_k self) (fp_v self)
    (dict_set (quantized_key self) layer q)
    (dict_set (max_tensors_key self) layer m)
    (quantized_value self) (max_tensors_value self) (config self).

Definition set_value (self : CacheGenEncoderImpl) (layer : nat)
  (q : Tensor2 Z) (m : Tensor2 Q) : CacheGenEncoderImpl :=
  mkEncoder (fp_k self) (fp_v self)
    (quantized_key self) (max_tensors_key self)
    (dict_set (quantized_value self) layer q)
    (dict_set (max_tensors_value self) layer m) (config self).

(** [one_hot(X, num_classes)[c][t]] for a class value inside the range. *)
Definition one_hot_vec (num_classes : nat) (v : Z) : list Q :=
  map (fun a => if Z.of_nat a =? v then 1%Q else 0%Q) (seq 0 num_classes).

(** [torch.nn.functional.one_hot]: a class value that is negative or not
    below [num_classes] is refused. *)
Definition one_hot (X : list (list Z)) (num_classes : Z)
  : result (list (list (list Q))) :=
  if num_classes <=? 0 then Raise RuntimeError
  else if forallb (forallb (fun v => (0 <=? v) && (v <? num_classes))) X
  then Ok (map2d (one_hot_vec (Z.to_nat num_classes)) X)
  else Raise RuntimeError.

Definition vec_add (u v : list Q) : list Q :=
  map (fun '(a, b) => (a + b)%Q) (combine u v).

(** [vs.sum(dim=0)] of a list of vectors of length [n]. *)
Definition sum_vecs (n : nat) (vs : list (list Q)) : list Q :=
  fold_left vec_add vs (repeat 0%Q n).

(** [torch.cumsum] of a row, continuing from a running total. *)
Fixpoint cumsum_from (acc : fval) (row : list fval) : list fval :=
  match row with
  | [] => []
  | x :: xs => let acc' := fadd acc x in acc' :: cumsum_from acc' xs
  end.

Definition cumsum (row : list fval) : list fval :=
  match row with
  | [] => []
  | x :: xs => x :: cumsum_from x xs
  end.

(** [t.roll(1)] without a [dims] argument: the tensor is flattened, rotated
    right by one position and given its shape back. *)
Definition roll1 {A} (dflt : A) (ncols : nat) (rows : list (list A))
  : list (list A) :=
  let flat := concat rows in
  let rolled :=
    match flat with
    | [] => []
    | _ => last flat dflt :: removelast flat
    end in
  map (fun r => firstn ncols (skipn (r * ncols) rolled))
      (seq 0 (length rows)).

(** [ret[:, 0] = 0] *)
Definition zero_first_column (rows : list (list fval)) : list (list fval) :=
  map (fun row => match row with [] => [] | _ :: tl => Fin 0 :: tl end) rows.

(** The inner function [process_batch] of [compute_cdf]; [X] has shape
    [[channels, tokens]]. *)
Definition process_batch (X : Tensor2 Z) (max_val : Z)
  : result (Tensor2 fval) :=
  let '(nchannels, ntokens) := shape2 X in
  let num_classes := Z.to_nat (max_val + 1) in
  hot <- one_hot (data2 X) (max_val + 1) ;;
  let counts :=
    map (fun ch =>
           map (fun s => fdiv (Fin s) (Fin (inject_Z (Z.of_nat ntokens))))
               (sum_vecs num_classes ch))
        hot in
  let ret := roll1 NaN num_classes (map cumsum counts) in
  Ok (mkTensor2 (nchannels, num_classes) (zero_first_column ret)).

(** The inner function [process_layers] of [compute_cdf]. *)
Definition process_layers (X : list (Tensor2 Z)) (max_val : Z)
  : result (Tensor2 fval) :=
  results <- map_result (fun x => process_batch (permute2 0 x) max_val) X ;;
  cat2 results.

Definition compute_cdf (self : CacheGenEncoderImpl) (is_key : bool)
  : result (Tensor3 fval) :=
  fp0 <- index3 (fp_k self) 0 ;;
  let channels := snd (shape2 fp0) in
  let X := if is_key then dict_values (quantized_key self)
           else dict_values (quantized_value self) in
  let value_range := 32 in
  cdfs <- process_layers X value_range ;;
  reshape_2_to_3 cdfs (len3 (fp_k self)) channels (Z.to_nat (value_range + 1)).

Section Quantizer.

Variable indefinite : Z.

(** [torch_quant]: the quantized tensor (int8) and the per-row maxima.  The
    dequantized [x] the source also computes is not returned and is left
    out. *)
Definition torch_quant (bins : Z) (qA : Tensor2 Q)
  : result (Tensor2 Z * Tensor2 Q) :=
  let MAX := bins / 2 - 1 in
  let C := MAX in
  let '(rows, cols) := shape2 qA in
  if Nat.eqb cols 0 then Raise IndexError
  else
    let max1 := map amax_abs (data2 qA) in
    let scaled :=
      broadcast_col (fun x m => fmul (Fin x) (fdiv (Fin (inject_Z C)) (Fin m)))
                    (data2 qA) max1 in
    let xq := map2d (fun y => to_int indefinite 8 (torch_round y)) scaled in
    Ok (mkTensor2 (rows, cols) xq,
        mkTensor2 (rows, 1%nat) (map (fun m => [m]) max1)).

(** The shift [tmp[0] + bins // 2 - 1] of [quantize]. *)
Definition shift_symbols (bins : Z) (xq : Tensor2 Z) : Tensor2 Z :=
  add_scalar_int8 (add_scalar_int8 xq (bins / 2)) (-1).

Definition quantize (self : CacheGenEncoderImpl)
  : result CacheGenEncoderImpl :=
  self <- for_each (seq 0 (len3 (fp_k self)))
            (fun self layer =>
               let bins := key_bins (config self) layer in
               qA <- index3 (fp_k self) layer ;;
               tmp <- torch_quant bins qA ;;
               Ok (set_key self layer (shift_symbols bins (fst tmp)) (snd tmp)))
            self ;;
  for_each (seq 0 (len3 (fp_v self)))
    (fun self layer =>
       let bins := value_bins (config self) layer in
       qA <- index3 (fp_v self) layer ;;
       tmp <- torch_quant bins qA ;;
       Ok (set_value self layer (shift_symbols bins (fst tmp)) (snd tmp)))
    self.

End Quantizer.

(* ================================================================== *)
(** ** The CDF normalizers *)

(** [torch.arange(Lp, dtype=torch.int16)] *)
Definition arange_int16 (Lp : nat) : list Z :=
  map (fun i => wrap16 (Z.of_nat i)) (seq 0 Lp).

(** [cdf.add_(r)]: the ramp is added along the last axis, in int16. *)
Definition add_ramp (r : list Z) (row : list Z) : list Z :=
  map (fun '(c, i) => wrap16 (c + i)) (combine row r).

Section Normalizers.

Variable indefinite : Z.

(** [_renorm_cast_cdf_] *)
Definition _renorm_cast_cdf_ (cdf : Tensor3 fval) (precision : Z)
  : Tensor3 Z :=
  let Lp := snd (shape3 cdf) in
  let finals := 1 in
  let f := inject_Z (2 ^ precision) in
  let cdf :=
    tmap3 (fun x => fmul x (Fin ((f - inject_Z (Z.of_nat Lp - 1))
                                 / inject_Z finals))) cdf in
  let cdf := tmap3 torch_round cdf in
  let cdf := tmap3 (to_int indefinite 16) cdf in
  let r := arange_int16 Lp in
  mkTensor3 (shape3 cdf) (map (map (add_ramp r)) (data3 cdf)).

(** [_convert_to_int_and_normalize] *)
Definition _convert_to_int_and_normalize (cdf_float : Tensor3 fval)
  (needs_normalization : bool) : Tensor3 Z :=
  let PRECISION := 16 in
  let Lp := snd (shape3 cdf_float) in
  let factor := inject_Z (2 ^ PRECISION) in
  let new_max_value := factor in
  let new_max_value :=
    if needs_normalization
    then (new_max_value - inject_Z (Z.of_nat Lp - 1))%Q
    else new_max_value in
  let cdf_float := tmap3 (fun x => fmul x (Fin new_max_value)) cdf_float in
  let cdf_float := tmap3 torch_round cdf_float in
  let cdf := tmap3 (to_int indefinite 16) cdf_float in
  if needs_normalization
  then
    let r := arange_int16 Lp in
    mkTensor3 (shape3 cdf) (map (map (add_ramp r)) (data3 cdf))
  else cdf.

End Normalizers.

(* ================================================================== *)
(** ** The encoder *)

Abbreviation bytes := (list Byte.byte).

(** [CacheGenEncoderOutput] is declared outside this module; these are the
    fields [encode_function] fills. *)
Record CacheGenEncoderOutput : Type := mkOutput {
  bytestream : bytes;
  start_indices : list Z;
  cdf : Tensor3 Z;
  out_max_tensors_key : Tensor3 Q;
  out_max_tensors_value : Tensor3 Q;
  num_heads : nat;
  head_size : nat
}.

(** [concat_max]: the per-layer maxima, looked up by layer index and
    concatenated along a new first axis. *)
Definition concat_max (max1 : dict (Tensor2 Q)) : result (Tensor3 Q) :=
  maxes <- map_result (fun i => dict_get max1 i) (seq 0 (length max1)) ;;
  stack2 maxes.

(** The state of the coding loop: [current_index], [start_indices] and
    [bytestreams]. *)
Record driver_state : Type := mkDriver {
  current_index : Z;
  indices : list Z;
  bytestreams : list bytes
}.

(** The bookkeeping of one blob in [encode_function]:
    [bytestreams.append(bits); start_indices += [current_index];
     current_index += len(bits)]. *)
Definition record_blob (st : driver_state) (bits : bytes) : driver_state :=
  let bytestreams' := bytestreams st ++ [bits] in
  let length := Z.of_nat (length bits) in
  let start_indices' := indices st ++ [current_index st] in
  mkDriver (current_index st + length) start_indices' bytestreams'.

(** The loop at the end of [encode_function_gpu], over the blobs the batched
    coder returned:
    [bytestreams.append(bits); start_indices.append(index);
     index += len(bits)]. *)
Definition record_blob_gpu (st : driver_state) (bits : bytes) : driver_state :=
  let bytestreams' := bytestreams st ++ [bits] in
  let start_indices' := indices st ++ [current_index st] in
  mkDriver (current_index st + Z.of_nat (length bits))
           start_indices' bytestreams'.

Definition driver_init : driver_state := mkDriver 0 [] [].

(** The start indices the serial loop assigns to a list of blobs. *)
Definition serial_start_indices (blobs : list bytes) : list Z :=
  indices (fold_left record_blob blobs driver_init).

(** The start indices the loop of the gpu path assigns to a list of blobs. *)
Definition gpu_start_indices (all_bits_cuda : list bytes) : list Z :=
  indices (fold_left record_blob_gpu all_bits_cuda driver_init).

(** [t[l:l+1]] *)
Definition slice1 {A} (l : nat) (xs : list A) : list A :=
  firstn 1 (skipn l xs).

(** [t[l:l+1, i]] for a tensor with [ntokens] rows per slab. *)
Definition slice1_row {A} (t : Tensor3 A) (l i : nat)
  : result (list (list A)) :=
  let '(_, ntokens, _) := shape3 t in
  if Nat.ltb i ntokens
  then Ok (map (fun slab => nth i slab []) (slice1 l (data3 t)))
  else Raise IndexError.

(** [torch.tensor(start_indices).int()] *)
Definition to_int32_tensor (xs : list Z) : list Z := map wrap32 xs.

Section Encoder.

Variable indefinite : Z.

(** [torchac.encode_int16_normalized_cdf], the external arithmetic coder:
    from a CDF of shape [[1, C, Lp]] and symbols of shape [[1, C]] to a byte
    string. *)
Variable torchac_encode :
  list (list (list Z)) -> list (list Z) -> result bytes.

Definition encode_function (kv : Tensor5) (config : CacheGenConfig)
  (chunk_size : nat) : result CacheGenEncoderOutput :=
  let '(_, _, _, num_heads, head_size) := shape5 kv in
  '(fp_k, fp_v) <- _split_kv kv ;;
  let encoder := new_encoder fp_k fp_v config in
  encoder <- quantize indefinite encoder ;;
  cdf_k <- compute_cdf encoder true ;;
  encode_input_key <- stack2 (dict_values (quantized_key encoder)) ;;
  cdf_v <- compute_cdf encoder false ;;
  encode_input_value <- stack2 (dict_values (quantized_value encoder)) ;;
  cdf <- cat3 cdf_k cdf_v ;;
  encode_input <- cat3 encode_input_key encode_input_value ;;
  let cdf_int := _convert_to_int_and_normalize indefinite cdf true in
  st <- for_each (seq 0 (len3 cdf))
          (fun st l =>
             for_each (seq 0 chunk_size)
               (fun st i =>
                  syms <- slice1_row encode_input l i ;;
                  bits <- torchac_encode (slice1 l (data3 cdf_int))
                                         (map2d wrap16 syms) ;;
                  Ok (record_blob st bits))
               st)
          driver_init ;;
  max_k <- concat_max (max_tensors_key encoder) ;;
  max_v <- concat_max (max_tensors_value encoder) ;;
  Ok (mkOutput (concat (bytestreams st))
               (to_int32_tensor (indices st))
               (_renorm_cast_cdf_ indefinite cdf 16)
               max_k max_v num_heads head_size).

(* ================================================================== *)
(** ** The serializer facade *)

Record CacheGenSerializer : Type := mkSerializer {
  cachegen_config : CacheGenConfig;
  chunk_size : Z;
  fmt : string
}.

(** [CacheGenEncoderOutput.to_bytes], declared outside this module. *)
Variable output_to_bytes : CacheGenEncoderOutput -> bytes.

Definition to_bytes (self : CacheGenSerializer) (tensor : Tensor5)
  : result bytes :=
  let tensor :=
    if String.eqb (fmt self) "huggingface" then permute_01324 tensor
    else tensor in
  let '(_, _, ntokens, _, _) := shape5 tensor in
  output_dict <- encode_function tensor (cachegen_config self) ntokens ;;
  Ok (output_to_bytes output_dict).

End Encoder.

(* ================================================================== *)
(** ** Vocabulary of the statements *)

(** The entry [d[l][t][c]] of a nested list, when the indices are inside. *)
Definition entry3 {A} (d : list (list (list A))) (l t c : nat) : option A :=
  match nth_error d l with
  | Some slab =>
      match nth_error slab t with
      | Some row => nth_error row c
      | None => None
      end
  | None => None
  end.

(** The symbol tensors a dictionary of the encoder holds, in layer order. *)
Definition symbols (d : dict (Tensor2 Z)) : list (list (list Z)) :=
  map (@data2 Z) (dict_values d).

(** The maxima a dictionary of the encoder holds, in layer order. *)
Definition maxima (d : dict (Tensor2 Q)) : list (list (list Q)) :=
  map (@data2 Q) (dict_values d).

(** No row [(layer, token)] of the tensor has maximum absolute value 0. *)
Definition rows_nonzero (t : Tensor3 Q) : Prop :=
  Forall (Forall (fun row => ~ (amax_abs row == 0)%Q)) (data3 t).

(** Every bin count of the configuration lies between [lo] and [hi]. *)
Definition bins_between (lo hi : Z) (cfg : CacheGenConfig) : Prop :=
  lo <= key_first_bins cfg <= hi /\ lo <= key_second_bins cfg <= hi /\
  lo <= key_third_bins cfg <= hi /\ lo <= value_first_bins cfg <= hi /\
  lo <= value_second_bins cfg <= hi.

(** The center symbol [C_max = bins // 2 - 1]. *)
Definition center (bins : Z) : Z := bins / 2 - 1.

(** What [torch_quant] computes for the entry [x] of [row] before the
    conversion to int8: [round(x * (C / max1))]. *)
Definition scaled (bins : Z) (row : list Q) (x : Q) : fval :=
  torch_round
    (fmul (Fin x) (fdiv (Fin (inject_Z (center bins))) (Fin (amax_abs row)))).

(** The symbol [quantize] stores for the entry [x] of [row]. *)
Definition symbol_of (indefinite bins : Z) (row : list Q) (x : Q) : Z :=
  wrap8 (wrap8 (to_int indefinite 8 (scaled bins row x) + bins / 2) + -1).

(** The layer [l] of a symbol dictionary is the quantization of the slab
    [l] of [fp] with [bins l] bins. *)
Definition quantized_entry (indefinite : Z) (bins : nat -> Z)
  (fp : Tensor3 Q) (l : nat) (e : nat * Tensor2 Z) : Prop :=
  fst e = l /\
  exists qA xq m,
    index3 fp l = Ok qA /\
    torch_quant indefinite (bins l) qA = Ok (xq, m) /\
    snd e = shift_symbols (bins l) xq.

Definition max_entry (indefinite : Z) (bins : nat -> Z)
  (fp : Tensor3 Q) (l : nat) (e : nat * Tensor2 Q) : Prop :=
  fst e = l /\
  exists qA xq m,
    index3 fp l = Ok qA /\
    torch_quant indefinite (bins l) qA = Ok (xq, m) /\
    snd e = m.

(** The byte offsets of the blobs of a list laid out one after another from
    the offset [start]. *)
Fixpoint cumulative_offsets (start : Z) (blobs : list bytes) : list Z :=
  match blobs with
  | [] => []
  | b :: bs => start :: cumulative_offsets (start + Z.of_nat (length b)) bs
  end.

(** [xs] is non-decreasing. *)
Definition non_decreasing (xs : list Z) : Prop :=
  forall i j a b, (i <= j)%nat ->
    nth_error xs i = Some a -> nth_error xs j = Some b -> a <= b.

(** [xs] is strictly increasing. *)
Definition strictly_increasing (xs : list Z) : Prop :=
  forall i j a b, (i < j)%nat ->
    nth_error xs i = Some a -> nth_error xs j = Some b -> a < b.

(** A 2-dimensional tensor whose entries fill its shape [[rows, cols]]. *)
Definition tensor2_ok {A} (rows cols : nat) (t : Tensor2 A) : Prop :=
  shape2 t = (rows, cols) /\ length (data2 t) = rows /\
  Forall (fun row => length row = cols) (data2 t).

(** The symbol tensors [compute_cdf] works on, in layer order. *)
Definition bank (self : CacheGenEncoderImpl) (is_key : bool)
  : list (Tensor2 Z) :=
  if is_key then dict_values (quantized_key self)
  else dict_values (quantized_value self).

(** Every symbol of the tensor lies between [lo] and [hi]. *)
Definition symbols_between (lo hi : Z) (x : Tensor2 Z) : Prop :=
  Forall (Forall (fun v => lo <= v <= hi)) (data2 x).

(** The symbols of channel [c] of a layer, one per token. *)
Definition column (x : Tensor2 Z) (c : nat) : list Z :=
  map (fun row => nth c row 0) (data2 x).

(** How many symbols of a column equal [a]. *)
Definition count_eq (a : nat) (col : list Z) : Z :=
  Z.of_nat (length (filter (fun v => Z.of_nat a =? v) col)).

(** How many symbols of a column are strictly less than [a]. *)
Definition count_below (a : nat) (col : list Z) : Z :=
  Z.of_nat (length (filter (fun v => v <? Z.of_nat a) col)).

(** The empirical probabilities of the 33 symbols in a column of [T]
    symbols, as [process_batch] computes them. *)
Definition probabilities (T : nat) (col : list Z) : list fval :=
  map (fun s => fdiv (Fin s) (Fin (inject_Z (Z.of_nat T))))
      (sum_vecs 33 (map (one_hot_vec 33) col)).

(** The CDF row [process_batch] computes for a column. *)
Definition cdf_row (T : nat) (col : list Z) : list fval :=
  Fin 0 :: removelast (cumsum (probabilities T col)).




(** A 3-dimensional tensor whose entries fill its shape [[n, rows, cols]]. *)
Definition tensor3_ok {A} (n rows cols : nat) (t : Tensor3 A) : Prop :=
  shape3 t = (n, rows, cols) /\ length (data3 t) = n /\
  Forall (fun slab => length slab = rows /\
                      Forall (fun row => length row = cols) slab) (data3 t).

(** [num_heads * head_size], the number of channels. *)
Definition channels_of (tensor : Tensor5) : nat :=
  let '(_, _, _, num_heads, head_size) := shape5 tensor in
  (num_heads * head_size)%nat.

(** What [_convert_to_int_and_normalize] (with normalization) does to one
    row of a CDF whose last axis has [Lp] entries. *)
Definition normalize_row (indefinite : Z) (Lp : nat) (row : list fval)
  : list Z :=
  add_ramp (arange_int16 Lp)
    (map (fun x =>
            to_int indefinite 16
              (torch_round
                 (fmul x (Fin (inject_Z (2 ^ 16)
                               - inject_Z (Z.of_nat Lp - 1))))))
         row).

(** [tensor.shape[2]] *)
Definition shape_2 (tensor : Tensor5) : nat :=
  let '(_, _, ntokens, _, _) := shape5 tensor in ntokens.

(** [tensor.shape[0]] *)
Definition shape_0 (tensor : Tensor5) : nat :=
  let '(num_layers, _, _, _, _) := shape5 tensor in num_layers.

(* ================================================================== *)
(** ** Sample inputs *)

(** The value the x86 conversion instructions give for NaN and infinities
    ("integer indefinite"); the concrete examples are run with it. *)
Definition indefinite_x86 : Z := - 2 ^ 31.

(** Three key bands and two value bands. *)
Definition sample_config : CacheGenConfig :=
  mkConfig 2 4 8 16 32 2 8 4.

(** One layer, two tokens, two channels. *)
Definition sample_k : Tensor3 Q :=
  mkTensor3 (1, 2, 2)%nat [[[1; -2]; [3 # 2; 1 # 2]]]%Q.

Definition sample_v : Tensor3 Q :=
  mkTensor3 (1, 2, 2)%nat [[[-1; 1 # 4]; [0; 5]]]%Q.

(** One layer, one token, two channels, all zero. *)
Definition zero_fp : Tensor3 Q :=
  mkTensor3 (1, 1, 2)%nat [[[0; 0]]]%Q.

(** One layer, one token, one channel, with a single bin. *)
Definition one_fp : Tensor3 Q :=
  mkTensor3 (1, 1, 1)%nat [[[1]]]%Q.

Definition one_bin_config : CacheGenConfig :=
  mkConfig 2 4 1 1 1 2 1 1.

(** Three blobs of 2, 0 and 3 bytes. *)
Definition sample_blobs : list bytes :=
  [[Byte.x01; Byte.x02]; []; [Byte.x0a; Byte.x0b; Byte.x0c]].

Definition byte_of_Z (z : Z) : Byte.byte :=
  match Byte.of_N (Z.to_N (z mod 256)) with
  | Some b => b
  | None => Byte.x00
  end.

(** A stand-in for the arithmetic coder: one byte per symbol. *)
Definition sample_coder (cdf_int : list (list (list Z)))
  (syms : list (list Z)) : result bytes :=
  Ok (map byte_of_Z (concat syms)).

(** A stand-in for the serialization of the output record: the bytestream
    alone. *)
Definition sample_output_to_bytes (out : CacheGenEncoderOutput) : bytes :=
  bytestream out.

(** One layer, two tokens, one head of size two; keys and values differ. *)
Definition sample_kv : Tensor5 :=
  mkTensor5 (1, 2, 2, 1, 2)%nat
    (fun l k t h d =>
       (inject_Z (Z.of_nat (1 + t + 2 * d)) - inject_Z (Z.of_nat (3 * k)))%Q).

(** One layer, one token, one head of size one. *)
Definition tiny_kv : Tensor5 :=
  mkTensor5 (1, 2, 1, 1, 1)%nat (fun l k t h d => 1%Q).

(** A blob of [2 ^ 31] bytes. *)
Definition huge_blob : bytes := repeat Byte.x00 (Z.to_nat (2 ^ 31)).

(** The encoder after [quantize] on the sample tensors. *)
Definition sample_encoder : CacheGenEncoderImpl :=
  Eval vm_compute in
    match quantize indefinite_x86 (new_encoder sample_k sample_v sample_config)
    with
    | Ok enc => enc
    | Raise _ => new_encoder sample_k sample_v sample_config
    end.

(** A configuration whose bands all have 34 bins, one more than the
    alphabet cap. *)
Definition bins34_config : CacheGenConfig :=
  mkConfig 2 4 34 34 34 2 34 34.

(** A configuration whose bands all have 36 bins. *)
Definition bins36_config : CacheGenConfig :=
  mkConfig 2 4 36 36 36 2 36 36.

(** A floating CDF of one row with 33 entries: 0 for the first 32 symbols
    and [1 - 2^-20] (a single-precision number) for the last. *)
Definition near_one_row : list Q :=
  repeat 0%Q 32 ++ [(1048575 # 1048576)%Q].

Definition near_one_cdf : Tensor3 fval :=
  mkTensor3 (1, 1, 33)%nat [[map Fin near_one_row]].

(* ================================================================== *)
(** ** The dequantized tensor of [torch_quant]

    [x = (xq / C * max1).to(torch.float32)]: the source computes this tensor
    and drops it; it is what a reader of [xq] and [max1] recovers.  [xq / C]
    is a true division of the int8 tensor by a Python integer. *)


(* ================================================================== *)
(** ** The encoder on the gpu *)

Record Tensor4 (A : Type) : Type := mkTensor4 {
  shape4 : nat * nat * nat * nat;
  data4 : list (list (list (list A)))
}.

Definition tmap4 {A B} (f : A -> B) (t : Tensor4 A) : Tensor4 B :=
  mkTensor4 (shape4 t) (map (map3d f) (data4 t)).

(** [t.unsqueeze(1).repeat(1, n, 1, 1)] *)
Definition unsqueeze_repeat {A} (n : nat) (t : Tensor3 A) : Tensor4 A :=
  let '(d0, d1, d2) := shape3 t in
  mkTensor4 (d0, n, d1, d2) (map (fun slab => repeat slab n) (data3 t)).

(** [t.reshape(-1, Lp)] of a 4-dimensional tensor: the entries in row-major
    order, regrouped in rows of [Lp]; refused when [Lp] is 0 (the size of
    the first axis cannot be inferred) or does not divide the number of
    entries. *)
Definition reshape_rows {A} (t : Tensor4 A) (Lp : nat)
  : result (list (list A)) :=
  let '(d0, d1, d2, d3) := shape4 t in
  let numel := (d0 * d1 * d2 * d3)%nat in
  let flat := concat (concat (concat (data4 t))) in
  if Nat.eqb Lp 0 then Raise RuntimeError
  else if Nat.eqb (numel mod Lp) 0
  then Ok (map (fun k => firstn Lp (skipn (k * Lp) flat))
               (seq 0 (numel / Lp)))
  else Raise RuntimeError.

(** [t.squeeze(0).reshape(-1)]: the entries in row-major order; dropping a
    first axis of size 1 does not change them. *)
Definition flatten3 {A} (t : Tensor3 A) : list A :=
  concat (concat (data3 t)).

Section EncoderGpu.

Variable indefinite : Z.

(** [_convert_to_int_and_normalize] on a 4-dimensional tensor. *)
Definition _convert_to_int_and_normalize_4d (cdf_float : Tensor4 fval)
  (needs_normalization : bool) : Tensor4 Z :=
  let PRECISION := 16 in
  let Lp := snd (shape4 cdf_float) in
  let factor := inject_Z (2 ^ PRECISION) in
  let new_max_value := factor in
  let new_max_value :=
    if needs_normalization
    then (new_max_value - inject_Z (Z.of_nat Lp - 1))%Q
    else new_max_value in
  let cdf_float := tmap4 (fun x => fmul x (Fin new_max_value)) cdf_float in
  let cdf_float := tmap4 torch_round cdf_float in
  let cdf := tmap4 (to_int indefinite 16) cdf_float in
  if needs_normalization
  then
    let r := arange_int16 Lp in
    mkTensor4 (shape4 cdf) (map (map (map (add_ramp r))) (data4 cdf))
  else cdf.

(** [torchac_cuda.encode_fast], the external batched coder: from the CDF
    rows (int16), the symbols (int16), [max_out_size], [blockNum] and
    [threadNum] to a list of byte strings. *)
Variable encode_fast :
  list (list Z) -> list Z -> Z -> Z -> nat -> result (list bytes).

Definition encode_function_gpu (kv : Tensor5) (config : CacheGenConfig)
  (chunk_size : nat) : result CacheGenEncoderOutput :=
  let '(_, _, _, num_heads, head_size) := shape5 kv in
  '(fp_k, fp_v) <- _split_kv kv ;;
  let encoder := new_encoder fp_k fp_v config in
  encoder <- quantize indefinite encoder ;;
  cdf_k <- compute_cdf encoder true ;;
  encode_input_key <- stack2 (dict_values (quantized_key encoder)) ;;
  cdf_v <- compute_cdf encoder false ;;
  encode_input_value <- stack2 (dict_values (quantized_value encoder)) ;;
  cdf <- cat3 cdf_k cdf_v ;;
  encode_input <- cat3 encode_input_key encode_input_value ;;
  let cdf_temp := unsqueeze_repeat chunk_size cdf in
  let encode_input := tmap3 wrap16 encode_input in
  let cdf_int := _convert_to_int_and_normalize_4d cdf_temp true in
  let Lp := snd (shape4 cdf_int) in
  cdf_int <- reshape_rows cdf_int Lp ;;
  let encode_input := flatten3 encode_input in
  all_bits_cuda <- encode_fast cdf_int encode_input 10000 64 chunk_size ;;
  let st := fold_left record_blob_gpu all_bits_cuda driver_init in
  (* [print(type(bytestreams[0]))] reads the first blob *)
  _ <- match bytestreams st with
       | [] => Raise IndexError
       | b :: _ => Ok b
       end ;;
  max_k <- concat_max (max_tensors_key encoder) ;;
  max_v <- concat_max (max_tensors_value encoder) ;;
  Ok (mkOutput (concat (bytestreams st))
               (to_int32_tensor (indices st))
               (_renorm_cast_cdf_ indefinite cdf 16)
               max_k max_v num_heads head_size).

End EncoderGpu.

(* ================================================================== *)
(** ** More vocabulary of the statements *)


(** What the coding loop of [encode_function] asks of the coder at the
    position [(l, i)]: to code the row [i] of the slab [l] of the symbols
    under the integer CDF of the slab [l]. *)
Definition coder_call (indefinite : Z)
  (torchac_encode : list (list (list Z)) -> list (list Z) -> result bytes)
  (cdf : Tensor3 fval) (encode_input : Tensor3 Z) (l i : nat)
  : result bytes :=
  syms <- slice1_row encode_input l i ;;
  torchac_encode
    (slice1 l (data3 (_convert_to_int_and_normalize indefinite cdf true)))
    (map2d wrap16 syms).

(** [tensor.shape[-2:]] *)
Definition heads_of (tensor : Tensor5) : nat * nat :=
  let '(_, _, _, num_heads, head_size) := shape5 tensor in
  (num_heads, head_size).

(** Every row [(layer, key or value, token)] of the input has an entry that
    is not 0. *)
Definition no_zero_row (kv : Tensor5) : Prop :=
  let '(num_layers, _, num_tokens, num_heads, head_size) := shape5 kv in
  forall l k t, (l < num_layers)%nat -> (k < 2)%nat -> (t < num_tokens)%nat ->
    exists h d, (h < num_heads)%nat /\ (d < head_size)%nat /\
                ~ (at5 kv l k t h d == 0)%Q.


(** Every entry of every tensor of the list satisfies [P]. *)
Definition all_entries {A} (P : A -> Prop) (ts : list (Tensor2 A)) : Prop :=
  Forall (fun t => Forall (Forall P) (data2 t)) ts.

(* ================================================================== *)
(** ** More sample inputs *)


(** A tensor whose second axis has three entries instead of two. *)
Definition three_kv : Tensor5 :=
  mkTensor5 (1, 3, 1, 1, 1)%nat (fun l k t h d => 1%Q).

(** Two layers of maxima, stored under the keys 1 and 0 in that order. *)
Definition swapped_max : dict (Tensor2 Q) :=
  [(1%nat, mkTensor2 (1, 1)%nat [[2%Q]]);
   (0%nat, mkTensor2 (1, 1)%nat [[5%Q]])].

(** A tensor without layers, and one without tokens. *)
Definition no_layer_kv : Tensor5 :=
  mkTensor5 (0, 2, 1, 1, 1)%nat (fun l k t h d => 1%Q).

Definition no_token_kv : Tensor5 :=
  mkTensor5 (1, 2, 0, 1, 1)%nat (fun l k t h d => 1%Q).




(** The sample tensor in the layout [[L, 2, H, T, D]]. *)
Definition hf_kv : Tensor5 := permute_01324 sample_kv.

(** A stand-in for the batched coder: one blob of one byte per symbol. *)
Definition sample_encode_fast (cdf_int : list (list Z)) (syms : list Z)
  (max_out_size blockNum : Z) (threadNum : nat) : result (list bytes) :=
  Ok (map (fun s => [byte_of_Z s]) syms).

(** A batched coder that returns no blob. *)
Definition silent_encode_fast (cdf_int : list (list Z)) (syms : list Z)
  (max_out_size blockNum : Z) (threadNum : nat) : result (list bytes) :=
  Ok [].

(* ================================================================== *)
(** * Properties *)

Unset Implicit Arguments.

(** ** The error monad and loops *)

Lemma bind_ok {A B} (m : result A) (k : A -> result B) (b : B) :
  bind m k = Ok b -> exists a, m = Ok a /\ k a = Ok b.
Proof.
  destruct m as [a | e]; simpl; intros H; [eauto | discriminate].
Qed.

Ltac inv_bind H :=
  let a := fresh "a" in
  let Ha := fresh "Ha" in
  apply bind_ok in H; destruct H as [a [Ha H]].

(** A loop over [range(s, s + n)] keeps an invariant indexed by the next
    loop counter. *)
Lemma for_each_seq_invariant {St} (I : nat -> St -> Prop)
  (body : St -> nat -> result St) :
  forall n s acc acc',
    for_each (seq s n) body acc = Ok acc' ->
    I s acc ->
    (forall i a a', (s <= i < s + n)%nat -> I i a -> body a i = Ok a' ->
                    I (S i) a') ->
    I (s + n)%nat acc'.
Proof.
  induction n as [| n IH]; intros s acc acc' Hrun Hinit Hstep; simpl in Hrun.
  - injection Hrun as <-. now rewrite Nat.add_0_r.
  - inv_bind Hrun.
    replace (s + S n)%nat with (S s + n)%nat by lia.
    apply (IH (S s) a acc' Hrun).
    + apply (Hstep s acc a); [lia | assumption | assumption].
    + intros i b b' Hi. apply Hstep. lia.
Qed.

(** Two loop bodies that agree give the same loop. *)
Lemma for_each_ext {A S} (body1 body2 : S -> A -> result S) :
  (forall acc x, body1 acc x = body2 acc x) ->
  forall xs acc, for_each xs body1 acc = for_each xs body2 acc.
Proof.
  intros Hext xs; induction xs as [| x xs IH]; intros acc; simpl.
  - reflexivity.
  - rewrite Hext. destruct (body2 acc x); simpl; [apply IH | reflexivity].
Qed.

Lemma map_result_all_ok {A B} (f : A -> result B) (g : A -> B) :
  forall xs, (forall x, In x xs -> f x = Ok (g x)) ->
  map_result f xs = Ok (map g xs).
Proof.
  induction xs as [| x xs IH]; intros H; simpl.
  - reflexivity.
  - rewrite (H x (or_introl eq_refl)). simpl.
    rewrite IH by (intros y Hy; apply H; now right). reflexivity.
Qed.

Lemma map_result_raise {A B} (f : A -> result B) (e : error) :
  forall xs,
    (forall x, In x xs -> is_ok (f x) = true \/ f x = Raise e) ->
    (exists x, In x xs /\ f x = Raise e) ->
    map_result f xs = Raise e.
Proof.
  induction xs as [| x xs IH]; intros Hall [y [Hy Hfy]].
  - destruct Hy.
  - simpl. destruct (Hall x (or_introl eq_refl)) as [Hok | Hr].
    + destruct (f x) as [b |] eqn:Hfx; [| discriminate]. simpl.
      destruct Hy as [-> | Hy]; [congruence |].
      rewrite IH; [reflexivity | | eauto].
      intros z Hz. apply Hall. now right.
    + now rewrite Hr.
Qed.

(* ================================================================== *)
(** ** Fixed-width integers *)

Lemma wrap_small (w z : Z) :
  0 < w -> - 2 ^ (w - 1) <= z < 2 ^ (w - 1) -> wrap w z = z.
Proof.
  intros Hw Hz. unfold wrap.
  assert (H2 : 2 ^ w = 2 * 2 ^ (w - 1)).
  { replace w with (Z.succ (w - 1)) at 1 by lia. apply Z.pow_succ_r. lia. }
  rewrite Z.mod_small; lia.
Qed.

Lemma wrap8_small z : -128 <= z <= 127 -> wrap8 z = z.
Proof. intros H. apply wrap_small; simpl; lia. Qed.

Lemma wrap32_small z : - 2 ^ 31 <= z < 2 ^ 31 -> wrap32 z = z.
Proof. intros H. apply wrap_small; simpl; lia. Qed.

(** Wrapping does not change the value modulo [2 ^ 16]. *)
Lemma as_uint16_wrap16 z : as_uint16 (wrap16 z) = as_uint16 z.
Proof.
  unfold as_uint16, wrap16, wrap.
  change (2 ^ (16 - 1)) with 32768. change (2 ^ 16) with 65536.
  rewrite Zminus_mod_idemp_l. f_equal. lia.
Qed.

Lemma as_uint16_wrap16_add a b :
  as_uint16 (wrap16 (wrap16 a + b)) = as_uint16 (a + b).
Proof.
  rewrite as_uint16_wrap16.
  pose proof (as_uint16_wrap16 a) as Ha. unfold as_uint16 in *.
  rewrite (Zplus_mod (wrap16 a)), Ha, <- Zplus_mod. reflexivity.
Qed.

(* ================================================================== *)
(** ** Rounding *)

Lemma round_half_even_cases q :
  round_half_even q = Qfloor q \/ round_half_even q = Qfloor q + 1.
Proof.
  unfold round_half_even.
  destruct (q - inject_Z (Qfloor q) ?= 1 # 2)%Q; auto.
  destruct (Z.even (Qfloor q)); auto.
Qed.

Lemma round_half_even_comp q1 q2 :
  (q1 == q2)%Q -> round_half_even q1 = round_half_even q2.
Proof.
  intros H. unfold round_half_even.
  rewrite (Qfloor_comp _ _ H).
  assert (Hc : (q1 - inject_Z (Qfloor q2) == q2 - inject_Z (Qfloor q2))%Q)
    by (rewrite H; reflexivity).
  now rewrite (Qcompare_comp _ _ Hc _ _ (Qeq_refl (1 # 2))).
Qed.

Lemma round_half_even_Z z : round_half_even (inject_Z z) = z.
Proof.
  unfold round_half_even. rewrite Qfloor_Z.
  assert (H : (inject_Z z - inject_Z z ?= 1 # 2)%Q = Lt).
  { apply Qlt_alt. setoid_replace (inject_Z z - inject_Z z)%Q with 0%Q by ring.
    reflexivity. }
  now rewrite H.
Qed.

Lemma round_half_even_mono q1 q2 :
  (q1 <= q2)%Q -> round_half_even q1 <= round_half_even q2.
Proof.
  intros Hle.
  pose proof (Qfloor_resp_le _ _ Hle) as Hf.
  destruct (Z.eq_dec (Qfloor q1) (Qfloor q2)) as [Heq | Hne].
  - unfold round_half_even. rewrite Heq.
    assert (Hr : (q1 - inject_Z (Qfloor q2) <= q2 - inject_Z (Qfloor q2))%Q).
    { apply Qplus_le_l with (z := inject_Z (Qfloor q2)).
      ring_simplify. exact Hle. }
    destruct (Qcompare_spec (q1 - inject_Z (Qfloor q2)) (1 # 2)) as [E1|L1|G1];
    destruct (Qcompare_spec (q2 - inject_Z (Qfloor q2)) (1 # 2)) as [E2|L2|G2];
    try destruct (Z.even (Qfloor q2)); try lia; exfalso; lra.
  - destruct (round_half_even_cases q1), (round_half_even_cases q2); lia.
Qed.

Lemma round_half_even_bounds q a b :
  (inject_Z a <= q)%Q -> (q <= inject_Z b)%Q -> a <= round_half_even q <= b.
Proof.
  intros Ha Hb. split.
  - rewrite <- (round_half_even_Z a). now apply round_half_even_mono.
  - rewrite <- (round_half_even_Z b). now apply round_half_even_mono.
Qed.

Lemma Qtrunc_Z z : Qtrunc (inject_Z z) = z.
Proof.
  unfold Qtrunc. destruct (Qle_bool 0 (inject_Z z));
    [apply Qfloor_Z | apply Qceiling_Z].
Qed.

Lemma Qsign_zero q : (q == 0)%Q -> Qsign q = Eq.
Proof. intros H. unfold Qsign. apply Qeq_alt. now symmetry. Qed.

Lemma Qsign_pos q : (0 < q)%Q -> Qsign q = Lt.
Proof. intros H. unfold Qsign. now apply Qlt_alt. Qed.

(* ================================================================== *)
(** ** Row maxima *)

Lemma fold_left_Qmax_ge (xs : list Q) :
  forall a, (a <= fold_left Qmax xs a)%Q.
Proof.
  induction xs as [| x xs IH]; intros a; simpl.
  - apply Qle_refl.
  - eapply Qle_trans; [apply Q.le_max_l | apply IH].
Qed.

Lemma fold_left_Qmax_in (xs : list Q) :
  forall a x, In x xs -> (x <= fold_left Qmax xs a)%Q.
Proof.
  induction xs as [| y xs IH]; intros a x Hin; simpl.
  - destruct Hin.
  - destruct Hin as [-> | Hin].
    + eapply Qle_trans; [apply Q.le_max_r | apply fold_left_Qmax_ge].
    + now apply IH.
Qed.

(** Every entry of a row is bounded in absolute value by the row maximum. *)
Lemma amax_abs_ge row x : In x row -> (Qabs x <= amax_abs row)%Q.
Proof.
  destruct row as [| y ys]; intros Hin; [destruct Hin |].
  simpl. destruct Hin as [-> | Hin].
  - apply fold_left_Qmax_ge.
  - apply fold_left_Qmax_in. now apply in_map.
Qed.

Lemma amax_abs_nonneg row : (0 <= amax_abs row)%Q.
Proof.
  destruct row as [| y ys]; simpl; [apply Qle_refl |].
  eapply Qle_trans; [apply Qabs_nonneg | apply fold_left_Qmax_ge].
Qed.

(** A row whose maximum is 0 holds zeros only. *)
Lemma amax_abs_zero row x :
  (amax_abs row == 0)%Q -> In x row -> (x == 0)%Q.
Proof.
  intros Hz Hin. pose proof (amax_abs_ge row x Hin) as Hle.
  rewrite Hz in Hle.
  apply Qabs_Qle_condition in Hle. destruct Hle as [Hlo Hhi].
  apply Qle_antisym; [exact Hhi | exact Hlo].
Qed.

(* ================================================================== *)
(** ** The quantizer, row by row *)

Lemma broadcast_col_map {A B C} (f : A -> B -> C) (g : list A -> B) :
  forall t, broadcast_col f t (map g t) =
            map (fun row => map (fun x => f x (g row)) row) t.
Proof.
  unfold broadcast_col. induction t as [| row t IH]; simpl.
  - reflexivity.
  - f_equal. exact IH.
Qed.

(** [torch_quant] succeeds on a tensor with at least one column and returns
    the converted scaled entries and the row maxima. *)
Lemma torch_quant_ok indefinite bins qA :
  snd (shape2 qA) <> 0%nat ->
  torch_quant indefinite bins qA =
  Ok (mkTensor2 (shape2 qA)
        (map (fun row =>
                map (fun x => to_int indefinite 8 (scaled bins row x)) row)
             (data2 qA)),
      mkTensor2 (fst (shape2 qA), 1%nat)
        (map (fun row => [amax_abs row]) (data2 qA))).
Proof.
  intros Hc. unfold torch_quant. destruct (shape2 qA) as [rows cols].
  simpl in Hc. apply Nat.eqb_neq in Hc. rewrite Hc.
  rewrite broadcast_col_map. unfold map2d. rewrite !map_map.
  f_equal. f_equal. f_equal.
  apply map_ext. intros row. now rewrite map_map.
Qed.

Lemma torch_quant_inv indefinite bins qA xq m :
  torch_quant indefinite bins qA = Ok (xq, m) ->
  snd (shape2 qA) <> 0%nat /\
  xq = mkTensor2 (shape2 qA)
         (map (fun row =>
                 map (fun x => to_int indefinite 8 (scaled bins row x)) row)
              (data2 qA)) /\
  m = mkTensor2 (fst (shape2 qA), 1%nat)
        (map (fun row => [amax_abs row]) (data2 qA)).
Proof.
  intros H.
  assert (Hc : snd (shape2 qA) <> 0%nat).
  { intros Hz. unfold torch_quant in H. destruct (shape2 qA) as [rows cols].
    simpl in Hz. subst cols. discriminate. }
  rewrite (torch_quant_ok indefinite bins qA Hc) in H.
  injection H as <- <-. auto.
Qed.

Lemma shift_symbols_data indefinite bins (qA : Tensor2 Q) :
  data2 (shift_symbols bins
           (mkTensor2 (shape2 qA)
              (map (fun row =>
                      map (fun x => to_int indefinite 8 (scaled bins row x))
                          row)
                   (data2 qA)))) =
  map (fun row => map (symbol_of indefinite bins row) row) (data2 qA).
Proof.
  unfold shift_symbols, add_scalar_int8, tmap2, map2d. simpl.
  rewrite !map_map. apply map_ext. intros row. now rewrite !map_map.
Qed.

(** On a row whose maximum is not 0 the scaled entry is the rounding of
    [x * (C / max)], and it lies between [-C] and [C]. *)
Lemma scaled_nonzero bins row x :
  0 <= center bins ->
  In x row -> ~ (amax_abs row == 0)%Q ->
  exists r, scaled bins row x = Fin (inject_Z r) /\
            - center bins <= r <= center bins.
Proof.
  intros HC Hin Hnz. unfold scaled.
  set (m := amax_abs row) in *. set (C := center bins) in *.
  assert (Hm : (0 < m)%Q).
  { destruct (Qle_lt_or_eq 0 m (amax_abs_nonneg row)) as [Hlt | Heq];
      [exact Hlt | exfalso; apply Hnz; symmetry; exact Heq]. }
  simpl. rewrite (Qsign_pos _ Hm). simpl.
  eexists; split; [reflexivity |].
  pose proof (amax_abs_ge row x Hin) as Hx. fold m in Hx.
  apply Qabs_Qle_condition in Hx. destruct Hx as [Hlo Hhi].
  assert (HCq : (0 <= inject_Z C)%Q).
  { change 0%Q with (inject_Z 0). rewrite <- Zle_Qle. exact HC. }
  assert (Hinv : (0 <= inject_Z C / m)%Q).
  { apply Qle_shift_div_l; [exact Hm | ring_simplify; exact HCq]. }
  assert (Hmm : (m * (inject_Z C / m) == inject_Z C)%Q).
  { field. intros Hz. rewrite Hz in Hm. now apply (Qlt_irrefl 0). }
  remember (inject_Z C / m)%Q as k eqn:Hk. clear Hk.
  apply round_half_even_bounds.
  - rewrite inject_Z_opp, <- Hmm.
    setoid_replace (- (m * k))%Q with ((- m) * k)%Q by ring.
    now apply Qmult_le_compat_r.
  - rewrite <- Hmm. now apply Qmult_le_compat_r.
Qed.

(** With at least 2 and at most 129 bins, the symbol of an entry of a row
    whose maximum is not 0 lies between 0 and [2 * C_max]. *)
Lemma symbol_of_range indefinite bins row x :
  2 <= bins <= 129 ->
  In x row -> ~ (amax_abs row == 0)%Q ->
  0 <= symbol_of indefinite bins row x <= 2 * center bins.
Proof.
  intros Hb Hin Hnz.
  assert (HC : 0 <= center bins <= 63).
  { unfold center.
    assert (1 <= bins / 2) by (apply Z.div_le_lower_bound; lia).
    assert (bins / 2 < 65) by (apply Z.div_lt_upper_bound; lia). lia. }
  destruct (scaled_nonzero bins row x (proj1 HC) Hin Hnz) as [r [Hr Hrange]].
  unfold symbol_of. rewrite Hr.
  change (to_int indefinite 8 (Fin (inject_Z r)))
    with (wrap8 (Qtrunc (inject_Z r))).
  rewrite Qtrunc_Z, (wrap8_small r) by lia.
  assert (Hhalf : bins / 2 = center bins + 1) by (unfold center; lia).
  rewrite Hhalf.
  rewrite (wrap8_small (r + (center bins + 1))) by lia.
  rewrite wrap8_small by lia. lia.
Qed.

(** On a row whose maximum is 0 the scaled entry is NaN: the entry is 0 and
    [C / 0] is an infinity or NaN. *)
Lemma scaled_zero_row bins row x :
  (amax_abs row == 0)%Q -> In x row -> scaled bins row x = NaN.
Proof.
  intros Hz Hin. unfold scaled.
  pose proof (amax_abs_zero row x Hz Hin) as Hx.
  simpl. rewrite (Qsign_zero _ Hz).
  destruct (Qsign (inject_Z (center bins))); simpl;
    rewrite ?(Qsign_zero _ Hx); reflexivity.
Qed.

(* ================================================================== *)
(** ** The dictionaries [quantize] fills *)

Lemma dict_set_fresh {V} (d : dict V) (k : nat) (v : V) :
  Forall (fun e => fst e <> k) d -> dict_set d k v = d ++ [(k, v)].
Proof.
  induction d as [| [k' v'] d IH]; intros H; simpl.
  - reflexivity.
  - inversion H as [| ? ? Hk Hd]; subst. simpl in Hk.
    apply Nat.eqb_neq in Hk. rewrite Hk. f_equal. now apply IH.
Qed.

Lemma Forall2_seq_keys {V} (R : nat -> nat * V -> Prop) :
  (forall l e, R l e -> fst e = l) ->
  forall n s d, Forall2 R (seq s n) d ->
  Forall (fun e => fst e <> (s + n)%nat) d.
Proof.
  intros HR. induction n as [| n IH]; intros s d H; simpl in H.
  - inversion H. constructor.
  - inversion H as [| l e ls d' Hle Hrest]; subst. constructor.
    + rewrite (HR _ _ Hle). lia.
    + replace (s + S n)%nat with (S s + n)%nat by lia. now apply IH.
Qed.

Lemma Forall2_seq_snoc {V} (R : nat -> nat * V -> Prop) n d e :
  Forall2 R (seq 0 n) d -> R n e -> Forall2 R (seq 0 (S n)) (d ++ [e]).
Proof.
  intros Hd He. rewrite seq_S. apply Forall2_app; [exact Hd |].
  constructor; [exact He | constructor].
Qed.

Lemma Forall2_nth_error_r {A B} (R : A -> B -> Prop) xs ys :
  Forall2 R xs ys ->
  forall i y, nth_error ys i = Some y ->
  exists x, nth_error xs i = Some x /\ R x y.
Proof.
  induction 1 as [| x y0 xs ys Hxy Hrest IH]; intros i y Hy.
  - destruct i; discriminate.
  - destruct i as [| i]; simpl in *.
    + injection Hy as <-. eauto.
    + now apply IH.
Qed.

Lemma Forall2_length_eq {A B} (R : A -> B -> Prop) xs ys :
  Forall2 R xs ys -> length xs = length ys.
Proof. induction 1; simpl; congruence. Qed.

Lemma nth_error_seq_0 n i l : nth_error (seq 0 n) i = Some l -> l = i.
Proof.
  intros H. assert (Hi : (i < n)%nat).
  { assert (Hs : nth_error (seq 0 n) i <> None) by congruence.
    apply nth_error_Some in Hs. now rewrite length_seq in Hs. }
  rewrite nth_error_seq in H. apply Nat.ltb_lt in Hi. rewrite Hi in H.
  now injection H.
Qed.

Lemma quantized_entry_fresh indefinite bins fp n d :
  Forall2 (quantized_entry indefinite bins fp) (seq 0 n) d ->
  Forall (fun e => fst e <> n) d.
Proof.
  intros H. change n with (0 + n)%nat.
  eapply Forall2_seq_keys; [| exact H]. intros l e He. exact (proj1 He).
Qed.

Lemma max_entry_fresh indefinite bins fp n d :
  Forall2 (max_entry indefinite bins fp) (seq 0 n) d ->
  Forall (fun e => fst e <> n) d.
Proof.
  intros H. change n with (0 + n)%nat.
  eapply Forall2_seq_keys; [| exact H]. intros l e He. exact (proj1 He).
Qed.

(** After [quantize] on a fresh encoder every dictionary holds one entry per
    layer, in layer order, computed by [torch_quant] from the slab of that
    layer with the bin count of its band. *)
Lemma quantize_spec indefinite k v cfg enc :
  quantize indefinite (new_encoder k v cfg) = Ok enc ->
  fp_k enc = k /\ fp_v enc = v /\ config enc = cfg /\
  Forall2 (quantized_entry indefinite (key_bins cfg) k)
          (seq 0 (len3 k)) (quantized_key enc) /\
  Forall2 (max_entry indefinite (key_bins cfg) k)
          (seq 0 (len3 k)) (max_tensors_key enc) /\
  Forall2 (quantized_entry indefinite (value_bins cfg) v)
          (seq 0 (len3 v)) (quantized_value enc) /\
  Forall2 (max_entry indefinite (value_bins cfg) v)
          (seq 0 (len3 v)) (max_tensors_value enc).
Proof.
  unfold quantize. intros H. inv_bind H. rename a into enc1.
  change (fp_k (new_encoder k v cfg)) with k in Ha.
  pose (I1 := fun (i : nat) (self : CacheGenEncoderImpl) =>
    fp_k self = k /\ fp_v self = v /\ config self = cfg /\
    quantized_value self = [] /\ max_tensors_value self = [] /\
    Forall2 (quantized_entry indefinite (key_bins cfg) k)
            (seq 0 i) (quantized_key self) /\
    Forall2 (max_entry indefinite (key_bins cfg) k)
            (seq 0 i) (max_tensors_key self)).
  assert (H1 : I1 (0 + len3 k)%nat enc1).
  { eapply (@for_each_seq_invariant _ I1); [exact Ha | |].
    - unfold I1; simpl. repeat split; constructor.
    - intros i self self' _ (Hk & Hv & Hc & Hqv & Hmv & Fq & Fm) Hbody.
      inv_bind Hbody. rename a into qA. inv_bind Hbody. destruct a as [xq m].
      injection Hbody as <-. rewrite Hk, Hc in *. simpl in *.
      unfold I1; simpl. repeat split; try assumption.
      + rewrite dict_set_fresh
          by (eapply quantized_entry_fresh; exact Fq).
        apply Forall2_seq_snoc; [exact Fq |].
        split; [reflexivity |]. exists qA, xq, m. auto.
      + rewrite dict_set_fresh
          by (eapply max_entry_fresh; exact Fm).
        apply Forall2_seq_snoc; [exact Fm |].
        split; [reflexivity |]. exists qA, xq, m. auto. }
  destruct H1 as (Hk & Hv & Hc & Hqv & Hmv & Fq & Fm). simpl in Fq, Fm.
  rewrite Hv in H.
  pose (I2 := fun (i : nat) (self : CacheGenEncoderImpl) =>
    fp_k self = k /\ fp_v self = v /\ config self = cfg /\
    quantized_key self = quantized_key enc1 /\
    max_tensors_key self = max_tensors_key enc1 /\
    Forall2 (quantized_entry indefinite (value_bins cfg) v)
            (seq 0 i) (quantized_value self) /\
    Forall2 (max_entry indefinite (value_bins cfg) v)
            (seq 0 i) (max_tensors_value self)).
  assert (H2 : I2 (0 + len3 v)%nat enc).
  { eapply (@for_each_seq_invariant _ I2); [exact H | |].
    - unfold I2. rewrite Hqv, Hmv. repeat split; try assumption; constructor.
    - intros i self self' _ (Hk' & Hv' & Hc' & Hqk & Hmk & Fq' & Fm') Hbody.
      inv_bind Hbody. rename a into qA. inv_bind Hbody. destruct a as [xq m].
      injection Hbody as <-. rewrite Hv', Hc' in *. simpl in *.
      unfold I2; simpl. repeat split; try assumption.
      + rewrite dict_set_fresh
          by (eapply quantized_entry_fresh; exact Fq').
        apply Forall2_seq_snoc; [exact Fq' |].
        split; [reflexivity |]. exists qA, xq, m. auto.
      + rewrite dict_set_fresh
          by (eapply max_entry_fresh; exact Fm').
        apply Forall2_seq_snoc; [exact Fm' |].
        split; [reflexivity |]. exists qA, xq, m. auto. }
  destruct H2 as (Hk2 & Hv2 & Hc2 & Hqk & Hmk & Fq2 & Fm2). simpl in Fq2, Fm2.
  rewrite Hqk, Hmk. repeat split; assumption.
Qed.

Lemma index3_data {A} (t : Tensor3 A) l (x : Tensor2 A) :
  index3 t l = Ok x ->
  nth_error (data3 t) l = Some (data2 x) /\
  shape2 x = (snd (fst (shape3 t)), snd (shape3 t)).
Proof.
  unfold index3. destruct (shape3 t) as [[n r] c].
  destruct (nth_error (data3 t) l) as [d |]; [| discriminate].
  intros H. injection H as <-. auto.
Qed.

(** The symbols of layer [l], row by row. *)
Lemma symbols_layer indefinite bins fp n d l sl :
  Forall2 (quantized_entry indefinite bins fp) (seq 0 n) d ->
  nth_error (symbols d) l = Some sl ->
  exists slab,
    nth_error (data3 fp) l = Some slab /\
    sl = map (fun row => map (symbol_of indefinite (bins l) row) row) slab.
Proof.
  intros HF Hl. unfold symbols, dict_values in Hl. rewrite map_map in Hl.
  rewrite nth_error_map in Hl.
  destruct (nth_error d l) as [e |] eqn:He; [| discriminate].
  injection Hl as <-.
  destruct (Forall2_nth_error_r _ _ _ HF _ _ He) as [l' [Hl' [Hfst Hq]]].
  apply nth_error_seq_0 in Hl'. subst l'.
  destruct Hq as (qA & xq & m & Hidx & Htq & Hsnd).
  apply index3_data in Hidx. destruct Hidx as [Hdata _].
  apply torch_quant_inv in Htq. destruct Htq as (_ & -> & _).
  exists (data2 qA). split; [exact Hdata |].
  rewrite Hsnd. apply shift_symbols_data.
Qed.

(** The maxima of layer [l], row by row. *)
Lemma maxima_layer indefinite bins fp n d l ml :
  Forall2 (max_entry indefinite bins fp) (seq 0 n) d ->
  nth_error (maxima d) l = Some ml ->
  exists slab,
    nth_error (data3 fp) l = Some slab /\
    ml = map (fun row => [amax_abs row]) slab.
Proof.
  intros HF Hl. unfold maxima, dict_values in Hl. rewrite map_map in Hl.
  rewrite nth_error_map in Hl.
  destruct (nth_error d l) as [e |] eqn:He; [| discriminate].
  injection Hl as <-.
  destruct (Forall2_nth_error_r _ _ _ HF _ _ He) as [l' [Hl' [Hfst Hq]]].
  apply nth_error_seq_0 in Hl'. subst l'.
  destruct Hq as (qA & xq & m & Hidx & Htq & Hsnd).
  apply index3_data in Hidx. destruct Hidx as [Hdata _].
  apply torch_quant_inv in Htq. destruct Htq as (_ & _ & ->).
  exists (data2 qA). split; [exact Hdata |].
  rewrite Hsnd. reflexivity.
Qed.

(** A dictionary [quantize] filled has an entry for every layer. *)
Lemma symbols_length indefinite bins fp n d :
  Forall2 (quantized_entry indefinite bins fp) (seq 0 n) d ->
  length (symbols d) = n.
Proof.
  intros HF. unfold symbols, dict_values. rewrite !length_map.
  rewrite <- (Forall2_length_eq _ _ _ HF). apply length_seq.
Qed.

Lemma maxima_length indefinite bins fp n d :
  Forall2 (max_entry indefinite bins fp) (seq 0 n) d ->
  length (maxima d) = n.
Proof.
  intros HF. unfold maxima, dict_values. rewrite !length_map.
  rewrite <- (Forall2_length_eq _ _ _ HF). apply length_seq.
Qed.

(** Every symbol of a filled dictionary is the symbol of an entry of the
    floating-point tensor at the same position. *)
Lemma symbols_entry indefinite bins fp n d l t c s :
  Forall2 (quantized_entry indefinite bins fp) (seq 0 n) d ->
  entry3 (symbols d) l t c = Some s ->
  exists slab row x,
    nth_error (data3 fp) l = Some slab /\ nth_error slab t = Some row /\
    nth_error row c = Some x /\ s = symbol_of indefinite (bins l) row x.
Proof.
  intros HF He. unfold entry3 in He.
  destruct (nth_error (symbols d) l) as [sl |] eqn:Hl; [| discriminate].
  destruct (symbols_layer _ _ _ _ _ _ _ HF Hl) as [slab [Hslab ->]].
  rewrite nth_error_map in He.
  destruct (nth_error slab t) as [row |] eqn:Hrow; [| discriminate].
  simpl in He. rewrite nth_error_map in He.
  destruct (nth_error row c) as [x |] eqn:Hx; [| discriminate].
  injection He as <-. exists slab, row, x. auto.
Qed.

Lemma key_bins_between lo hi cfg l :
  bins_between lo hi cfg -> lo <= key_bins cfg l <= hi.
Proof.
  intros (H1 & H2 & H3 & _). unfold key_bins.
  destruct (_ <? _); [exact H1 |]. destruct (_ <? _); assumption.
Qed.

Lemma value_bins_between lo hi cfg l :
  bins_between lo hi cfg -> lo <= value_bins cfg l <= hi.
Proof.
  intros (_ & _ & _ & H4 & H5). unfold value_bins.
  destruct (_ <? _); assumption.
Qed.

Lemma rows_nonzero_row fp l slab t row :
  rows_nonzero fp -> nth_error (data3 fp) l = Some slab ->
  nth_error slab t = Some row -> ~ (amax_abs row == 0)%Q.
Proof.
  intros H Hl Ht. unfold rows_nonzero in H.
  rewrite Forall_forall in H. specialize (H slab (nth_error_In _ _ Hl)).
  rewrite Forall_forall in H. exact (H row (nth_error_In _ _ Ht)).
Qed.

Lemma two_center_le bins : 2 * center bins <= bins - 2.
Proof.
  unfold center. pose proof (Z.mul_div_le bins 2 ltac:(lia)). lia.
Qed.

(* ================================================================== *)
(** ** The quantizer: symbol range and zero rows *)

(** C2 (as amended).  For floating-point tensors whose rows all have a
    nonzero maximum absolute value and a configuration whose bin counts lie
    between 2 and 129 (which covers every bin count from 2 up to the alphabet
    cap 33), every shifted symbol [quantize] stores satisfies
    [0 <= sym <= bins(l) - 1], where [bins(l)] is the bin count of the band
    of layer [l]: [key_bins] for keys (three bands), [value_bins] for values
    (two bands). *)
Theorem quantize_symbol_range indefinite k v cfg enc :
  bins_between 2 129 cfg ->
  rows_nonzero k -> rows_nonzero v ->
  quantize indefinite (new_encoder k v cfg) = Ok enc ->
  (forall l t c s,
     entry3 (symbols (quantized_key enc)) l t c = Some s ->
     0 <= s <= key_bins cfg l - 1) /\
  (forall l t c s,
     entry3 (symbols (quantized_value enc)) l t c = Some s ->
     0 <= s <= value_bins cfg l - 1).
Proof.
  intros Hcfg Hk Hv Hq.
  destruct (quantize_spec _ _ _ _ _ Hq) as (_ & _ & _ & Fk & _ & Fv & _).
  split; intros l t c s He.
  - destruct (symbols_entry _ _ _ _ _ _ _ _ _ Fk He)
      as (slab & row & x & Hl & Ht & Hc & ->).
    pose proof (key_bins_between 2 129 cfg l Hcfg) as Hb.
    pose proof (symbol_of_range indefinite _ row x Hb (nth_error_In _ _ Hc)
                  (rows_nonzero_row _ _ _ _ _ Hk Hl Ht)) as Hs.
    pose proof (two_center_le (key_bins cfg l)). lia.
  - destruct (symbols_entry _ _ _ _ _ _ _ _ _ Fv He)
      as (slab & row & x & Hl & Ht & Hc & ->).
    pose proof (value_bins_between 2 129 cfg l Hcfg) as Hb.
    pose proof (symbol_of_range indefinite _ row x Hb (nth_error_In _ _ Hc)
                  (rows_nonzero_row _ _ _ _ _ Hv Hl Ht)) as Hs.
    pose proof (two_center_le (value_bins cfg l)). lia.
Qed.

Lemma quantize_symbol_range_witness :
  exists enc,
    quantize indefinite_x86 (new_encoder sample_k sample_v sample_config)
      = Ok enc /\
    (forall l t c s,
       entry3 (symbols (quantized_key enc)) l t c = Some s ->
       0 <= s <= key_bins sample_config l - 1) /\
    (forall l t c s,
       entry3 (symbols (quantized_value enc)) l t c = Some s ->
       0 <= s <= value_bins sample_config l - 1).
Proof.
  eexists. split; [vm_compute; reflexivity |].
  apply (quantize_symbol_range indefinite_x86 sample_k sample_v sample_config).
  - unfold bins_between; simpl; lia.
  - repeat constructor; intros H; vm_compute in H; discriminate H.
  - repeat constructor; intros H; vm_compute in H; discriminate H.
  - vm_compute; reflexivity.
Defined.

(** C2, counterexample.  With a bin count of 1 (positive and below the
    alphabet cap) [C_max = -1], and the entry 1.0 of a one-entry row gets the
    symbol [-2]. *)
Lemma quantize_one_bin_symbol_negative :
  exists enc,
    quantize indefinite_x86 (new_encoder one_fp one_fp one_bin_config)
      = Ok enc /\
    rows_nonzero one_fp /\
    entry3 (symbols (quantized_key enc)) 0 0 0 = Some (-2) /\
    ~ (0 <= -2 <= key_bins one_bin_config 0 - 1).
Proof.
  eexists. split; [vm_compute; reflexivity |].
  split; [repeat constructor; intros H; vm_compute in H; discriminate H |].
  split; [vm_compute; reflexivity |].
  vm_compute. intros [H _]. apply H. reflexivity.
Qed.

(** C1 (as amended).  [quantize] makes no substitution on a row
    [(layer, token)] whose maximum absolute value is 0: the scale it returns
    for the row is that maximum, 0; every scaled entry of the row is NaN
    ([0 * (C_max / 0)]), so every symbol of the row is the image of NaN under
    the conversion to int8 and the shift.  Where that conversion yields 0 (as
    it does on x86) and the bin count is between 2 and 255, this is the center
    symbol [C_max = bins // 2 - 1]. *)
Theorem quantize_zero_row indefinite k v cfg enc :
  quantize indefinite (new_encoder k v cfg) = Ok enc ->
  (forall l t slab row,
     (l < len3 k)%nat ->
     nth_error (data3 k) l = Some slab -> nth_error slab t = Some row ->
     (amax_abs row == 0)%Q ->
     (forall x, In x row -> scaled (key_bins cfg l) row x = NaN) /\
     (exists ml m, nth_error (maxima (max_tensors_key enc)) l = Some ml /\
                   nth_error ml t = Some [m] /\ (m == 0)%Q) /\
     (exists sl, nth_error (symbols (quantized_key enc)) l = Some sl /\
        nth_error sl t =
        Some (map (fun _ =>
                wrap8 (wrap8 (wrap8 indefinite + key_bins cfg l / 2) + -1))
              row))) /\
  (forall l t slab row,
     (l < len3 v)%nat ->
     nth_error (data3 v) l = Some slab -> nth_error slab t = Some row ->
     (amax_abs row == 0)%Q ->
     (forall x, In x row -> scaled (value_bins cfg l) row x = NaN) /\
     (exists ml m, nth_error (maxima (max_tensors_value enc)) l = Some ml /\
                   nth_error ml t = Some [m] /\ (m == 0)%Q) /\
     (exists sl, nth_error (symbols (quantized_value enc)) l = Some sl /\
        nth_error sl t =
        Some (map (fun _ =>
                wrap8 (wrap8 (wrap8 indefinite + value_bins cfg l / 2) + -1))
              row))) /\
  (forall bins,
     wrap8 indefinite = 0 -> 2 <= bins <= 255 ->
     wrap8 (wrap8 (wrap8 indefinite + bins / 2) + -1) = center bins).
Proof.
  intros Hq.
  destruct (quantize_spec _ _ _ _ _ Hq) as (_ & _ & _ & Fk & Mk & Fv & Mv).
  assert (Hsym : forall bins row,
    (amax_abs row == 0)%Q ->
    map (symbol_of indefinite bins row) row =
    map (fun _ => wrap8 (wrap8 (wrap8 indefinite + bins / 2) + -1)) row).
  { intros bins row Hz. apply map_ext_in. intros x Hx. unfold symbol_of.
    now rewrite (scaled_zero_row bins row x Hz Hx). }
  split; [| split]; [intros l t slab row Hlt Hl Ht Hz ..|].
  - split; [intros x Hx; now apply scaled_zero_row |]. split.
    + destruct (nth_error (maxima (max_tensors_key enc)) l) as [ml |] eqn:Hm.
      * destruct (maxima_layer _ _ _ _ _ _ _ Mk Hm) as [slab' [Hl' ->]].
        assert (slab' = slab) by congruence. subst slab'.
        exists (map (fun row => [amax_abs row]) slab), (amax_abs row).
        split; [reflexivity |]. split; [| exact Hz].
        rewrite nth_error_map, Ht. reflexivity.
      * exfalso. apply nth_error_None in Hm.
        rewrite (maxima_length _ _ _ _ _ Mk) in Hm. lia.
    + destruct (nth_error (symbols (quantized_key enc)) l) as [sl |] eqn:Hs.
      * destruct (symbols_layer _ _ _ _ _ _ _ Fk Hs) as [slab' [Hl' ->]].
        assert (slab' = slab) by congruence. subst slab'.
        eexists. split; [reflexivity |].
        rewrite nth_error_map, Ht. simpl. f_equal. now apply Hsym.
      * exfalso. apply nth_error_None in Hs.
        rewrite (symbols_length _ _ _ _ _ Fk) in Hs. lia.
  - split; [intros x Hx; now apply scaled_zero_row |]. split.
    + destruct (nth_error (maxima (max_tensors_value enc)) l) as [ml |] eqn:Hm.
      * destruct (maxima_layer _ _ _ _ _ _ _ Mv Hm) as [slab' [Hl' ->]].
        assert (slab' = slab) by congruence. subst slab'.
        exists (map (fun row => [amax_abs row]) slab), (amax_abs row).
        split; [reflexivity |]. split; [| exact Hz].
        rewrite nth_error_map, Ht. reflexivity.
      * exfalso. apply nth_error_None in Hm.
        rewrite (maxima_length _ _ _ _ _ Mv) in Hm. lia.
    + destruct (nth_error (symbols (quantized_value enc)) l) as [sl |] eqn:Hs.
      * destruct (symbols_layer _ _ _ _ _ _ _ Fv Hs) as [slab' [Hl' ->]].
        assert (slab' = slab) by congruence. subst slab'.
        eexists. split; [reflexivity |].
        rewrite nth_error_map, Ht. simpl. f_equal. now apply Hsym.
      * exfalso. apply nth_error_None in Hs.
        rewrite (symbols_length _ _ _ _ _ Fv) in Hs. lia.
  - intros bins H0 Hb. rewrite H0. unfold center.
    assert (1 <= bins / 2) by (apply Z.div_le_lower_bound; lia).
    assert (bins / 2 < 128) by (apply Z.div_lt_upper_bound; lia).
    rewrite Z.add_0_l, (wrap8_small (bins / 2)) by lia.
    rewrite wrap8_small by lia. lia.
Qed.

Lemma quantize_zero_row_witness :
  exists enc,
    quantize indefinite_x86 (new_encoder zero_fp zero_fp sample_config)
      = Ok enc /\
    (exists ml m, nth_error (maxima (max_tensors_key enc)) 0 = Some ml /\
                  nth_error ml 0 = Some [m] /\ (m == 0)%Q) /\
    (exists sl, nth_error (symbols (quantized_key enc)) 0 = Some sl /\
       nth_error sl 0 =
       Some (map (fun _ =>
               wrap8 (wrap8 (wrap8 indefinite_x86
                             + key_bins sample_config 0 / 2) + -1))
             [0; 0]%Q)).
Proof.
  eexists. split; [vm_compute; reflexivity |].
  refine (proj2 (proj1 (quantize_zero_row indefinite_x86 zero_fp zero_fp
                          sample_config _ _)
                   0%nat 0%nat [[0; 0]]%Q [0; 0]%Q _ _ _ _)).
  - vm_compute; reflexivity.
  - vm_compute; lia.
  - reflexivity.
  - reflexivity.
  - reflexivity.
Defined.

(** C1, counterexample.  For the all-zero row [[0, 0]] the scale [quantize]
    returns is 0, not 1. *)
Lemma quantize_zero_row_scale_not_one :
  exists enc,
    quantize indefinite_x86 (new_encoder zero_fp zero_fp sample_config)
      = Ok enc /\
    (amax_abs [0; 0] == 0)%Q /\
    maxima (max_tensors_key enc) = [[[0%Q]]] /\
    ~ (0 == 1)%Q.
Proof.
  eexists. split; [vm_compute; reflexivity |].
  split; [reflexivity |]. split; [vm_compute; reflexivity |].
  intros H. discriminate H.
Qed.

(* ================================================================== *)
(** ** Offsets *)

Lemma cumulative_offsets_app start bs1 bs2 :
  cumulative_offsets start (bs1 ++ bs2) =
  cumulative_offsets start bs1 ++
  cumulative_offsets (start + Z.of_nat (length (concat bs1))) bs2.
Proof.
  revert start. induction bs1 as [| b bs1 IH]; intros start; simpl.
  - now rewrite Z.add_0_r.
  - rewrite IH, length_app, Nat2Z.inj_add, Z.add_assoc. reflexivity.
Qed.

Lemma cumulative_offsets_length start bs :
  length (cumulative_offsets start bs) = length bs.
Proof.
  revert start. induction bs as [| b bs IH]; intros start; simpl;
    [reflexivity | now rewrite IH].
Qed.

(** The offset of blob [i] is the byte count of the blobs before it. *)
Lemma cumulative_offsets_nth start bs :
  forall i, (i < length bs)%nat ->
  nth_error (cumulative_offsets start bs) i =
  Some (start + Z.of_nat (length (concat (firstn i bs)))).
Proof.
  revert start. induction bs as [| b bs IH]; intros start i Hi; simpl in Hi.
  - lia.
  - destruct i as [| i]; simpl.
    + now rewrite Z.add_0_r.
    + rewrite IH by lia. rewrite length_app, Nat2Z.inj_add, Z.add_assoc.
      reflexivity.
Qed.

Lemma length_concat_firstn_le {A} (bs : list (list A)) i :
  (length (concat (firstn i bs)) <= length (concat bs))%nat.
Proof.
  rewrite <- (firstn_skipn i bs) at 2. rewrite concat_app, length_app. lia.
Qed.

Lemma length_concat_firstn_mono {A} (bs : list (list A)) i j :
  (i <= j)%nat ->
  (length (concat (firstn i bs)) <= length (concat (firstn j bs)))%nat.
Proof.
  intros Hij. replace i with (Nat.min i j) by lia.
  rewrite <- firstn_firstn. apply length_concat_firstn_le.
Qed.

(** Both bookkeeping loops produce the cumulative offsets. *)
Lemma fold_record_blob blobs :
  forall st,
    fold_left record_blob blobs st =
    mkDriver (current_index st + Z.of_nat (length (concat blobs)))
             (indices st ++ cumulative_offsets (current_index st) blobs)
             (bytestreams st ++ blobs).
Proof.
  induction blobs as [| b bs IH]; intros [c idx str]; simpl.
  - now rewrite Z.add_0_r, !app_nil_r.
  - rewrite IH. simpl. rewrite length_app, Nat2Z.inj_add, Z.add_assoc.
    now rewrite <- !app_assoc.
Qed.

Lemma fold_record_blob_gpu blobs :
  forall st,
    fold_left record_blob_gpu blobs st =
    mkDriver (current_index st + Z.of_nat (length (concat blobs)))
             (indices st ++ cumulative_offsets (current_index st) blobs)
             (bytestreams st ++ blobs).
Proof.
  induction blobs as [| b bs IH]; intros [c idx str]; simpl.
  - now rewrite Z.add_0_r, !app_nil_r.
  - rewrite IH. simpl. rewrite length_app, Nat2Z.inj_add, Z.add_assoc.
    now rewrite <- !app_assoc.
Qed.

(** C7 (as amended).  Given the same ordered list of blobs, the loop of the
    gpu path and the loop of the serial path assign the same start indices:
    both record the running byte count before a blob and then advance it by
    the length of the blob, so each start index is the cumulative length of
    the blobs before it. *)
Theorem gpu_start_indices_eq_serial blobs :
  gpu_start_indices blobs = serial_start_indices blobs /\
  serial_start_indices blobs = cumulative_offsets 0 blobs.
Proof.
  unfold gpu_start_indices, serial_start_indices.
  rewrite fold_record_blob, fold_record_blob_gpu. simpl. auto.
Qed.

(** C7, counterexample.  On three blobs of 2, 0 and 3 bytes the two loops
    assign the same start indices [0, 2, 2]; they do not differ. *)
Lemma gpu_start_indices_sample :
  gpu_start_indices sample_blobs = [0; 2; 2] /\
  serial_start_indices sample_blobs = [0; 2; 2] /\
  ~ (gpu_start_indices sample_blobs <> serial_start_indices sample_blobs).
Proof.
  split; [reflexivity |]. split; [reflexivity |].
  intros H. apply H. reflexivity.
Qed.

(* ================================================================== *)
(** ** The two normalizers *)

Lemma Qdiv_1_r_eq (x : Q) : (x / inject_Z 1)%Q = x.
Proof.
  destruct x as [a b]. unfold Qdiv, Qmult, Qinv. simpl.
  now rewrite Z.mul_1_r, Pos.mul_1_r.
Qed.


(* ================================================================== *)
(** ** The serializer facade and determinism *)

(** C10.  [to_bytes] calls the encoder with the chunk-size argument taken
    from the token axis of the tensor it encodes ([tensor.shape[2]] after the
    huggingface transpose, if any); the [chunk_size] stored from the engine
    configuration is not used, so two serializers that differ only in it
    produce the same bytes. *)
Theorem to_bytes_chunk_size_unused indefinite torchac_encode output_to_bytes
  (self self' : CacheGenSerializer) (tensor : Tensor5) :
  cachegen_config self' = cachegen_config self ->
  fmt self' = fmt self ->
  to_bytes indefinite torchac_encode output_to_bytes self tensor =
    (let tensor' := if String.eqb (fmt self) "huggingface"
                    then permute_01324 tensor else tensor in
     output_dict <- encode_function indefinite torchac_encode tensor'
                      (cachegen_config self) (shape_2 tensor') ;;
     Ok (output_to_bytes output_dict)) /\
  to_bytes indefinite torchac_encode output_to_bytes self' tensor =
  to_bytes indefinite torchac_encode output_to_bytes self tensor.
Proof.
  intros Hcfg Hfmt. split.
  - unfold to_bytes, shape_2. cbv zeta.
    destruct (String.eqb (fmt self) "huggingface");
      [destruct (shape5 (permute_01324 tensor)) as [[[[? ?] ?] ?] ?]
      | destruct (shape5 tensor) as [[[[? ?] ?] ?] ?]]; reflexivity.
  - unfold to_bytes. rewrite Hcfg, Hfmt. reflexivity.
Qed.

Lemma to_bytes_chunk_size_unused_witness :
  to_bytes indefinite_x86 sample_coder sample_output_to_bytes
    (mkSerializer sample_config 7 "vllm") sample_kv =
  to_bytes indefinite_x86 sample_coder sample_output_to_bytes
    (mkSerializer sample_config 256 "vllm") sample_kv.
Proof.
  apply (to_bytes_chunk_size_unused indefinite_x86 sample_coder
           sample_output_to_bytes
           (mkSerializer sample_config 256 "vllm")
           (mkSerializer sample_config 7 "vllm") sample_kv);
    reflexivity.
Defined.

(* ================================================================== *)
(** ** The coding loop of [encode_function] *)

Lemma split_kv_shape kv fk fv :
  _split_kv kv = Ok (fk, fv) ->
  len3 fk = shape_0 kv /\ len3 fv = shape_0 kv /\
  data3 fk = split_data kv 0 /\ data3 fv = split_data kv 1 /\
  shape3 fk = shape3 fv /\
  snd (fst (shape3 fk)) = shape_2 kv.
Proof.
  unfold _split_kv, shape_0, shape_2, len3.
  destruct (shape5 kv) as [[[[L d1] T] H] D].
  destruct (Nat.eqb _ _); [| discriminate].
  intros Heq. injection Heq as <- <-. simpl. auto 10.
Qed.

Lemma reshape_shape {A} (t : Tensor2 A) n r c t3 :
  reshape_2_to_3 t n r c = Ok t3 -> shape3 t3 = (n, r, c).
Proof.
  unfold reshape_2_to_3. destruct (shape2 t) as [rows cols].
  destruct (Nat.eqb _ _); [| discriminate].
  intros H. injection H as <-. reflexivity.
Qed.

Lemma compute_cdf_shape self is_key c :
  compute_cdf self is_key = Ok c ->
  exists channels, shape3 c = (len3 (fp_k self), channels, 33%nat).
Proof.
  unfold compute_cdf. intros H. inv_bind H. inv_bind H.
  apply reshape_shape in H. eauto.
Qed.

Lemma cat3_shape {A} (a b c : Tensor3 A) :
  cat3 a b = Ok c ->
  len3 c = (len3 a + len3 b)%nat /\
  snd (fst (shape3 c)) = snd (fst (shape3 a)) /\
  snd (shape3 c) = snd (shape3 a) /\
  data3 c = data3 a ++ data3 b.
Proof.
  unfold cat3, len3. destruct (shape3 a) as [[na ra] ca].
  destruct (shape3 b) as [[nb rb] cb].
  destruct (_ && _); [| discriminate].
  intros H. injection H as <-. simpl. auto.
Qed.

Lemma record_blob_invariant st bits n :
  current_index st = Z.of_nat (length (concat (bytestreams st))) ->
  indices st = cumulative_offsets 0 (bytestreams st) ->
  length (bytestreams st) = n ->
  current_index (record_blob st bits)
    = Z.of_nat (length (concat (bytestreams (record_blob st bits)))) /\
  indices (record_blob st bits)
    = cumulative_offsets 0 (bytestreams (record_blob st bits)) /\
  length (bytestreams (record_blob st bits)) = S n.
Proof.
  intros Hc Hi Hn. unfold record_blob. simpl. repeat split.
  - rewrite concat_app, length_app, Nat2Z.inj_add, Hc. simpl.
    now rewrite app_nil_r.
  - rewrite cumulative_offsets_app, <- Hi, Hc. reflexivity.
  - rewrite length_app, Hn. simpl. lia.
Qed.

(** The nested loop over [(l, i)] records one blob per iteration; at its end
    the indices are the cumulative offsets of the recorded blobs. *)
Lemma coding_loop_offsets
  (body : nat -> nat -> result bytes) (n chunk : nat) st :
  for_each (seq 0 n)
    (fun st l =>
       for_each (seq 0 chunk)
         (fun st i => bits <- body l i ;; Ok (record_blob st bits)) st)
    driver_init = Ok st ->
  current_index st = Z.of_nat (length (concat (bytestreams st))) /\
  indices st = cumulative_offsets 0 (bytestreams st) /\
  length (bytestreams st) = (n * chunk)%nat.
Proof.
  intros Hrun.
  pose (J := fun (count : nat) (st : driver_state) =>
    current_index st = Z.of_nat (length (concat (bytestreams st))) /\
    indices st = cumulative_offsets 0 (bytestreams st) /\
    length (bytestreams st) = count).
  change (J (n * chunk)%nat st).
  refine (for_each_seq_invariant (fun l => J (l * chunk)%nat) _ n 0%nat
            driver_init st Hrun _ _).
  - unfold J. simpl. auto.
  - intros l a a' _ HJ Hinner.
    replace (S l * chunk)%nat with (l * chunk + (0 + chunk))%nat by lia.
    refine (for_each_seq_invariant (fun i => J (l * chunk + i)%nat) _ chunk
              0%nat a a' Hinner _ _).
    + now rewrite Nat.add_0_r.
    + intros i b b' _ (Hc & Hi & Hn) Hbody. inv_bind Hbody.
      injection Hbody as <-. unfold J.
      replace (l * chunk + S i)%nat with (S (l * chunk + i)) by lia.
      now apply record_blob_invariant.
Qed.

(** What a successful run of [encode_function] went through. *)
Lemma encode_function_inv indefinite torchac_encode kv cfg chunk out :
  encode_function indefinite torchac_encode kv cfg chunk = Ok out ->
  exists fk fv enc cdf_k cdf_v cdf_f st,
    _split_kv kv = Ok (fk, fv) /\
    quantize indefinite (new_encoder fk fv cfg) = Ok enc /\
    compute_cdf enc true = Ok cdf_k /\
    compute_cdf enc false = Ok cdf_v /\
    cat3 cdf_k cdf_v = Ok cdf_f /\
    current_index st = Z.of_nat (length (concat (bytestreams st))) /\
    indices st = cumulative_offsets 0 (bytestreams st) /\
    length (bytestreams st) = (len3 cdf_f * chunk)%nat /\
    bytestream out = concat (bytestreams st) /\
    start_indices out = to_int32_tensor (indices st) /\
    cdf out = _renorm_cast_cdf_ indefinite cdf_f 16.
Proof.
  unfold encode_function. destruct (shape5 kv) as [[[[? ?] ?] nh] hs].
  intros H. inv_bind H. destruct a as [fk fv].
  inv_bind H. rename a into enc. inv_bind H. rename a into cdf_k.
  inv_bind H. inv_bind H. rename a0 into cdf_v. inv_bind H.
  inv_bind H. rename a1 into cdf_f. inv_bind H. inv_bind H.
  rename a2 into st. inv_bind H. inv_bind H. injection H as <-.
  exists fk, fv, enc, cdf_k, cdf_v, cdf_f, st. simpl.
  match goal with
  | Hl : for_each _ _ driver_init = Ok st |- _ =>
      rename Hl into Hloop
  end.
  assert (Hoff := coding_loop_offsets
    (fun l i => syms <- slice1_row a1 l i ;;
                torchac_encode
                  (slice1 l (data3 (_convert_to_int_and_normalize
                                      indefinite cdf_f true)))
                  (map2d wrap16 syms))
    (len3 cdf_f) chunk st).
  destruct Hoff as (Hc & Hi & Hn).
  { rewrite <- Hloop. apply for_each_ext. intros st0 l.
    apply for_each_ext. intros st1 i.
    destruct (slice1_row a1 l i); reflexivity. }
  repeat split; assumption.
Qed.

(** C8.  For every floating CDF tensor, the normalization stored in the
    output, [_renorm_cast_cdf_] at precision 16, is the same tensor as the
    normalization handed to the coder, [_convert_to_int_and_normalize] with
    [needs_normalization = True]; so the CDF a successful [encode_function]
    stores is the integer CDF its coding loop used. *)
Theorem renorm_cast_eq_convert indefinite (cdf_float : Tensor3 fval) :
  _renorm_cast_cdf_ indefinite cdf_float 16 =
  _convert_to_int_and_normalize indefinite cdf_float true /\
  (forall torchac_encode kv cfg chunk out,
     encode_function indefinite torchac_encode kv cfg chunk = Ok out ->
     exists fk fv enc cdf_k cdf_v cdf_f,
       _split_kv kv = Ok (fk, fv) /\
       quantize indefinite (new_encoder fk fv cfg) = Ok enc /\
       compute_cdf enc true = Ok cdf_k /\
       compute_cdf enc false = Ok cdf_v /\
       cat3 cdf_k cdf_v = Ok cdf_f /\
       cdf out = _convert_to_int_and_normalize indefinite cdf_f true).
Proof.
  assert (Heq : forall c, _renorm_cast_cdf_ indefinite c 16 =
                          _convert_to_int_and_normalize indefinite c true).
  { intros c. unfold _renorm_cast_cdf_, _convert_to_int_and_normalize.
    cbv zeta. rewrite Qdiv_1_r_eq. reflexivity. }
  split; [apply Heq |].
  intros torchac_encode kv cfg chunk out H.
  destruct (encode_function_inv _ _ _ _ _ _ H)
    as (fk & fv & enc & cdf_k & cdf_v & cdf_f & st & Hsplit & Hq & Hck & Hcv
        & Hcat & _ & _ & _ & _ & _ & Hcdf).
  exists fk, fv, enc, cdf_k, cdf_v, cdf_f.
  rewrite <- Heq. auto 10.
Qed.

Lemma renorm_cast_eq_convert_witness :
  exists out cdf_f,
    encode_function indefinite_x86 sample_coder sample_kv sample_config 2
      = Ok out /\
    cdf out = _convert_to_int_and_normalize indefinite_x86 cdf_f true.
Proof.
  assert (H : exists out,
            encode_function indefinite_x86 sample_coder sample_kv
              sample_config 2 = Ok out)
    by (eexists; vm_compute; reflexivity).
  destruct H as [out H].
  destruct (proj2 (renorm_cast_eq_convert indefinite_x86
                     (mkTensor3 (0, 0, 0)%nat []))
              sample_coder sample_kv sample_config 2%nat out H)
    as (fk & fv & enc & cdf_k & cdf_v & cdf_f & _ & _ & _ & _ & _ & Hcdf).
  exists out, cdf_f. split; assumption.
Defined.

Lemma cumulative_offsets_non_decreasing start bs :
  non_decreasing (cumulative_offsets start bs).
Proof.
  intros i j a b Hij Ha Hb.
  assert (Hj : (j < length bs)%nat).
  { rewrite <- (cumulative_offsets_length start bs).
    apply nth_error_Some. congruence. }
  rewrite cumulative_offsets_nth in Ha, Hb by lia.
  injection Ha as <-. injection Hb as <-.
  pose proof (length_concat_firstn_mono bs i j Hij). lia.
Qed.

Lemma cumulative_offsets_bounds bs i o :
  nth_error (cumulative_offsets 0 bs) i = Some o ->
  0 <= o <= Z.of_nat (length (concat bs)).
Proof.
  intros Ho.
  assert (Hi : (i < length bs)%nat).
  { rewrite <- (cumulative_offsets_length 0 bs).
    apply nth_error_Some. congruence. }
  rewrite cumulative_offsets_nth in Ho by lia. injection Ho as <-.
  pose proof (length_concat_firstn_le bs i). lia.
Qed.

(** Offsets below [2 ^ 31] are stored unchanged by the cast to int32. *)
Lemma to_int32_tensor_small bs :
  Z.of_nat (length (concat bs)) < 2 ^ 31 ->
  to_int32_tensor (cumulative_offsets 0 bs) = cumulative_offsets 0 bs.
Proof.
  intros Hlen. unfold to_int32_tensor.
  rewrite <- (map_id (cumulative_offsets 0 bs)) at 2.
  apply map_ext_in. intros o Ho.
  apply In_nth_error in Ho. destruct Ho as [i Ho].
  apply cumulative_offsets_bounds in Ho. apply wrap32_small. lia.
Qed.

(** With a coder that returns the same blob for every row, the encoding of
    the two rows of [tiny_kv] is that blob twice. *)
Lemma encode_constant_blob (blob : bytes) :
  exists c mk mv,
    encode_function indefinite_x86 (fun _ _ => Ok blob) tiny_kv sample_config 1
    = Ok (mkOutput (blob ++ blob ++ [])
            (to_int32_tensor [0; 0 + Z.of_nat (length blob)]) c mk mv 1 1).
Proof.
  eexists _, _, _. lazy -[wrap32]. reflexivity.
Qed.

(** C4, counterexample.  The offsets are stored as 32-bit integers: when the
    coder returns blobs of [2 ^ 31] bytes, the second start index of the
    encoding of [tiny_kv] is stored as [- 2 ^ 31], which is negative. *)
Lemma encode_function_offsets_overflow :
  exists out,
    encode_function indefinite_x86 (fun _ _ => Ok huge_blob) tiny_kv
      sample_config (shape_2 tiny_kv) = Ok out /\
    nth_error (start_indices out) 1 = Some (- 2 ^ 31) /\
    ~ (0 <= - 2 ^ 31).
Proof.
  destruct (encode_constant_blob huge_blob) as (c & mk & mv & H).
  eexists. split; [exact H |]. split; [| lia].
  cbn [start_indices to_int32_tensor map nth_error].
  unfold huge_blob. rewrite repeat_length, Z2Nat.id by lia.
  reflexivity.
Qed.

(* ================================================================== *)
(** ** The CDF estimator: counting *)

Lemma count_eq_cons a v col :
  count_eq a (v :: col) =
  (if Z.of_nat a =? v then 1 else 0) + count_eq a col.
Proof.
  unfold count_eq. cbn [filter].
  destruct (Z.of_nat a =? v); cbn [length]; lia.
Qed.

Lemma vec_add_one_hot K (f : nat -> Z) v :
  vec_add (map (fun a => inject_Z (f a)) (seq 0 K)) (one_hot_vec K v) =
  map (fun a => inject_Z (f a + (if Z.of_nat a =? v then 1 else 0)))
      (seq 0 K).
Proof.
  unfold vec_add, one_hot_vec. generalize (seq 0 K). intros l.
  induction l as [| a l IH]; simpl; [reflexivity |].
  rewrite IH. f_equal. rewrite inject_Z_plus.
  destruct (Z.of_nat a =? v); reflexivity.
Qed.

(** Summing the one-hot vectors of a column counts, for every symbol, how
    often it occurs. *)
Lemma sum_one_hot K col :
  forall f,
    fold_left vec_add (map (one_hot_vec K) col)
      (map (fun a => inject_Z (f a)) (seq 0 K)) =
    map (fun a => inject_Z (f a + count_eq a col)) (seq 0 K).
Proof.
  induction col as [| v col IH]; intros f; simpl.
  - apply map_ext. intros a. unfold count_eq. simpl. now rewrite Z.add_0_r.
  - rewrite vec_add_one_hot, IH. apply map_ext. intros a.
    rewrite count_eq_cons. now rewrite Z.add_assoc.
Qed.

Lemma sum_vecs_one_hot K col :
  sum_vecs K (map (one_hot_vec K) col) =
  map (fun a => inject_Z (count_eq a col)) (seq 0 K).
Proof.
  unfold sum_vecs.
  replace (repeat 0%Q K) with (map (fun a => inject_Z ((fun _ => 0) a))
                                   (seq 0 K)).
  - rewrite sum_one_hot. reflexivity.
  - change (inject_Z 0) with 0%Q. generalize 0%nat.
    induction K as [| K IH]; intros s; simpl; [reflexivity | now rewrite IH].
Qed.

Lemma count_below_0 col :
  Forall (fun v => 0 <= v) col -> count_below 0 col = 0.
Proof.
  unfold count_below.
  induction 1 as [| v col Hv _ IH]; cbn [filter Z.of_nat]; [reflexivity |].
  destruct (v <? 0) eqn:E; [apply Z.ltb_lt in E; lia | exact IH].
Qed.

(** A symbol is below [a + 1] when it is below [a] or equal to [a]. *)
Lemma count_below_succ a col :
  count_below (S a) col = count_below a col + count_eq a col.
Proof.
  unfold count_below, count_eq. induction col as [| v col IH]; cbn [filter].
  - reflexivity.
  - destruct (v <? Z.of_nat (S a)) eqn:E1;
    destruct (v <? Z.of_nat a) eqn:E2;
    destruct (Z.of_nat a =? v) eqn:E3; cbn [length];
    rewrite ?Z.ltb_lt, ?Z.ltb_ge, ?Z.eqb_eq, ?Z.eqb_neq in *; lia.
Qed.

Lemma count_below_le_length a col :
  0 <= count_below a col <= Z.of_nat (length col).
Proof.
  unfold count_below. pose proof (filter_length_le (fun v => v <? Z.of_nat a) col).
  lia.
Qed.

Lemma count_below_mono a b col :
  (a <= b)%nat -> count_below a col <= count_below b col.
Proof.
  intros Hab. induction Hab as [| b Hab IH]; [lia |].
  rewrite count_below_succ. unfold count_eq. lia.
Qed.


(* ================================================================== *)
(** ** The CDF estimator: one row *)

Lemma fdiv_by_tokens (x : Q) (T : nat) :
  (0 < T)%nat ->
  fdiv (Fin x) (Fin (inject_Z (Z.of_nat T))) =
  Fin (x / inject_Z (Z.of_nat T)).
Proof.
  intros HT. unfold fdiv. rewrite Qsign_pos; [reflexivity |].
  change 0%Q with (inject_Z 0). rewrite <- Zlt_Qlt. lia.
Qed.

Lemma probabilities_eq T col :
  (0 < T)%nat ->
  probabilities T col =
  map (fun a => Fin (inject_Z (count_eq a col) / inject_Z (Z.of_nat T)))
      (seq 0 33).
Proof.
  intros HT. unfold probabilities. rewrite sum_vecs_one_hot, map_map.
  apply map_ext. intros a. now apply fdiv_by_tokens.
Qed.

Lemma cumsum_from_length acc row :
  length (cumsum_from acc row) = length row.
Proof.
  revert acc. induction row as [| x xs IH]; intros acc; simpl;
    [reflexivity | now rewrite IH].
Qed.

Lemma cumsum_length row : length (cumsum row) = length row.
Proof.
  destruct row as [| x xs]; simpl; [reflexivity |].
  now rewrite cumsum_from_length.
Qed.

Lemma count_below_step T a col acc :
  (0 < T)%nat ->
  (acc == inject_Z (count_below a col) / inject_Z (Z.of_nat T))%Q ->
  (acc + inject_Z (count_eq a col) / inject_Z (Z.of_nat T) ==
   inject_Z (count_below (S a) col) / inject_Z (Z.of_nat T))%Q.
Proof.
  intros HT Hacc. rewrite Hacc, count_below_succ, inject_Z_plus.
  field. change 0%Q with (inject_Z 0). rewrite inject_Z_injective. lia.
Qed.

(** The running sum of the probabilities from symbol [s] on, started from
    the probability of the symbols below [s]. *)
Lemma cumsum_from_counts T col :
  (0 < T)%nat ->
  forall n s acc,
    (acc == inject_Z (count_below s col) / inject_Z (Z.of_nat T))%Q ->
    forall i, (i < n)%nat ->
    exists q,
      nth_error
        (cumsum_from (Fin acc)
           (map (fun a => Fin (inject_Z (count_eq a col)
                               / inject_Z (Z.of_nat T)))
                (seq s n))) i = Some (Fin q) /\
      (q == inject_Z (count_below (s + i + 1) col)
            / inject_Z (Z.of_nat T))%Q.
Proof.
  intros HT. induction n as [| n IH]; intros s acc Hacc i Hi; [lia |].
  simpl. pose proof (count_below_step T s col acc HT Hacc) as Hstep.
  destruct i as [| i]; simpl.
  - eexists. split; [reflexivity |].
    now replace (s + 0 + 1)%nat with (S s) by lia.
  - destruct (IH (S s) _ Hstep i ltac:(lia)) as [q [Hq Hv]].
    exists q. split; [exact Hq |].
    now replace (s + S i + 1)%nat with (S s + i + 1)%nat by lia.
Qed.

Lemma cumsum_probabilities T col :
  (0 < T)%nat -> Forall (fun v => 0 <= v) col ->
  forall a, (a < 33)%nat ->
  exists q,
    nth_error (cumsum (probabilities T col)) a = Some (Fin q) /\
    (q == inject_Z (count_below (S a) col) / inject_Z (Z.of_nat T))%Q.
Proof.
  intros HT Hpos a Ha. rewrite (probabilities_eq T col HT).
  change (seq 0 33) with (0%nat :: seq 1 32). cbn [map cumsum].
  assert (H0 : (inject_Z (count_eq 0 col) / inject_Z (Z.of_nat T) ==
                inject_Z (count_below 1 col) / inject_Z (Z.of_nat T))%Q).
  { rewrite count_below_succ, (count_below_0 col Hpos). reflexivity. }
  destruct a as [| a]; cbn [nth_error].
  - eexists. split; [reflexivity | exact H0].
  - destruct (cumsum_from_counts T col HT 32 1 _ H0 a ltac:(lia))
      as [q [Hq Hv]].
    exists q. split; [exact Hq |].
    now replace (S (S a)) with (1 + a + 1)%nat by lia.
Qed.

Lemma nth_error_removelast {A} (l : list A) i :
  (S i < length l)%nat -> nth_error (removelast l) i = nth_error l i.
Proof.
  revert i. induction l as [| x l IH]; intros i Hi; simpl in Hi; [lia |].
  destruct l as [| y l]; [simpl in Hi; lia |].
  destruct i as [| i]; [reflexivity |].
  change (removelast (x :: y :: l)) with (x :: removelast (y :: l)).
  cbn [nth_error]. apply IH. simpl. simpl in Hi. lia.
Qed.

Lemma probabilities_length T col : length (probabilities T col) = 33%nat.
Proof.
  unfold probabilities. now rewrite sum_vecs_one_hot, !length_map, length_seq.
Qed.

Lemma removelast_length {A} (l : list A) :
  length (removelast l) = pred (length l).
Proof.
  induction l as [| x l IH]; [reflexivity |].
  destruct l as [| y l]; [reflexivity |].
  change (removelast (x :: y :: l)) with (x :: removelast (y :: l)).
  cbn [length] in *. now rewrite IH.
Qed.

Lemma cdf_row_length T col : length (cdf_row T col) = 33%nat.
Proof.
  unfold cdf_row. cbn [length].
  now rewrite removelast_length, cumsum_length, probabilities_length.
Qed.

(** The entry for symbol [a] of the CDF row of a column is the share of the
    symbols of the column that are strictly less than [a]. *)
Lemma cdf_row_entry T col :
  (0 < T)%nat -> Forall (fun v => 0 <= v) col ->
  forall a, (a < 33)%nat ->
  exists q,
    nth_error (cdf_row T col) a = Some (Fin q) /\
    (q == inject_Z (count_below a col) / inject_Z (Z.of_nat T))%Q.
Proof.
  intros HT Hpos a Ha. unfold cdf_row. destruct a as [| a]; cbn [nth_error].
  - exists 0%Q. split; [reflexivity |].
    rewrite (count_below_0 col Hpos). reflexivity.
  - rewrite nth_error_removelast
      by (rewrite cumsum_length, probabilities_length; lia).
    apply cumsum_probabilities; [assumption | assumption | lia].
Qed.

(* ================================================================== *)
(** ** Flattening and regrouping rows of equal length *)

Lemma firstn_app_exact {A} (l1 l2 : list A) n :
  length l1 = n -> firstn n (l1 ++ l2) = l1.
Proof.
  intros <-. rewrite firstn_app, Nat.sub_diag, firstn_all. simpl.
  apply app_nil_r.
Qed.

Lemma skipn_app_exact {A} (l1 l2 : list A) n m :
  length l1 = n -> skipn (n + m) (l1 ++ l2) = skipn m l2.
Proof.
  intros <-. rewrite skipn_app.
  rewrite (skipn_all2 l1) by lia. simpl. f_equal. lia.
Qed.

(** The [k]-th group of [K] entries of the flattening is the [k]-th row. *)
Lemma firstn_skipn_concat {A} K (rows : list (list A)) :
  Forall (fun r => length r = K) rows ->
  forall k r, nth_error rows k = Some r ->
  firstn K (skipn (k * K) (concat rows)) = r.
Proof.
  induction 1 as [| row rows Hrow _ IH]; intros k r Hk.
  - destruct k; discriminate.
  - destruct k as [| k]; simpl in Hk.
    + injection Hk as <-. simpl. now apply firstn_app_exact.
    + cbn [concat]. replace (S k * K)%nat with (K + k * K)%nat by lia.
      rewrite skipn_app_exact by assumption. now apply IH.
Qed.

Lemma nth_error_concat_uniform {A} C (slabs : list (list A)) :
  Forall (fun s => length s = C) slabs ->
  forall l slab j, nth_error slabs l = Some slab -> (j < C)%nat ->
  nth_error (concat slabs) (l * C + j) = nth_error slab j.
Proof.
  induction 1 as [| s slabs Hs _ IH]; intros l slab j Hl Hj.
  - destruct l; discriminate.
  - destruct l as [| l]; simpl in Hl.
    + injection Hl as <-. simpl. apply nth_error_app1. lia.
    + cbn [concat]. rewrite nth_error_app2 by lia.
      replace (S l * C + j - length s)%nat with (l * C + j)%nat by lia.
      now apply IH.
Qed.

Lemma map_nth_error_seq {A B} (f : nat -> B) (g : A -> B) (xs : list A) :
  (forall i x, nth_error xs i = Some x -> f i = g x) ->
  map f (seq 0 (length xs)) = map g xs.
Proof.
  revert f. induction xs as [| x xs IH]; intros f H; [reflexivity |].
  cbn [length]. rewrite <- cons_seq, <- seq_shift. cbn [map].
  rewrite (H 0%nat x eq_refl), map_map. f_equal.
  apply IH. intros i y Hy. now apply (H (S i)).
Qed.

(** Rotating the flattened rows right by one position and then overwriting
    the first entry of every row leaves each row shifted right by one, with
    0 in front. *)
Lemma shifted_rows K (rows : list (list fval)) :
  (0 < K)%nat -> Forall (fun r => length r = K) rows ->
  forall e,
    map (fun r =>
           match firstn K (skipn (r * K) (e :: removelast (concat rows))) with
           | [] => []
           | _ :: tl => Fin 0 :: tl
           end)
        (seq 0 (length rows)) =
    map (fun r => Fin 0 :: removelast r) rows.
Proof.
  intros HK. induction 1 as [| row rows Hrow Hrows IH]; intros e.
  - reflexivity.
  - cbn [length]. rewrite <- cons_seq, <- seq_shift. cbn [map concat].
    assert (Hlen : length (e :: removelast row) = K).
    { cbn [length]. rewrite removelast_length, Hrow. lia. }
    assert (Hne : row <> []) by (intros ->; simpl in Hrow; lia).
    destruct rows as [| row2 rows].
    + cbn [concat length seq map]. rewrite app_nil_r. cbn [Nat.mul skipn].
      rewrite firstn_all2 by lia. reflexivity.
    + assert (Hne2 : concat (row2 :: rows) <> []).
      { pose proof (Forall_inv Hrows) as Hr2. cbn [concat].
        destruct row2; [simpl in Hr2; lia | discriminate]. }
      assert (Hbig : e :: removelast (row ++ concat (row2 :: rows)) =
                     (e :: removelast row) ++
                     (last row NaN :: removelast (concat (row2 :: rows)))).
      { rewrite removelast_app by assumption.
        rewrite (app_removelast_last NaN Hne) at 1.
        cbn [app]. now rewrite <- !app_assoc. }
      rewrite Hbig. f_equal.
      * cbn [Nat.mul skipn]. now rewrite firstn_app_exact.
      * rewrite map_map. rewrite <- (IH (last row NaN)).
        apply map_ext. intros r.
        replace (S r * K)%nat with (K + r * K)%nat by lia.
        now rewrite skipn_app_exact.
Qed.

Lemma roll1_zero_first_column K (rows : list (list fval)) :
  (0 < K)%nat -> Forall (fun r => length r = K) rows ->
  zero_first_column (roll1 NaN K rows) =
  map (fun r => Fin 0 :: removelast r) rows.
Proof.
  intros HK Hrows. unfold zero_first_column, roll1. rewrite map_map.
  destruct rows as [| row rows]; [reflexivity |].
  assert (Hne : concat (row :: rows) <> []).
  { pose proof (Forall_inv Hrows) as Hr. cbn [concat].
    destruct row; [simpl in Hr; lia | discriminate]. }
  destruct (concat (row :: rows)) as [| y flat] eqn:E; [congruence |].
  rewrite <- E. now apply shifted_rows.
Qed.

(* ================================================================== *)
(** ** The CDF estimator: layers and banks *)

Lemma column_in_alphabet lo hi x c :
  lo <= 0 <= hi -> symbols_between lo hi x ->
  Forall (fun v => lo <= v <= hi) (column x c).
Proof.
  intros H0 Hx. unfold column. apply Forall_map.
  unfold symbols_between in Hx. rewrite Forall_forall in *.
  intros row Hrow. specialize (Hx row Hrow). rewrite Forall_forall in Hx.
  destruct (nth_in_or_default c row 0) as [Hin | ->]; [now apply Hx | exact H0].
Qed.

Lemma permute2_columns x T C :
  shape2 x = (T, C) ->
  permute2 0 x = mkTensor2 (C, T) (map (column x) (seq 0 C)).
Proof. intros Hs. unfold permute2. rewrite Hs. reflexivity. Qed.

Lemma one_hot_ok (X : list (list Z)) :
  Forall (Forall (fun v => 0 <= v <= 32)) X ->
  one_hot X 33 = Ok (map2d (one_hot_vec 33) X).
Proof.
  intros H. unfold one_hot. change (33 <=? 0) with false. cbv iota.
  assert (Hall : forallb (forallb (fun v => (0 <=? v) && (v <? 33))) X = true).
  { apply forallb_forall. intros row Hrow. apply forallb_forall. intros v Hv.
    rewrite Forall_forall in H. specialize (H row Hrow).
    rewrite Forall_forall in H. specialize (H v Hv).
    apply andb_true_intro. split; [apply Z.leb_le | apply Z.ltb_lt]; lia. }
  now rewrite Hall.
Qed.

(** [process_batch] on a layer with symbols in the alphabet: one CDF row per
    channel. *)
Lemma process_batch_ok T C x :
  tensor2_ok T C x -> symbols_between 0 32 x ->
  process_batch (permute2 0 x) 32 =
  Ok (mkTensor2 (C, 33%nat)
        (map (fun c => cdf_row T (column x c)) (seq 0 C))).
Proof.
  intros (Hs & _ & _) Hsym.
  rewrite (permute2_columns x T C Hs). unfold process_batch.
  cbn [shape2 data2]. change (32 + 1) with 33.
  change (Z.to_nat 33) with 33%nat.
  rewrite one_hot_ok.
  - cbn [bind]. f_equal. f_equal.
    rewrite roll1_zero_first_column; [| lia |].
    + unfold map2d. rewrite !map_map. reflexivity.
    + unfold map2d. rewrite !map_map. apply Forall_map.
      apply Forall_forall. intros c _.
      rewrite cumsum_length. apply probabilities_length.
  - apply Forall_map. apply Forall_forall. intros c _.
    apply column_in_alphabet; [lia | assumption].
Qed.

Lemma fold_shape_rows {A} C K (ts : list (Tensor2 A)) :
  Forall (fun t => shape2 t = (C, K)) ts ->
  fold_right (fun t n => (fst (shape2 t) + n)%nat) 0%nat ts
  = (length ts * C)%nat.
Proof.
  induction 1 as [| t ts Ht _ IH]; simpl; [reflexivity |].
  now rewrite IH, Ht.
Qed.

Lemma cat2_ok {A} C K (t0 : Tensor2 A) (ts : list (Tensor2 A)) :
  Forall (fun t => shape2 t = (C, K)) (t0 :: ts) ->
  cat2 (t0 :: ts) =
  Ok (mkTensor2 ((length (t0 :: ts) * C)%nat, K)
        (concat (map (@data2 A) (t0 :: ts)))).
Proof.
  intros H. unfold cat2.
  assert (H0 : shape2 t0 = (C, K)) by (now inversion H).
  assert (Hall : forallb (fun t => Nat.eqb (snd (shape2 t)) (snd (shape2 t0)))
                   (t0 :: ts) = true).
  { apply forallb_forall. intros t Ht. rewrite Forall_forall in H.
    rewrite (H t Ht), H0. apply Nat.eqb_refl. }
  rewrite Hall, (fold_shape_rows C K _ H), H0. reflexivity.
Qed.

(** [process_layers] on a non-empty bank of layers with symbols in the
    alphabet: the CDF rows of all layers, layer after layer. *)
Lemma process_layers_ok T C (X : list (Tensor2 Z)) :
  X <> [] ->
  Forall (tensor2_ok T C) X -> Forall (symbols_between 0 32) X ->
  process_layers X 32 =
  Ok (mkTensor2 ((length X * C)%nat, 33%nat)
        (concat (map (fun x => map (fun c => cdf_row T (column x c))
                                   (seq 0 C)) X))).
Proof.
  intros Hne Hok Hsym. unfold process_layers.
  rewrite (map_result_all_ok _
             (fun x => mkTensor2 (C, 33%nat)
                         (map (fun c => cdf_row T (column x c)) (seq 0 C)))).
  - cbn [bind]. destruct X as [| x0 X]; [congruence |].
    cbn [map]. rewrite (cat2_ok C 33%nat).
    + cbn [length map]. rewrite length_map, map_map. reflexivity.
    + change (Forall (fun t => shape2 t = (C, 33%nat))
                (map (fun x => mkTensor2 (C, 33%nat)
                        (map (fun c => cdf_row T (column x c)) (seq 0 C)))
                     (x0 :: X))).
      apply Forall_map. apply Forall_forall. reflexivity.
  - intros x Hx. rewrite Forall_forall in Hok, Hsym.
    apply process_batch_ok; auto.
Qed.

(** [compute_cdf] on an encoder whose bank holds [L >= 1] layers of shape
    [[T, C]] with symbols in the alphabet: it succeeds, and the CDF tensor
    holds, for every layer and channel, the CDF row of the column. *)
Lemma compute_cdf_ok self is_key L T C :
  shape3 (fp_k self) = (L, T, C) ->
  length (data3 (fp_k self)) = L ->
  (0 < L)%nat ->
  length (bank self is_key) = L ->
  Forall (tensor2_ok T C) (bank self is_key) ->
  Forall (symbols_between 0 32) (bank self is_key) ->
  compute_cdf self is_key =
  Ok (mkTensor3 (L, C, 33%nat)
        (map (fun x => map (fun c => cdf_row T (column x c)) (seq 0 C))
             (bank self is_key))).
Proof.
  intros Hshape Hdata HL Hlen Hok Hsym. unfold compute_cdf, index3.
  rewrite Hshape.
  destruct (nth_error (data3 (fp_k self)) 0) as [d |] eqn:Hd;
    [| apply nth_error_None in Hd; lia].
  cbn [bind shape2 snd].
  fold (bank self is_key).
  change (if is_key then dict_values (quantized_key self)
          else dict_values (quantized_value self)) with (bank self is_key).
  rewrite (process_layers_ok T C); try assumption;
    [| intros E; rewrite E in Hlen; simpl in Hlen; lia].
  cbn [bind]. unfold reshape_2_to_3, len3. rewrite Hshape.
  cbn [shape2 data2]. change (Z.to_nat (32 + 1)) with 33%nat.
  rewrite Hlen, Nat.eqb_refl. f_equal. f_equal.
  set (slabs := map (fun x => map (fun c => cdf_row T (column x c)) (seq 0 C))
                    (bank self is_key)).
  assert (Hslabs : Forall (fun s => length s = C) slabs).
  { apply Forall_map. apply Forall_forall. intros x _.
    now rewrite length_map, length_seq. }
  assert (Hrows : Forall (fun r => length r = 33%nat) (concat slabs)).
  { apply Forall_concat. apply Forall_map. apply Forall_forall. intros x _.
    apply Forall_map. apply Forall_forall. intros c _. apply cdf_row_length. }
  rewrite <- Hlen.
  rewrite (map_nth_error_seq _
             (fun x => map (fun c => cdf_row T (column x c)) (seq 0 C))).
  - reflexivity.
  - intros l x Hx. apply map_ext_in. intros j Hj. apply in_seq in Hj.
    apply (firstn_skipn_concat 33 _ Hrows).
    rewrite (nth_error_concat_uniform C slabs Hslabs l
               (map (fun c => cdf_row T (column x c)) (seq 0 C)) j).
    + rewrite nth_error_map, nth_error_seq.
      destruct (Nat.ltb_spec j C); [reflexivity | lia].
    + unfold slabs. now rewrite nth_error_map, Hx.
    + lia.
Qed.

Lemma Qdiv_tokens_le (n m : Z) (T : nat) :
  (0 < T)%nat -> n <= m ->
  (inject_Z n / inject_Z (Z.of_nat T) <= inject_Z m / inject_Z (Z.of_nat T))%Q.
Proof.
  intros HT Hnm. unfold Qdiv. apply Qmult_le_compat_r.
  - now rewrite <- Zle_Qle.
  - apply Qinv_le_0_compat. change 0%Q with (inject_Z 0).
    rewrite <- Zle_Qle. lia.
Qed.


Lemma column_length x c : length (column x c) = length (data2 x).
Proof. unfold column. apply length_map. Qed.






(* ================================================================== *)
(** ** Shapes through [_split_kv] and [quantize] *)

Lemma split_data_ok kv k :
  length (split_data kv k) = shape_0 kv /\
  Forall (fun slab => length slab = shape_2 kv /\
                      Forall (fun row => length row = channels_of kv) slab)
         (split_data kv k).
Proof.
  unfold split_data, shape_0, shape_2, channels_of.
  destruct (shape5 kv) as [[[[L d1] T] H] D]. split.
  - now rewrite length_map, length_seq.
  - apply Forall_map. apply Forall_forall. intros l _. split.
    + now rewrite length_map, length_seq.
    + apply Forall_map. apply Forall_forall. intros t _.
      now rewrite length_map, length_seq.
Qed.

Lemma split_kv_ok kv fk fv :
  _split_kv kv = Ok (fk, fv) ->
  tensor3_ok (shape_0 kv) (shape_2 kv) (channels_of kv) fk /\
  tensor3_ok (shape_0 kv) (shape_2 kv) (channels_of kv) fv.
Proof.
  intros H. pose proof (split_data_ok kv 0) as [Hl0 Hd0].
  pose proof (split_data_ok kv 1) as [Hl1 Hd1].
  unfold _split_kv in H. unfold tensor3_ok.
  unfold shape_0, shape_2, channels_of in *.
  destruct (shape5 kv) as [[[[L d1] T] Hh] D].
  destruct (Nat.eqb _ _); [| discriminate].
  injection H as <- <-. cbn [shape3 data3]. auto 10.
Qed.

Lemma quantized_entry_ok indefinite bins fp L T C l e :
  tensor3_ok L T C fp ->
  quantized_entry indefinite bins fp l e ->
  tensor2_ok T C (snd e).
Proof.
  intros (Hshape & _ & Hslabs) (_ & qA & xq & m & Hidx & Htq & Hsnd).
  destruct (index3_data _ _ _ Hidx) as [Hdata Hsh]. rewrite Hshape in Hsh.
  simpl in Hsh.
  apply torch_quant_inv in Htq. destruct Htq as (_ & -> & _).
  rewrite Forall_forall in Hslabs.
  destruct (Hslabs _ (nth_error_In _ _ Hdata)) as [Hrows Hcols].
  rewrite Hsnd. unfold tensor2_ok.
  rewrite shift_symbols_data. unfold shift_symbols, add_scalar_int8, tmap2.
  cbn [shape2]. split; [exact Hsh |]. split; [now rewrite length_map |].
  apply Forall_map. eapply Forall_impl; [| exact Hcols].
  intros row Hrow. simpl. now rewrite length_map.
Qed.

(** After [_split_kv] and [quantize] both banks hold one well-shaped symbol
    tensor per layer. *)
Lemma quantized_bank_ok indefinite kv cfg fk fv enc is_key :
  _split_kv kv = Ok (fk, fv) ->
  quantize indefinite (new_encoder fk fv cfg) = Ok enc ->
  length (bank enc is_key) = shape_0 kv /\
  Forall (tensor2_ok (shape_2 kv) (channels_of kv)) (bank enc is_key).
Proof.
  intros Hsplit Hq.
  destruct (split_kv_ok _ _ _ Hsplit) as [Hk Hv].
  destruct (quantize_spec _ _ _ _ _ Hq) as (_ & _ & _ & Fk & _ & Fv & _).
  assert (Hlk : len3 fk = shape_0 kv)
    by (unfold len3; now rewrite (proj1 Hk)).
  assert (Hlv : len3 fv = shape_0 kv)
    by (unfold len3; now rewrite (proj1 Hv)).
  unfold bank, dict_values. destruct is_key.
  - split.
    + rewrite length_map, <- (Forall2_length_eq _ _ _ Fk), length_seq.
      exact Hlk.
    + apply Forall_map. apply Forall_forall. intros e He.
      apply In_nth_error in He. destruct He as [i He].
      destruct (Forall2_nth_error_r _ _ _ Fk _ _ He) as [l [_ Hl]].
      exact (quantized_entry_ok _ _ _ _ _ _ _ _ Hk Hl).
  - split.
    + rewrite length_map, <- (Forall2_length_eq _ _ _ Fv), length_seq.
      exact Hlv.
    + apply Forall_map. apply Forall_forall. intros e He.
      apply In_nth_error in He. destruct He as [i He].
      destruct (Forall2_nth_error_r _ _ _ Fv _ _ He) as [l [_ Hl]].
      exact (quantized_entry_ok _ _ _ _ _ _ _ _ Hv Hl).
Qed.

(* ================================================================== *)
(** ** Symbols outside the alphabet *)

Lemma forallb_false_intro {A} (f : A -> bool) (l : list A) x :
  In x l -> f x = false -> forallb f l = false.
Proof.
  intros Hin Hf. destruct (forallb f l) eqn:E; [| reflexivity].
  rewrite forallb_forall in E. rewrite (E x Hin) in Hf. discriminate.
Qed.

Lemma process_batch_raises X max_val e :
  process_batch X max_val = Raise e -> e = RuntimeError.
Proof.
  unfold process_batch, one_hot. destruct (shape2 X) as [nc nt].
  destruct (max_val + 1 <=? 0); [simpl; congruence |].
  destruct (forallb _ _); simpl; congruence.
Qed.

(** A symbol that is negative or not below 33 makes [process_batch]
    raise. *)
Lemma process_batch_bad T C x t c row s :
  tensor2_ok T C x ->
  nth_error (data2 x) t = Some row -> nth_error row c = Some s ->
  s < 0 \/ 33 <= s ->
  process_batch (permute2 0 x) 32 = Raise RuntimeError.
Proof.
  intros (Hs & _ & Hrows) Ht Hc Hbad.
  rewrite (permute2_columns x T C Hs). unfold process_batch, one_hot.
  cbn [shape2 data2]. change (32 + 1 <=? 0) with false. cbv iota.
  assert (HcC : (c < C)%nat).
  { rewrite Forall_forall in Hrows.
    rewrite <- (Hrows row (nth_error_In _ _ Ht)).
    apply nth_error_Some. congruence. }
  rewrite (forallb_false_intro _ _ (column x c)); [reflexivity | |].
  - apply in_map. apply in_seq. lia.
  - apply (forallb_false_intro _ _ s).
    + unfold column. apply in_map_iff. exists row.
      split; [| exact (nth_error_In _ _ Ht)].
      now apply nth_error_nth.
    + destruct Hbad as [Hneg | Hbig].
      * apply andb_false_intro1. apply Z.leb_gt. exact Hneg.
      * apply andb_false_intro2. apply Z.ltb_ge. exact Hbig.
Qed.

Lemma map_result_raise_inv {A B} (f : A -> result B) :
  forall xs e, map_result f xs = Raise e ->
  exists x, In x xs /\ f x = Raise e.
Proof.
  induction xs as [| x xs IH]; intros e H; simpl in H; [discriminate |].
  destruct (f x) as [y |] eqn:Hfx; simpl in H.
  - destruct (map_result f xs) as [ys |] eqn:Hxs; simpl in H;
      [discriminate |].
    injection H as <-. destruct (IH _ eq_refl) as [z [Hz Hfz]].
    exists z. split; [now right | exact Hfz].
  - injection H as <-. exists x. split; [now left | exact Hfx].
Qed.

Lemma cat2_raises {A} (ts : list (Tensor2 A)) e :
  cat2 ts = Raise e -> e = RuntimeError.
Proof.
  unfold cat2. destruct ts as [| t0 ts]; [congruence |].
  destruct (forallb _ _); congruence.
Qed.

Lemma process_layers_raises X e :
  process_layers X 32 = Raise e -> e = RuntimeError.
Proof.
  unfold process_layers. intros H.
  destruct (map_result _ X) as [results |] eqn:Hm; simpl in H.
  - now apply cat2_raises in H.
  - injection H as <-.
    destruct (map_result_raise_inv _ _ _ Hm) as [x [_ Hx]].
    now apply process_batch_raises in Hx.
Qed.

Lemma process_layers_bad T C X :
  Forall (tensor2_ok T C) X ->
  (exists x t c row s,
      In x X /\ nth_error (data2 x) t = Some row /\
      nth_error row c = Some s /\ (s < 0 \/ 33 <= s)) ->
  process_layers X 32 = Raise RuntimeError.
Proof.
  intros Hok (x & t & c & row & s & Hx & Ht & Hc & Hbad).
  unfold process_layers.
  rewrite (map_result_raise _ RuntimeError); [reflexivity | |].
  - intros y _. destruct (process_batch (permute2 0 y) 32) as [r | e] eqn:E.
    + now left.
    + right. now rewrite (process_batch_raises _ _ _ E).
  - exists x. split; [exact Hx |].
    rewrite Forall_forall in Hok.
    exact (process_batch_bad T C x t c row s (Hok x Hx) Ht Hc Hbad).
Qed.

(** With at least one layer [compute_cdf] raises nothing but the errors of
    the torch operators. *)
Lemma compute_cdf_raises self is_key e :
  nth_error (data3 (fp_k self)) 0 <> None ->
  compute_cdf self is_key = Raise e -> e = RuntimeError.
Proof.
  intros H0. unfold compute_cdf, index3.
  destruct (shape3 (fp_k self)) as [[n r] c].
  destruct (nth_error (data3 (fp_k self)) 0) as [d |]; [| congruence].
  cbn [bind]. intros H.
  destruct (process_layers _ 32) as [cdfs |] eqn:Hp; simpl in H.
  - unfold reshape_2_to_3 in H. destruct (shape2 cdfs) as [rows cols].
    destruct (Nat.eqb _ _); congruence.
  - injection H as <-. now apply process_layers_raises in Hp.
Qed.

Lemma compute_cdf_bad self is_key T C :
  nth_error (data3 (fp_k self)) 0 <> None ->
  Forall (tensor2_ok T C) (bank self is_key) ->
  (exists l t c s,
      entry3 (map (@data2 Z) (bank self is_key)) l t c = Some s /\
      (s < 0 \/ 33 <= s)) ->
  compute_cdf self is_key = Raise RuntimeError.
Proof.
  intros H0 Hok (l & t & c & s & He & Hbad).
  unfold entry3 in He. rewrite nth_error_map in He.
  destruct (nth_error (bank self is_key) l) as [x |] eqn:Hx; [| discriminate].
  simpl in He.
  destruct (nth_error (data2 x) t) as [row |] eqn:Ht; [| discriminate].
  unfold compute_cdf, index3.
  destruct (shape3 (fp_k self)) as [[n r] c0].
  destruct (nth_error (data3 (fp_k self)) 0) as [d |]; [| congruence].
  cbn [bind].
  change (if is_key then dict_values (quantized_key self)
          else dict_values (quantized_value self)) with (bank self is_key).
  rewrite (process_layers_bad T C); [reflexivity | exact Hok |].
  exists x, t, c, row, s. repeat split; try assumption.
  exact (nth_error_In _ _ Hx).
Qed.

Lemma stack2_raises {A} (ts : list (Tensor2 A)) e :
  stack2 ts = Raise e -> e = RuntimeError.
Proof.
  unfold stack2. destruct ts as [| t0 ts]; [congruence |].
  destruct (shape2 t0) as [r c]. destruct (forallb _ _); congruence.
Qed.

Lemma entries_forall {A} (P : A -> Prop) (d : list (list (list A))) :
  (forall l t c s, entry3 d l t c = Some s -> P s) ->
  Forall (Forall (Forall P)) d.
Proof.
  intros H. apply Forall_forall. intros slab Hslab.
  apply In_nth_error in Hslab. destruct Hslab as [l Hl].
  apply Forall_forall. intros row Hrow.
  apply In_nth_error in Hrow. destruct Hrow as [t Ht].
  apply Forall_forall. intros s Hs.
  apply In_nth_error in Hs. destruct Hs as [c Hc].
  apply (H l t c s). unfold entry3. now rewrite Hl, Ht.
Qed.

Lemma center_le_16 bins : bins <= 34 -> 2 * center bins <= 32.
Proof.
  intros H. unfold center.
  assert (bins / 2 < 18) by (apply Z.div_lt_upper_bound; lia). lia.
Qed.

(** C3 (as amended).  The code does not validate the configuration, and a
    bin count of 34 is not refused: with bin counts between 2 and 34 and rows
    of nonzero maximum every symbol lies in [[0, 32]] and the CDF estimation
    of both banks succeeds.  What is fatal is a quantized symbol of value 33
    or more: the one-hot encoding of the CDF estimation raises, and
    [encode_function] fails with that error whatever the coder and the chunk
    size, before the coder is called and before any byte is produced. *)
Theorem symbol_outside_alphabet_fatal indefinite kv cfg fk fv enc :
  _split_kv kv = Ok (fk, fv) ->
  quantize indefinite (new_encoder fk fv cfg) = Ok enc ->
  ((exists l t c s,
      (entry3 (symbols (quantized_key enc)) l t c = Some s \/
       entry3 (symbols (quantized_value enc)) l t c = Some s) /\ 33 <= s) ->
   forall torchac_encode chunk,
     encode_function indefinite torchac_encode kv cfg chunk
     = Raise RuntimeError) /\
  (bins_between 2 34 cfg -> rows_nonzero fk -> rows_nonzero fv ->
   (forall l t c s,
      entry3 (symbols (quantized_key enc)) l t c = Some s \/
      entry3 (symbols (quantized_value enc)) l t c = Some s ->
      0 <= s <= 32) /\
   ((0 < shape_0 kv)%nat ->
    exists cdf_k cdf_v,
      compute_cdf enc true = Ok cdf_k /\ compute_cdf enc false = Ok cdf_v)).
Proof.
  intros Hsplit Hq.
  destruct (split_kv_ok _ _ _ Hsplit) as [(Hshk & Hlenk & Hslk) _].
  destruct (quantize_spec _ _ _ _ _ Hq) as (Hfk & _ & _ & Fk & _ & Fv & _).
  destruct (quantized_bank_ok indefinite kv cfg fk fv enc true Hsplit Hq)
    as [Hbk Hokk].
  destruct (quantized_bank_ok indefinite kv cfg fk fv enc false Hsplit Hq)
    as [Hbv Hokv].
  split.
  - intros (l & t & c & s & He & Hs) torchac_encode chunk.
    assert (HL : (0 < shape_0 kv)%nat).
    { destruct He as [He | He]; unfold entry3, symbols in He;
        rewrite nth_error_map in He.
      - destruct (nth_error (dict_values (quantized_key enc)) l) eqn:E;
          [| discriminate].
        assert (Hn : nth_error (bank enc true) l <> None)
          by (unfold bank; congruence).
        apply nth_error_Some in Hn. lia.
      - destruct (nth_error (dict_values (quantized_value enc)) l) eqn:E;
          [| discriminate].
        assert (Hn : nth_error (bank enc false) l <> None)
          by (unfold bank; congruence).
        apply nth_error_Some in Hn. lia. }
    assert (H0 : nth_error (data3 (fp_k enc)) 0 <> None).
    { rewrite Hfk. apply nth_error_Some. lia. }
    unfold encode_function. destruct (shape5 kv) as [[[[? ?] ?] nh] hs].
    rewrite Hsplit. cbn [bind]. rewrite Hq. cbn [bind].
    destruct He as [He | He].
    + rewrite (compute_cdf_bad enc true _ _ H0 Hokk); [reflexivity |].
      exists l, t, c, s. split; [exact He | now right].
    + destruct (compute_cdf enc true) as [cdf_k | e] eqn:Ek; cbn [bind].
      * destruct (stack2 (dict_values (quantized_key enc))) as [ek | e] eqn:Es;
          cbn [bind].
        -- rewrite (compute_cdf_bad enc false _ _ H0 Hokv); [reflexivity |].
           exists l, t, c, s. split; [exact He | now right].
        -- now rewrite (stack2_raises _ _ Es).
      * now rewrite (compute_cdf_raises _ _ _ H0 Ek).
  - intros Hcfg Hnzk Hnzv.
    assert (Hrange : forall l t c s,
      entry3 (symbols (quantized_key enc)) l t c = Some s \/
      entry3 (symbols (quantized_value enc)) l t c = Some s ->
      0 <= s <= 32).
    { intros l t c s [He | He].
      - destruct (symbols_entry _ _ _ _ _ _ _ _ _ Fk He)
          as (slab & row & x & Hl & Ht & Hc & ->).
        pose proof (key_bins_between 2 34 cfg l Hcfg) as Hb.
        pose proof (symbol_of_range indefinite (key_bins cfg l) row x
                      ltac:(lia) (nth_error_In _ _ Hc)
                      (rows_nonzero_row _ _ _ _ _ Hnzk Hl Ht)) as Hsym.
        pose proof (center_le_16 (key_bins cfg l) ltac:(lia)). lia.
      - destruct (symbols_entry _ _ _ _ _ _ _ _ _ Fv He)
          as (slab & row & x & Hl & Ht & Hc & ->).
        pose proof (value_bins_between 2 34 cfg l Hcfg) as Hb.
        pose proof (symbol_of_range indefinite (value_bins cfg l) row x
                      ltac:(lia) (nth_error_In _ _ Hc)
                      (rows_nonzero_row _ _ _ _ _ Hnzv Hl Ht)) as Hsym.
        pose proof (center_le_16 (value_bins cfg l) ltac:(lia)). lia. }
    split; [exact Hrange |].
    intros HL.
    assert (Hsk : Forall (symbols_between 0 32) (bank enc true)).
    { apply Forall_forall. intros x Hx. unfold symbols_between.
      assert (Hall := entries_forall (fun s => 0 <= s <= 32)
                        (symbols (quantized_key enc))
                        (fun l t c s H => Hrange l t c s (or_introl H))).
      unfold symbols in Hall. rewrite Forall_map in Hall.
      rewrite Forall_forall in Hall. now apply Hall. }
    assert (Hsv : Forall (symbols_between 0 32) (bank enc false)).
    { apply Forall_forall. intros x Hx. unfold symbols_between.
      assert (Hall := entries_forall (fun s => 0 <= s <= 32)
                        (symbols (quantized_value enc))
                        (fun l t c s H => Hrange l t c s (or_intror H))).
      unfold symbols in Hall. rewrite Forall_map in Hall.
      rewrite Forall_forall in Hall. now apply Hall. }
    rewrite <- Hfk in Hshk, Hlenk.
    rewrite (compute_cdf_ok enc true _ _ _ Hshk Hlenk HL Hbk Hokk Hsk).
    rewrite (compute_cdf_ok enc false _ _ _ Hshk Hlenk HL Hbv Hokv Hsv).
    eauto.
Qed.

Lemma symbol_outside_alphabet_fatal_witness :
  encode_function indefinite_x86 sample_coder sample_kv bins36_config 2
    = Raise RuntimeError /\
  exists fk fv enc cdf_k cdf_v,
    _split_kv sample_kv = Ok (fk, fv) /\
    quantize indefinite_x86 (new_encoder fk fv bins34_config) = Ok enc /\
    compute_cdf enc true = Ok cdf_k /\ compute_cdf enc false = Ok cdf_v.
Proof.
  split.
  - refine (proj1 (symbol_outside_alphabet_fatal indefinite_x86 sample_kv
                     bins36_config _ _ _ _ _) _ sample_coder 2%nat).
    + vm_compute; reflexivity.
    + vm_compute; reflexivity.
    + exists 0%nat, 0%nat, 1%nat, 34. split; [| lia].
      left. vm_compute. reflexivity.
  - assert (Hsplit : exists fk fv, _split_kv sample_kv = Ok (fk, fv))
      by (eexists _, _; vm_compute; reflexivity).
    destruct Hsplit as (fk & fv & Hsplit).
    assert (Hfk : fk = mkTensor3 (1, 2, 2)%nat [[[1; 3]; [2; 4]]]%Q /\
                  fv = mkTensor3 (1, 2, 2)%nat [[[-2; 0]; [-1; 1]]]%Q).
    { vm_compute in Hsplit. injection Hsplit as <- <-. split; reflexivity. }
    destruct Hfk as [Hfk Hfv].
    assert (Hq : exists enc,
               quantize indefinite_x86 (new_encoder fk fv bins34_config)
               = Ok enc)
      by (rewrite Hfk, Hfv; eexists; vm_compute; reflexivity).
    destruct Hq as [enc Hq].
    destruct (proj2 (symbol_outside_alphabet_fatal indefinite_x86 sample_kv
                       bins34_config fk fv enc Hsplit Hq))
      as [_ Hcdf].
    + unfold bins_between; simpl; lia.
    + rewrite Hfk. repeat constructor; intros H; vm_compute in H;
        discriminate H.
    + rewrite Hfv. repeat constructor; intros H; vm_compute in H;
        discriminate H.
    + destruct Hcdf as (cdf_k & cdf_v & Hk & Hv); [vm_compute; lia |].
      exists fk, fv, enc, cdf_k, cdf_v. auto.
Defined.

(** C3, counterexample.  With 34 bins in every band the encoding of the
    sample tensor does not fail: the symbols go up to 32, the CDF estimation
    succeeds and the bytes of all four rows are produced. *)
Lemma encode_bins34_succeeds :
  key_first_bins bins34_config = 34 /\
  exists out,
    encode_function indefinite_x86 sample_coder sample_kv bins34_config 2
      = Ok out /\
    length (bytestream out) = 8%nat /\
    start_indices out = [0; 2; 4; 6].
Proof.
  split; [reflexivity |].
  eexists. split; [vm_compute; reflexivity |].
  split; reflexivity.
Qed.

(* ================================================================== *)
(** ** The normalizer near 1 *)

(** C5, at the failing input.  The row [0, ..., 0, 1 - 2^-20] is
    non-decreasing, starts with 0 and has all entries in [[0, 1)], yet its
    normalization is [0, 1, ..., 31, 0] when read as unsigned 16-bit
    integers: [(1 - 2^-20) * 65504] rounds to 65504, and adding the ramp entry
    32 gives [2^16], which wraps to 0.  The result is not strictly
    increasing. *)
Theorem normalize_near_one_wraps indefinite :
  Forall (fun q => 0 <= q /\ q < 1)%Q near_one_row /\
  data3 (_convert_to_int_and_normalize indefinite near_one_cdf true) =
    [[map Z.of_nat (seq 0 32) ++ [0]]] /\
  ~ strictly_increasing
      (map as_uint16 (map Z.of_nat (seq 0 32) ++ [0])).
Proof.
  split; [| split].
  - unfold near_one_row. apply Forall_app. split.
    + apply Forall_forall. intros q Hq. apply repeat_spec in Hq. subst q.
      split; [apply Qle_refl | reflexivity].
    + constructor; [| constructor]. split; [discriminate | reflexivity].
  - vm_compute. reflexivity.
  - intros H. specialize (H 31%nat 32%nat 31 0 ltac:(lia) eq_refl eq_refl).
    lia.
Qed.

(* ================================================================== *)
(** ** The normalizer away from 1 *)

Lemma convert_rows indefinite (cdf_float : Tensor3 fval) :
  data3 (_convert_to_int_and_normalize indefinite cdf_float true) =
  map (map (normalize_row indefinite (snd (shape3 cdf_float))))
      (data3 cdf_float).
Proof.
  unfold _convert_to_int_and_normalize, normalize_row, tmap3, map3d, map2d.
  cbn [data3 shape3]. rewrite !map_map. apply map_ext. intros slab.
  rewrite !map_map. apply map_ext. intros row. now rewrite !map_map.
Qed.

Lemma nth_error_combine_seq {A B} (g : nat -> B) (ys : list A) :
  forall s n i y, length ys = n -> nth_error ys i = Some y ->
  nth_error (combine ys (map g (seq s n))) i = Some (y, g (s + i)%nat).
Proof.
  induction ys as [| y0 ys IH]; intros s n i y Hn Hy.
  - destruct i; discriminate.
  - subst n. cbn [length seq map combine].
    destruct i as [| i]; cbn [nth_error] in *.
    + injection Hy as <-. now rewrite Nat.add_0_r.
    + replace (s + S i)%nat with (S s + i)%nat by lia. now apply IH.
Qed.

Lemma as_uint16_ramp a b :
  as_uint16 (wrap16 (wrap16 a + wrap16 b)) = as_uint16 (a + b).
Proof.
  rewrite as_uint16_wrap16_add.
  rewrite <- (as_uint16_wrap16 (a + wrap16 b)), (Z.add_comm a).
  rewrite as_uint16_wrap16_add. now rewrite Z.add_comm.
Qed.

(** Entry [i] of a normalized row of finite values, read as unsigned 16-bit
    integer: the rounded product plus [i], modulo [2 ^ 16]. *)
Lemma normalize_row_entry indefinite (qs : list Q) i q :
  nth_error qs i = Some q ->
  nth_error (map as_uint16 (normalize_row indefinite (length qs) (map Fin qs)))
            i =
  Some ((round_half_even
           (q * (inject_Z (2 ^ 16) - inject_Z (Z.of_nat (length qs) - 1)))
         + Z.of_nat i) mod 2 ^ 16).
Proof.
  intros Hq. unfold normalize_row, add_ramp, arange_int16.
  rewrite !map_map. rewrite nth_error_map.
  set (ys := map _ qs).
  assert (Hlen : length ys = length qs) by (unfold ys; now rewrite length_map).
  rewrite (nth_error_combine_seq (fun i => wrap16 (Z.of_nat i)) ys 0
             (length qs) i
             (wrap16 (round_half_even
                (q * (inject_Z (2 ^ 16)
                      - inject_Z (Z.of_nat (length qs) - 1)))))).
  - cbn [option_map Nat.add]. rewrite as_uint16_ramp. reflexivity.
  - exact Hlen.
  - unfold ys. rewrite nth_error_map, Hq. cbn [option_map fmul torch_round].
    unfold to_int. now rewrite Qtrunc_Z.
Qed.

(** The guarantee of the normalizer holds for rows whose entries are at most
    [1 - 1 / M], with [M = 2^16 - (Lp - 1)]: read as unsigned 16-bit integers
    the normalized row starts at 0, is strictly increasing and stays at or
    below [2^16 - 1]. *)
Lemma normalize_row_increasing indefinite (qs : list Q) q0 :
  let M := 2 ^ 16 - (Z.of_nat (length qs) - 1) in
  0 < M ->
  nth_error qs 0 = Some q0 -> (q0 == 0)%Q ->
  (forall i j a b, (i <= j)%nat -> nth_error qs i = Some a ->
                   nth_error qs j = Some b -> (a <= b)%Q) ->
  Forall (fun q => (0 <= q)%Q /\ (q * inject_Z M <= inject_Z (M - 1))%Q) qs ->
  let out := map as_uint16
               (normalize_row indefinite (length qs) (map Fin qs)) in
  nth_error out 0 = Some 0 /\
  strictly_increasing out /\
  Forall (fun u => 0 <= u <= 2 ^ 16 - 1) out.
Proof.
  intros M HM H0 Hq0 Hmono Hrange out.
  assert (HMq : (inject_Z (2 ^ 16) - inject_Z (Z.of_nat (length qs) - 1)
                 == inject_Z M)%Q).
  { unfold M, Z.sub.
    rewrite !inject_Z_plus, !inject_Z_opp, !inject_Z_plus, !inject_Z_opp.
    ring. }
  assert (Hentry : forall i q, nth_error qs i = Some q ->
    nth_error out i = Some (round_half_even (q * inject_Z M) + Z.of_nat i) /\
    0 <= round_half_even (q * inject_Z M) <= M - 1).
  { intros i q Hq.
    assert (Hr : 0 <= round_half_even (q * inject_Z M) <= M - 1).
    { rewrite Forall_forall in Hrange.
      destruct (Hrange q (nth_error_In _ _ Hq)) as [Hlo Hhi].
      apply round_half_even_bounds; [| exact Hhi].
      change (inject_Z 0) with 0%Q. apply Qmult_le_0_compat; [exact Hlo |].
      change 0%Q with (inject_Z 0). rewrite <- Zle_Qle. lia. }
    split; [| exact Hr].
    unfold out. rewrite (normalize_row_entry indefinite qs i q Hq).
    rewrite (round_half_even_comp _ (q * inject_Z M))
      by (now rewrite HMq).
    assert (Hi : (i < length qs)%nat) by (apply nth_error_Some; congruence).
    rewrite Z.mod_small; [reflexivity |]. unfold M in *. lia. }
  split; [| split].
  - destruct (Hentry 0%nat q0 H0) as [-> _]. f_equal.
    rewrite (round_half_even_comp _ (inject_Z 0)).
    + rewrite round_half_even_Z. reflexivity.
    + rewrite Hq0. ring.
  - intros i j a b Hij Ha Hb.
    assert (Hlen : length out = length qs).
    { unfold out, normalize_row, add_ramp, arange_int16.
      rewrite !length_map, length_combine, !length_map, length_seq. lia. }
    assert (Hj : (j < length qs)%nat).
    { rewrite <- Hlen. apply nth_error_Some. congruence. }
    destruct (nth_error qs i) as [qi |] eqn:Hqi;
      [| apply nth_error_None in Hqi; lia].
    destruct (nth_error qs j) as [qj |] eqn:Hqj;
      [| apply nth_error_None in Hqj; lia].
    destruct (Hentry i qi Hqi) as [Hoi _].
    destruct (Hentry j qj Hqj) as [Hoj _].
    assert (a = round_half_even (qi * inject_Z M) + Z.of_nat i) by congruence.
    assert (b = round_half_even (qj * inject_Z M) + Z.of_nat j) by congruence.
    subst a b.
    assert (Hle : round_half_even (qi * inject_Z M)
                  <= round_half_even (qj * inject_Z M)).
    { apply round_half_even_mono. apply Qmult_le_compat_r.
      - apply (Hmono i j); [lia | assumption | assumption].
      - change 0%Q with (inject_Z 0). rewrite <- Zle_Qle. lia. }
    lia.
  - apply Forall_forall. intros u Hu. apply In_nth_error in Hu.
    destruct Hu as [i Hi].
    assert (Hlen : length out = length qs).
    { unfold out, normalize_row, add_ramp, arange_int16.
      rewrite !length_map, length_combine, !length_map, length_seq. lia. }
    assert (Hil : (i < length qs)%nat).
    { rewrite <- Hlen. apply nth_error_Some. congruence. }
    destruct (nth_error qs i) as [qi |] eqn:Hqi;
      [| apply nth_error_None in Hqi; lia].
    destruct (Hentry i qi Hqi) as [Hoi Hr].
    assert (u = round_half_even (qi * inject_Z M) + Z.of_nat i) by congruence.
    subst u. unfold M in *. lia.
Qed.

(** The same on the tensor: the row [(l, c)] of the normalized CDF is the
    normalization of the row [(l, c)] of the floating CDF. *)
Lemma convert_increasing indefinite (cdf_float : Tensor3 fval) l c slab qs q0 :
  let M := 2 ^ 16 - (Z.of_nat (length qs) - 1) in
  snd (shape3 cdf_float) = length qs ->
  nth_error (data3 cdf_float) l = Some slab ->
  nth_error slab c = Some (map Fin qs) ->
  0 < M ->
  nth_error qs 0 = Some q0 -> (q0 == 0)%Q ->
  (forall i j a b, (i <= j)%nat -> nth_error qs i = Some a ->
                   nth_error qs j = Some b -> (a <= b)%Q) ->
  Forall (fun q => (0 <= q)%Q /\ (q * inject_Z M <= inject_Z (M - 1))%Q) qs ->
  exists slab' row',
    nth_error (data3 (_convert_to_int_and_normalize indefinite cdf_float true))
              l = Some slab' /\
    nth_error slab' c = Some row' /\
    nth_error (map as_uint16 row') 0 = Some 0 /\
    strictly_increasing (map as_uint16 row') /\
    Forall (fun u => 0 <= u <= 2 ^ 16 - 1) (map as_uint16 row').
Proof.
  intros M HLp Hl Hc HM H0 Hq0 Hmono Hrange.
  rewrite convert_rows, HLp.
  exists (map (normalize_row indefinite (length qs)) slab),
         (normalize_row indefinite (length qs) (map Fin qs)).
  split; [now rewrite nth_error_map, Hl |].
  split; [now rewrite nth_error_map, Hc |].
  exact (normalize_row_increasing indefinite qs q0 HM H0 Hq0 Hmono Hrange).
Qed.

(* ================================================================== *)
(** ** [_split_kv]: where each entry of the input goes *)

Lemma nth_error_map_seq {B} (f : nat -> B) n i :
  (i < n)%nat -> nth_error (map f (seq 0 n)) i = Some (f i).
Proof.
  intros Hi. rewrite nth_error_map.
  rewrite (nth_error_nth' (seq 0 n) 0%nat) by (now rewrite length_seq).
  now rewrite seq_nth.
Qed.

Lemma channel_index H D h d :
  (h < H)%nat -> (d < D)%nat ->
  (h * D + d < H * D)%nat /\ ((h * D + d) / D = h)%nat /\
  ((h * D + d) mod D = d)%nat.
Proof.
  intros Hh Hd. split; [nia |]. split.
  - rewrite Nat.div_add_l by lia. rewrite Nat.div_small by lia. lia.
  - rewrite Nat.add_comm, Nat.Div0.mod_add. now apply Nat.mod_small.
Qed.

Lemma split_data_entry kv k L d1 T H D l t h d :
  shape5 kv = (L, d1, T, H, D) ->
  (l < L)%nat -> (t < T)%nat -> (h < H)%nat -> (d < D)%nat ->
  entry3 (split_data kv k) l t (h * D + d) = Some (at5 kv l k t h d).
Proof.
  intros Hs Hl Ht Hh Hd. unfold split_data, entry3. rewrite Hs.
  destruct (channel_index H D h d Hh Hd) as [Hc [Hdiv Hmod]].
  rewrite (nth_error_map_seq _ L l Hl), (nth_error_map_seq _ T t Ht),
    (nth_error_map_seq _ (H * D) _ Hc).
  now rewrite Hdiv, Hmod.
Qed.

(** X1.  [_split_kv] on a tensor of shape [[L, 2, T, H, D]] returns the key
    and the value tensor of shape [[L, T, H * D]]; the entry of head [h] and
    position [d] is channel [h * D + d], keys from index 0 and values from
    index 1 of the second axis. *)
Theorem split_kv_entries kv L T H D :
  shape5 kv = (L, 2, T, H, D)%nat ->
  exists fk fv,
    _split_kv kv = Ok (fk, fv) /\
    shape3 fk = (L, T, H * D)%nat /\ shape3 fv = (L, T, H * D)%nat /\
    length (data3 fk) = L /\ length (data3 fv) = L /\
    forall l t h d,
      (l < L)%nat -> (t < T)%nat -> (h < H)%nat -> (d < D)%nat ->
      entry3 (data3 fk) l t (h * D + d) = Some (at5 kv l 0 t h d) /\
      entry3 (data3 fv) l t (h * D + d) = Some (at5 kv l 1 t h d).
Proof.
  intros Hs. unfold _split_kv. rewrite Hs.
  replace (L * 2 * T * H * D)%nat with (L * 2 * T * (H * D))%nat by lia.
  rewrite Nat.eqb_refl.
  eexists; eexists; split; [reflexivity |].
  cbn [shape3 data3].
  split; [reflexivity |]. split; [reflexivity |].
  split; [unfold split_data; rewrite Hs; now rewrite length_map, length_seq |].
  split; [unfold split_data; rewrite Hs; now rewrite length_map, length_seq |].
  intros l t h d Hl Ht Hh Hd. split.
  - exact (split_data_entry kv 0 L 2 T H D l t h d Hs Hl Ht Hh Hd).
  - exact (split_data_entry kv 1 L 2 T H D l t h d Hs Hl Ht Hh Hd).
Qed.

Lemma split_kv_entries_witness :
  exists fk fv,
    _split_kv sample_kv = Ok (fk, fv) /\
    shape3 fk = (1, 2, 2)%nat /\
    entry3 (data3 fk) 0 1 1 = Some (at5 sample_kv 0 0 1 0 1).
Proof.
  destruct (split_kv_entries sample_kv 1 2 1 2 eq_refl)
    as [fk [fv [H [Hk [_ [_ [_ He]]]]]]].
  exists fk, fv. split; [exact H |]. split; [exact Hk |].
  exact (proj1 (He 0 1 0 1 ltac:(lia) ltac:(lia) ltac:(lia) ltac:(lia)))%nat.
Defined.

(** X2.  [_split_kv] raises exactly when the second axis does not have two
    entries and the tensor is not empty: the reshape compares element counts
    only, so an empty tensor passes whatever its second axis is. *)
Theorem split_kv_raises_iff kv L d1 T H D :
  shape5 kv = (L, d1, T, H, D) ->
  (_split_kv kv = Raise RuntimeError <->
   d1 <> 2%nat /\ (L * T * H * D <> 0)%nat) /\
  (is_ok (_split_kv kv) = true <-> d1 = 2%nat \/ (L * T * H * D = 0)%nat).
Proof.
  intros Hs. unfold _split_kv. rewrite Hs.
  destruct (Nat.eqb_spec (L * d1 * T * H * D) (L * 2 * T * (H * D))) as [E | E].
  - assert (Hc : d1 = 2%nat \/ (L * T * H * D = 0)%nat) by nia.
    split; split; intros H0; try discriminate; try reflexivity; try exact Hc.
    destruct H0 as [H1 H2]. destruct Hc; contradiction.
  - assert (Hc : d1 <> 2%nat /\ (L * T * H * D <> 0)%nat).
    { split; [intros -> ; apply E; lia |].
      intros Hz. apply E.
      replace (L * d1 * T * H * D)%nat with (d1 * (L * T * H * D))%nat by lia.
      replace (L * 2 * T * (H * D))%nat with (2 * (L * T * H * D))%nat by lia.
      now rewrite Hz, !Nat.mul_0_r. }
    split; split; intros H0; try discriminate; try reflexivity; try exact Hc.
    destruct Hc as [H1 H2]. destruct H0; contradiction.
Qed.

Lemma split_kv_raises_iff_witness :
  _split_kv three_kv = Raise RuntimeError.
Proof.
  apply (proj1 (split_kv_raises_iff three_kv 1 3 1 1 1 eq_refl)).
  split; [discriminate | simpl; discriminate].
Defined.

(* ================================================================== *)
(** ** The quantizer: rounding error, order and extremes *)


Lemma amax_abs_pos row : ~ (amax_abs row == 0)%Q -> (0 < amax_abs row)%Q.
Proof.
  intros Hnz.
  destruct (Qle_lt_or_eq 0 _ (amax_abs_nonneg row)) as [Hlt | Heq];
    [exact Hlt | exfalso; apply Hnz; symmetry; exact Heq].
Qed.

Lemma scaled_value bins row x :
  ~ (amax_abs row == 0)%Q ->
  scaled bins row x =
  Fin (inject_Z
         (round_half_even (x * (inject_Z (center bins) / amax_abs row)))).
Proof.
  intros Hnz. unfold scaled. simpl.
  rewrite (Qsign_pos _ (amax_abs_pos row Hnz)). reflexivity.
Qed.

Lemma center_range bins : 2 <= bins <= 129 -> 0 <= center bins <= 63.
Proof.
  intros Hb. unfold center.
  assert (1 <= bins / 2) by (apply Z.div_le_lower_bound; lia).
  assert (bins / 2 < 65) by (apply Z.div_lt_upper_bound; lia). lia.
Qed.

Lemma symbol_of_value indefinite bins row x :
  2 <= bins <= 129 ->
  In x row -> ~ (amax_abs row == 0)%Q ->
  symbol_of indefinite bins row x =
  round_half_even (x * (inject_Z (center bins) / amax_abs row)) + center bins.
Proof.
  intros Hb Hin Hnz.
  pose proof (center_range bins Hb) as HC.
  destruct (scaled_nonzero bins row x (proj1 HC) Hin Hnz) as [r [Hr Hrange]].
  pose proof (scaled_value bins row x Hnz) as Hv.
  rewrite Hr in Hv. injection Hv as Hv.
  unfold symbol_of. rewrite Hr.
  change (to_int indefinite 8 (Fin (inject_Z r)))
    with (wrap8 (Qtrunc (inject_Z r))).
  rewrite Qtrunc_Z, (wrap8_small r) by lia.
  assert (Hhalf : bins / 2 = center bins + 1) by (unfold center; lia).
  rewrite Hhalf.
  rewrite (wrap8_small (r + (center bins + 1))) by lia.
  rewrite wrap8_small by lia. rewrite <- Hv. lia.
Qed.

Lemma scale_factor_nonneg bins row :
  0 <= center bins -> ~ (amax_abs row == 0)%Q ->
  (0 <= inject_Z (center bins) / amax_abs row)%Q.
Proof.
  intros HC Hnz. apply Qle_shift_div_l; [now apply amax_abs_pos |].
  ring_simplify. change 0%Q with (inject_Z 0). now rewrite <- Zle_Qle.
Qed.

Lemma symbol_of_mono indefinite bins row x y :
  2 <= bins <= 129 ->
  In x row -> In y row -> ~ (amax_abs row == 0)%Q ->
  (x <= y)%Q ->
  symbol_of indefinite bins row x <= symbol_of indefinite bins row y.
Proof.
  intros Hb Hx Hy Hnz Hle.
  rewrite !symbol_of_value by assumption.
  apply Z.add_le_mono_r. apply round_half_even_mono.
  apply Qmult_le_compat_r; [exact Hle |].
  apply scale_factor_nonneg; [apply (center_range bins Hb) | exact Hnz].
Qed.


Lemma entry3_inv {A} (d : list (list (list A))) l t c x :
  entry3 d l t c = Some x ->
  exists slab row,
    nth_error d l = Some slab /\ nth_error slab t = Some row /\
    nth_error row c = Some x.
Proof.
  unfold entry3. intros H.
  destruct (nth_error d l) as [slab |] eqn:El; [| discriminate].
  destruct (nth_error slab t) as [row |] eqn:Et; [| discriminate].
  exists slab, row. repeat split; [exact Et | exact H].
Qed.

(** The symbol stored at a position is the symbol of the entry of the input
    at that position, within its row. *)
Lemma symbols_entry_of indefinite bins fp n d l t c x s :
  Forall2 (quantized_entry indefinite bins fp) (seq 0 n) d ->
  entry3 (data3 fp) l t c = Some x ->
  entry3 (symbols d) l t c = Some s ->
  exists slab row,
    nth_error (data3 fp) l = Some slab /\ nth_error slab t = Some row /\
    nth_error row c = Some x /\ In x row /\
    s = symbol_of indefinite (bins l) row x.
Proof.
  intros HF Hx Hs.
  destruct (symbols_entry _ _ _ _ _ _ _ _ _ HF Hs)
    as [slab [row [x' [Hl [Ht [Hc Hsym]]]]]].
  destruct (entry3_inv _ _ _ _ _ Hx) as [slab2 [row2 [Hl2 [Ht2 Hc2]]]].
  rewrite Hl in Hl2. injection Hl2 as <-.
  rewrite Ht in Ht2. injection Ht2 as <-.
  rewrite Hc in Hc2. injection Hc2 as ->.
  exists slab, row. repeat split; try assumption.
  eapply nth_error_In; eassumption.
Qed.

Lemma bank_order_preserving indefinite bins fp n d :
  (forall l, 2 <= bins l <= 129) -> rows_nonzero fp ->
  Forall2 (quantized_entry indefinite bins fp) (seq 0 n) d ->
  forall l t c1 c2 x y s1 s2,
    entry3 (data3 fp) l t c1 = Some x -> entry3 (data3 fp) l t c2 = Some y ->
    entry3 (symbols d) l t c1 = Some s1 ->
    entry3 (symbols d) l t c2 = Some s2 ->
    (x <= y)%Q -> s1 <= s2.
Proof.
  intros Hb Hnz HF l t c1 c2 x y s1 s2 Hx Hy Hs1 Hs2 Hle.
  destruct (symbols_entry_of _ _ _ _ _ _ _ _ _ _ HF Hx Hs1)
    as [slab [row [Hl [Ht [_ [Hin1 ->]]]]]].
  destruct (symbols_entry_of _ _ _ _ _ _ _ _ _ _ HF Hy Hs2)
    as [slab2 [row2 [Hl2 [Ht2 [_ [Hin2 ->]]]]]].
  rewrite Hl in Hl2. injection Hl2 as <-.
  rewrite Ht in Ht2. injection Ht2 as <-.
  apply symbol_of_mono; try assumption; [apply Hb |].
  exact (rows_nonzero_row _ _ _ _ _ Hnz Hl Ht).
Qed.

(** X3.  Quantization preserves order inside a row: with 2 to 129 bins and
    no all-zero row, of two entries of the same layer and token the larger
    one never gets the smaller symbol, for keys and for values. *)
Theorem quantize_order_preserving indefinite k v cfg enc :
  bins_between 2 129 cfg ->
  rows_nonzero k -> rows_nonzero v ->
  quantize indefinite (new_encoder k v cfg) = Ok enc ->
  (forall l t c1 c2 x y s1 s2,
     entry3 (data3 k) l t c1 = Some x -> entry3 (data3 k) l t c2 = Some y ->
     entry3 (symbols (quantized_key enc)) l t c1 = Some s1 ->
     entry3 (symbols (quantized_key enc)) l t c2 = Some s2 ->
     (x <= y)%Q -> s1 <= s2) /\
  (forall l t c1 c2 x y s1 s2,
     entry3 (data3 v) l t c1 = Some x -> entry3 (data3 v) l t c2 = Some y ->
     entry3 (symbols (quantized_value enc)) l t c1 = Some s1 ->
     entry3 (symbols (quantized_value enc)) l t c2 = Some s2 ->
     (x <= y)%Q -> s1 <= s2).
Proof.
  intros Hb Hk Hv Hq.
  destruct (quantize_spec _ _ _ _ _ Hq) as [_ [_ [_ [HK [_ [HV _]]]]]].
  split.
  - apply (bank_order_preserving _ _ _ _ _
             (fun l => key_bins_between 2 129 cfg l Hb) Hk HK).
  - apply (bank_order_preserving _ _ _ _ _
             (fun l => value_bins_between 2 129 cfg l Hb) Hv HV).
Qed.

Lemma quantize_order_preserving_witness :
  exists enc,
    quantize indefinite_x86 (new_encoder sample_k sample_v sample_config)
      = Ok enc /\
    forall s1 s2,
      entry3 (symbols (quantized_key enc)) 0 0 1 = Some s1 ->
      entry3 (symbols (quantized_key enc)) 0 0 0 = Some s2 ->
      s1 <= s2.
Proof.
  exists sample_encoder.
  assert (Hq : quantize indefinite_x86
                 (new_encoder sample_k sample_v sample_config)
               = Ok sample_encoder) by (vm_compute; reflexivity).
  split; [exact Hq |].
  assert (Hb : bins_between 2 129 sample_config)
    by (unfold bins_between; simpl; lia).
  assert (Hk : rows_nonzero sample_k)
    by (repeat constructor; vm_compute; discriminate).
  assert (Hv : rows_nonzero sample_v)
    by (repeat constructor; vm_compute; discriminate).
  intros s1 s2 H1 H2.
  exact (proj1 (quantize_order_preserving indefinite_x86 sample_k sample_v
                  sample_config sample_encoder Hb Hk Hv Hq)
           0%nat 0%nat 1%nat 0%nat (-2)%Q 1%Q s1 s2
           eq_refl eq_refl H1 H2 ltac:(vm_compute; discriminate)).
Defined.



(* ================================================================== *)
(** ** The dequantized tensor *)



Lemma Qsign_inject_pos z : 0 < z -> Qsign (inject_Z z) = Lt.
Proof.
  intros H. apply Qsign_pos. change 0%Q with (inject_Z 0).
  now rewrite <- Zlt_Qlt.
Qed.








(* ================================================================== *)
(** ** [concat_max] *)

Lemma dict_get_raises {V} (d : dict V) k e :
  dict_get d k = Raise e -> e = KeyError.
Proof.
  induction d as [| [k' v'] d IH]; simpl; intros H; [congruence |].
  destruct (Nat.eqb k' k); [discriminate | auto].
Qed.

Lemma stack2_ok {A} r c (t0 : Tensor2 A) (ts : list (Tensor2 A)) :
  Forall (fun t => shape2 t = (r, c)) (t0 :: ts) ->
  stack2 (t0 :: ts) =
  Ok (mkTensor3 (length (t0 :: ts), r, c) (map (@data2 A) (t0 :: ts))).
Proof.
  intros HF. unfold stack2.
  pose proof (Forall_inv HF) as H0. cbv beta in H0. rewrite H0.
  replace (forallb _ (t0 :: ts)) with true; [reflexivity |].
  symmetry. apply forallb_forall. intros t Hin.
  rewrite Forall_forall in HF. rewrite (HF t Hin).
  now rewrite !Nat.eqb_refl.
Qed.

Lemma lookup_by_key {V} (d : dict V) (ts : list V) :
  length ts = length d ->
  (forall i t, nth_error ts i = Some t -> dict_get d i = Ok t) ->
  map_result (fun i => dict_get d i) (seq 0 (length d)) = Ok ts.
Proof.
  intros Hlen Hget. destruct ts as [| t0 ts'].
  - simpl in Hlen. rewrite <- Hlen. reflexivity.
  - set (ts := t0 :: ts') in *.
    rewrite (map_result_all_ok _ (fun i => nth i ts t0)).
    + rewrite <- Hlen.
      rewrite (map_nth_error_seq (fun i => nth i ts t0) (fun t => t) ts).
      * now rewrite map_id.
      * intros i x Hx. now apply nth_error_nth.
    + intros i Hin. apply in_seq in Hin. apply Hget.
      apply nth_error_nth'. lia.
Qed.

(** X6.  [concat_max] looks the maxima up by the keys [0 .. len - 1]: on an
    empty dictionary it fails ([torch.cat] refuses an empty list; the class
    of that exception is torch's and is not stated), a missing key raises
    [KeyError], and otherwise the layers are stacked in key order, whatever
    the order in which they were stored. *)
Theorem concat_max_by_key (max1 : dict (Tensor2 Q)) :
  (max1 = [] -> is_ok (concat_max max1) = false) /\
  (forall i, (i < length max1)%nat -> dict_get max1 i = Raise KeyError ->
     concat_max max1 = Raise KeyError) /\
  (forall ts r c,
     ts <> [] -> length ts = length max1 ->
     (forall i t, nth_error ts i = Some t ->
                  dict_get max1 i = Ok t /\ shape2 t = (r, c)) ->
     concat_max max1 =
     Ok (mkTensor3 (length max1, r, c) (map (@data2 Q) ts))).
Proof.
  split; [| split].
  - intros ->. reflexivity.
  - intros i Hi Hmiss. unfold concat_max.
    rewrite (map_result_raise _ KeyError); [reflexivity | |].
    + intros x _. destruct (dict_get max1 x) as [t | e] eqn:E;
        [now left | right].
      now rewrite (dict_get_raises _ _ _ E).
    + exists i. split; [apply in_seq; lia | exact Hmiss].
  - intros ts r c Hne Hlen Hts. unfold concat_max.
    rewrite (lookup_by_key max1 ts Hlen (fun i t H => proj1 (Hts i t H))).
    cbn [bind]. destruct ts as [| t0 ts']; [contradiction |].
    rewrite (stack2_ok r c).
    + now rewrite Hlen.
    + apply Forall_forall. intros t Hin.
      destruct (In_nth_error _ _ Hin) as [i Hi]. exact (proj2 (Hts i t Hi)).
Qed.

Lemma concat_max_by_key_witness :
  dict_values swapped_max
    = [mkTensor2 (1, 1)%nat [[2%Q]]; mkTensor2 (1, 1)%nat [[5%Q]]] /\
  concat_max swapped_max = Ok (mkTensor3 (2, 1, 1)%nat [[[5%Q]]; [[2%Q]]]).
Proof.
  split; [reflexivity |].
  apply (proj2 (proj2 (concat_max_by_key swapped_max))
           [mkTensor2 (1, 1)%nat [[5%Q]]; mkTensor2 (1, 1)%nat [[2%Q]]]
           1%nat 1%nat).
  - discriminate.
  - reflexivity.
  - intros [| [| i]] t Ht; simpl in Ht.
    + injection Ht as <-. split; reflexivity.
    + injection Ht as <-. split; reflexivity.
    + destruct i; discriminate.
Defined.
(* ================================================================== *)
(** ** Runs of [encode_function] *)

Lemma for_each_seq_total {St} (I : nat -> St -> Prop)
  (body : St -> nat -> result St) :
  forall n s acc,
    I s acc ->
    (forall i a, (s <= i < s + n)%nat -> I i a ->
                 exists a', body a i = Ok a' /\ I (S i) a') ->
    exists acc', for_each (seq s n) body acc = Ok acc' /\ I (s + n)%nat acc'.
Proof.
  induction n as [| n IH]; intros s acc HI Hstep; simpl.
  - exists acc. split; [reflexivity | now rewrite Nat.add_0_r].
  - destruct (Hstep s acc ltac:(lia) HI) as [a' [Hb HI']].
    rewrite Hb. cbn [bind].
    destruct (IH (S s) a' HI') as [acc' [Hrun Hfin]].
    + intros i a Hi. apply Hstep. lia.
    + exists acc'. split; [exact Hrun |].
      now replace (s + S n)%nat with (S s + n)%nat by lia.
Qed.

(** A loop that ends without an exception ran its body on every element
    without an exception. *)
Lemma for_each_ok_body {A St} (body : St -> A -> result St) :
  forall xs acc acc', for_each xs body acc = Ok acc' ->
  forall x, In x xs -> exists a a', body a x = Ok a'.
Proof.
  induction xs as [| y xs IH]; intros acc acc' H x Hin; simpl in *.
  - contradiction.
  - inv_bind H. destruct Hin as [-> | Hin]; [eauto |].
    eapply IH; eauto.
Qed.

(** What a successful run of [encode_function] went through, step by
    step. *)
Lemma encode_function_run indefinite torchac_encode kv cfg chunk out :
  encode_function indefinite torchac_encode kv cfg chunk = Ok out ->
  exists fk fv enc cdf_k cdf_v ek ev cdf_f ei st mk mv,
    _split_kv kv = Ok (fk, fv) /\
    quantize indefinite (new_encoder fk fv cfg) = Ok enc /\
    compute_cdf enc true = Ok cdf_k /\
    stack2 (dict_values (quantized_key enc)) = Ok ek /\
    compute_cdf enc false = Ok cdf_v /\
    stack2 (dict_values (quantized_value enc)) = Ok ev /\
    cat3 cdf_k cdf_v = Ok cdf_f /\
    cat3 ek ev = Ok ei /\
    for_each (seq 0 (len3 cdf_f))
      (fun st l =>
         for_each (seq 0 chunk)
           (fun st i =>
              bits <- coder_call indefinite torchac_encode cdf_f ei l i ;;
              Ok (record_blob st bits))
           st)
      driver_init = Ok st /\
    concat_max (max_tensors_key enc) = Ok mk /\
    concat_max (max_tensors_value enc) = Ok mv /\
    out = mkOutput (concat (bytestreams st)) (to_int32_tensor (indices st))
            (_renorm_cast_cdf_ indefinite cdf_f 16) mk mv
            (fst (heads_of kv)) (snd (heads_of kv)).
Proof.
  unfold encode_function, heads_of.
  destruct (shape5 kv) as [[[[? ?] ?] nh] hs].
  intros H. inv_bind H. destruct a as [fk fv].
  inv_bind H. rename a into enc. inv_bind H. rename a into cdf_k.
  inv_bind H. rename a into ek. inv_bind H. rename a into cdf_v.
  inv_bind H. rename a into ev. inv_bind H. rename a into cdf_f.
  inv_bind H. rename a into ei. inv_bind H. rename a into st.
  inv_bind H. rename a into mk. inv_bind H. rename a into mv.
  injection H as <-.
  exists fk, fv, enc, cdf_k, cdf_v, ek, ev, cdf_f, ei, st, mk, mv.
  repeat (split; [assumption |]).
  split; [| auto].
  match goal with
  | Hl : for_each _ _ driver_init = Ok st |- _ => rewrite <- Hl
  end.
  apply for_each_ext. intros st0 l. apply for_each_ext. intros st1 i.
  unfold coder_call. destruct (slice1_row ei l i); reflexivity.
Qed.

Lemma heads_of_shape kv L d1 T H D :
  shape5 kv = (L, d1, T, H, D) ->
  heads_of kv = (H, D) /\ shape_0 kv = L /\ shape_2 kv = T /\
  channels_of kv = (H * D)%nat.
Proof.
  intros Hs. unfold heads_of, shape_0, shape_2, channels_of.
  now rewrite Hs.
Qed.

Lemma compute_cdf_first_layer self is_key cdf :
  compute_cdf self is_key = Ok cdf ->
  nth_error (data3 (fp_k self)) 0 <> None.
Proof.
  unfold compute_cdf, index3. intros Hcdf.
  destruct (shape3 (fp_k self)) as [[n r] c0].
  destruct (nth_error (data3 (fp_k self)) 0); [discriminate | discriminate].
Qed.

(** [encode_function] stops with the error of the CDF estimation when a
    symbol is outside the alphabet, below it or above it. *)
Lemma encode_function_bad_symbol indefinite torchac_encode kv cfg chunk
  fk fv enc l t c s :
  _split_kv kv = Ok (fk, fv) ->
  quantize indefinite (new_encoder fk fv cfg) = Ok enc ->
  entry3 (symbols (quantized_key enc)) l t c = Some s \/
  entry3 (symbols (quantized_value enc)) l t c = Some s ->
  s < 0 \/ 33 <= s ->
  encode_function indefinite torchac_encode kv cfg chunk = Raise RuntimeError.
Proof.
  intros Hsplit Hq He Hs.
  destruct (split_kv_ok _ _ _ Hsplit) as [(Hshk & Hlenk & Hslk) _].
  destruct (quantize_spec _ _ _ _ _ Hq) as (Hfk & _ & _ & Fk & _ & Fv & _).
  destruct (quantized_bank_ok indefinite kv cfg fk fv enc true Hsplit Hq)
    as [Hbk Hokk].
  destruct (quantized_bank_ok indefinite kv cfg fk fv enc false Hsplit Hq)
    as [Hbv Hokv].
  assert (HL : (0 < shape_0 kv)%nat).
  { destruct He as [He | He]; unfold entry3, symbols in He;
      rewrite nth_error_map in He.
    - destruct (nth_error (dict_values (quantized_key enc)) l) eqn:E;
        [| discriminate].
      assert (Hn : nth_error (bank enc true) l <> None)
        by (unfold bank; congruence).
      apply nth_error_Some in Hn. lia.
    - destruct (nth_error (dict_values (quantized_value enc)) l) eqn:E;
        [| discriminate].
      assert (Hn : nth_error (bank enc false) l <> None)
        by (unfold bank; congruence).
      apply nth_error_Some in Hn. lia. }
  assert (H0 : nth_error (data3 (fp_k enc)) 0 <> None).
  { rewrite Hfk. apply nth_error_Some. lia. }
  unfold encode_function. destruct (shape5 kv) as [[[[? ?] ?] nh] hs].
  rewrite Hsplit. cbn [bind]. rewrite Hq. cbn [bind].
  destruct He as [He | He].
  - rewrite (compute_cdf_bad enc true _ _ H0 Hokk); [reflexivity |].
    exists l, t, c, s. split; [exact He | exact Hs].
  - destruct (compute_cdf enc true) as [cdf_k | e] eqn:Ek; cbn [bind].
    + destruct (stack2 (dict_values (quantized_key enc))) as [ek | e] eqn:Es;
        cbn [bind].
      * rewrite (compute_cdf_bad enc false _ _ H0 Hokv); [reflexivity |].
        exists l, t, c, s. split; [exact He | exact Hs].
      * now rewrite (stack2_raises _ _ Es).
    + now rewrite (compute_cdf_raises _ _ _ H0 Ek).
Qed.

(** X7.  A quantized symbol below 0 is as fatal as one above 32:
    [encode_function] raises the error of the one-hot encoding whatever the
    coder and the chunk size; so after a successful encode every symbol that
    was coded, key or value, lies in [[0, 32]]. *)
Theorem encode_function_alphabet indefinite kv cfg fk fv enc :
  _split_kv kv = Ok (fk, fv) ->
  quantize indefinite (new_encoder fk fv cfg) = Ok enc ->
  ((exists l t c s,
      (entry3 (symbols (quantized_key enc)) l t c = Some s \/
       entry3 (symbols (quantized_value enc)) l t c = Some s) /\ s < 0) ->
   forall torchac_encode chunk,
     encode_function indefinite torchac_encode kv cfg chunk
     = Raise RuntimeError) /\
  (forall torchac_encode chunk out,
     encode_function indefinite torchac_encode kv cfg chunk = Ok out ->
     forall l t c s,
       entry3 (symbols (quantized_key enc)) l t c = Some s \/
       entry3 (symbols (quantized_value enc)) l t c = Some s ->
       0 <= s <= 32).
Proof.
  intros Hsplit Hq. split.
  - intros (l & t & c & s & He & Hs) torchac_encode chunk.
    eapply encode_function_bad_symbol; eauto.
  - intros torchac_encode chunk out Hrun l t c s He.
    destruct (Z_le_dec 0 s) as [Hlo | Hlo];
      [destruct (Z_le_dec s 32) as [Hhi | Hhi]; [lia |] |].
    + rewrite (encode_function_bad_symbol indefinite torchac_encode kv cfg
                 chunk fk fv enc l t c s Hsplit Hq He) in Hrun;
        [discriminate | lia].
    + rewrite (encode_function_bad_symbol indefinite torchac_encode kv cfg
                 chunk fk fv enc l t c s Hsplit Hq He) in Hrun;
        [discriminate | lia].
Qed.

Lemma encode_function_alphabet_witness :
  encode_function indefinite_x86 sample_coder tiny_kv one_bin_config 1
  = Raise RuntimeError.
Proof.
  refine (proj1 (encode_function_alphabet indefinite_x86 tiny_kv
                   one_bin_config _ _ _ _ _) _ sample_coder 1%nat).
  - vm_compute; reflexivity.
  - vm_compute; reflexivity.
  - exists 0%nat, 0%nat, 0%nat, (-2). split; [| lia].
    left. vm_compute. reflexivity.
Defined.
(* ================================================================== *)
(** ** What a successful encode needs *)

Lemma stack2_inv {A} T C (ts : list (Tensor2 A)) t :
  stack2 ts = Ok t -> Forall (tensor2_ok T C) ts ->
  ts <> [] /\ t = mkTensor3 (length ts, T, C) (map (@data2 A) ts).
Proof.
  unfold stack2. destruct ts as [| t0 ts']; [discriminate |].
  intros H HF. pose proof (Forall_inv HF) as (Hs0 & _). rewrite Hs0 in H.
  destruct (forallb _ _); [| discriminate].
  injection H as <-. split; [discriminate | reflexivity].
Qed.

Lemma slice1_row_ok {A} (t : Tensor3 A) l i syms :
  slice1_row t l i = Ok syms -> (i < snd (fst (shape3 t)))%nat.
Proof.
  unfold slice1_row. destruct (shape3 t) as [[n r] c]. simpl.
  destruct (Nat.ltb_spec i r); [auto | discriminate].
Qed.

(** The shapes along a successful run: both inputs of the coding loop have
    one slab per key layer and one per value layer. *)
Lemma encode_function_shapes indefinite kv cfg fk fv enc cdf_k cdf_v ek ev
  cdf_f ei L d1 T H D :
  shape5 kv = (L, d1, T, H, D) ->
  _split_kv kv = Ok (fk, fv) ->
  quantize indefinite (new_encoder fk fv cfg) = Ok enc ->
  compute_cdf enc true = Ok cdf_k ->
  stack2 (dict_values (quantized_key enc)) = Ok ek ->
  compute_cdf enc false = Ok cdf_v ->
  stack2 (dict_values (quantized_value enc)) = Ok ev ->
  cat3 cdf_k cdf_v = Ok cdf_f ->
  cat3 ek ev = Ok ei ->
  (0 < L)%nat /\ len3 cdf_f = (L + L)%nat /\
  shape3 ei = ((L + L)%nat, T, (H * D)%nat) /\
  data3 ei = symbols (quantized_key enc) ++ symbols (quantized_value enc) /\
  length (symbols (quantized_key enc)) = L /\
  length (symbols (quantized_value enc)) = L.
Proof.
  intros Hs Hsplit Hq Hck Hek Hcv Hev Hcat Hcat2.
  destruct (heads_of_shape kv L d1 T H D Hs) as (_ & HL & HT & HC).
  destruct (split_kv_ok _ _ _ Hsplit) as [(Hshk & Hlenk & Hslk) _].
  rewrite HL, HT, HC in *.
  destruct (quantize_spec _ _ _ _ _ Hq) as (Hfk & _ & _ & Fk & _ & Fv & _).
  destruct (quantized_bank_ok indefinite kv cfg fk fv enc true Hsplit Hq)
    as [Hbk Hokk].
  destruct (quantized_bank_ok indefinite kv cfg fk fv enc false Hsplit Hq)
    as [Hbv Hokv].
  rewrite HL in Hbk, Hbv. rewrite HT, HC in Hokk, Hokv.
  unfold bank in Hbk, Hbv, Hokk, Hokv.
  assert (HLpos : (0 < L)%nat).
  { pose proof (compute_cdf_first_layer _ _ _ Hck) as H0.
    rewrite Hfk in H0. apply nth_error_Some in H0. lia. }
  destruct (stack2_inv T (H * D) _ _ Hek Hokk) as [_ ->].
  destruct (stack2_inv T (H * D) _ _ Hev Hokv) as [_ ->].
  destruct (compute_cdf_shape _ _ _ Hck) as [ch Hshck].
  destruct (compute_cdf_shape _ _ _ Hcv) as [ch' Hshcv].
  destruct (cat3_shape _ _ _ Hcat) as (Hlen & _).
  assert (Hlk : len3 fk = L) by (unfold len3; now rewrite Hshk).
  rewrite Hfk, Hlk in Hshck, Hshcv.
  split; [exact HLpos |].
  split; [rewrite Hlen; unfold len3; now rewrite Hshck, Hshcv |].
  unfold cat3 in Hcat2. cbn [shape3 data3] in Hcat2.
  rewrite !Nat.eqb_refl in Hcat2. cbn [andb] in Hcat2.
  injection Hcat2 as <-. cbn [shape3 data3].
  rewrite Hbk, Hbv. unfold symbols.
  split; [reflexivity |]. split; [reflexivity |].
  now rewrite !length_map.
Qed.

(** X8.  What a successful [encode_function] implies about its arguments:
    there is at least one layer and at least one channel, the chunk size is
    not larger than the number of tokens (a larger one indexes a token that
    does not exist), and the second axis has two entries unless there is no
    token at all. *)
Theorem encode_function_requires indefinite torchac_encode kv cfg chunk out
  L d1 T H D :
  shape5 kv = (L, d1, T, H, D) ->
  encode_function indefinite torchac_encode kv cfg chunk = Ok out ->
  (1 <= L)%nat /\ (1 <= H * D)%nat /\ (chunk <= T)%nat /\
  (d1 = 2%nat \/ T = 0%nat).
Proof.
  intros Hs Hrun.
  destruct (encode_function_run _ _ _ _ _ _ Hrun)
    as (fk & fv & enc & cdf_k & cdf_v & ek & ev & cdf_f & ei & st & mk & mv
        & Hsplit & Hq & Hck & Hek & Hcv & Hev & Hcat & Hcat2 & Hloop & _).
  destruct (encode_function_shapes _ _ _ _ _ _ _ _ _ _ _ _ _ _ _ _ _ Hs Hsplit
              Hq Hck Hek Hcv Hev Hcat Hcat2)
    as (HLpos & Hlen & Hshei & _ & Hlk & _).
  destruct (heads_of_shape kv L d1 T H D Hs) as (_ & HL & HT & HC).
  destruct (split_kv_ok _ _ _ Hsplit) as [(Hshk & Hlenk & Hslk) _].
  rewrite HL, HT, HC in *.
  destruct (quantize_spec _ _ _ _ _ Hq) as (Hfk & _ & _ & Fk & _).
  assert (HCpos : (1 <= H * D)%nat).
  { assert (Hlen3 : len3 fk = L) by (unfold len3; now rewrite Hshk).
    rewrite Hlen3 in Fk.
    destruct L as [| L']; [lia |]. simpl in Fk.
    inversion Fk as [| x e xs es (_ & qA & xq & m & Hidx & Htq & _) _]; subst.
    destruct (index3_data _ _ _ Hidx) as [_ Hsh].
    rewrite Hshk in Hsh. simpl in Hsh.
    destruct (torch_quant_inv _ _ _ _ _ Htq) as [Hcols _].
    rewrite Hsh in Hcols. simpl in Hcols. lia. }
  split; [lia |]. split; [exact HCpos |]. split.
  - destruct (le_lt_dec chunk T) as [Hle | Hlt]; [exact Hle | exfalso].
    destruct (for_each_ok_body _ _ _ _ Hloop 0%nat) as (a & a' & Hin).
    { apply in_seq. lia. }
    destruct (for_each_ok_body _ _ _ _ Hin T) as (b & b' & Hbody).
    { apply in_seq. lia. }
    apply bind_ok in Hbody. destruct Hbody as [bits [Hcall _]].
    unfold coder_call in Hcall. apply bind_ok in Hcall.
    destruct Hcall as [syms [Hsl _]].
    apply slice1_row_ok in Hsl. rewrite Hshei in Hsl. simpl in Hsl. lia.
  - unfold _split_kv in Hsplit. rewrite Hs in Hsplit.
    destruct (Nat.eqb_spec (L * d1 * T * H * D) (L * 2 * T * (H * D)))
      as [E | E]; [| discriminate].
    destruct (Nat.eq_dec T 0) as [HT0 | HT0]; [now right | left].
    assert (HN : (T * (L * (H * D)) <> 0)%nat) by nia.
    apply (Nat.mul_cancel_r d1 2 _ HN). lia.
Qed.

Lemma encode_function_requires_witness :
  exists out,
    encode_function indefinite_x86 sample_coder sample_kv sample_config 2
      = Ok out /\
    (1 <= shape_0 sample_kv)%nat /\ (2 <= shape_2 sample_kv)%nat.
Proof.
  assert (H : exists out,
            encode_function indefinite_x86 sample_coder sample_kv
              sample_config 2 = Ok out)
    by (eexists; vm_compute; reflexivity).
  destruct H as [out H].
  destruct (encode_function_requires indefinite_x86 sample_coder sample_kv
              sample_config 2 out 1 2 2 1 2 eq_refl H)
    as (HL & _ & HT & _).
  exists out. split; [exact H |]. split; [exact HL | exact HT].
Defined.
(* ================================================================== *)
(** ** The blobs of the bytestream *)

Lemma renorm_cast_is_convert indefinite (c : Tensor3 fval) :
  _renorm_cast_cdf_ indefinite c 16 =
  _convert_to_int_and_normalize indefinite c true.
Proof.
  unfold _renorm_cast_cdf_, _convert_to_int_and_normalize.
  cbv zeta. rewrite Qdiv_1_r_eq. reflexivity.
Qed.

Lemma slice1_nth {A} (xs : list A) l x :
  nth_error xs l = Some x -> slice1 l xs = [x].
Proof.
  unfold slice1. revert l. induction xs as [| y xs IH]; intros [| l] H;
    simpl in *; try discriminate.
  - injection H as ->. reflexivity.
  - now apply IH.
Qed.

(** The blob recorded at the position [l * chunk + i] is the one the body
    returned at [(l, i)]. *)
Lemma coding_loop_blobs
  (body : nat -> nat -> result bytes) (n chunk : nat) st :
  for_each (seq 0 n)
    (fun st l =>
       for_each (seq 0 chunk)
         (fun st i => bits <- body l i ;; Ok (record_blob st bits)) st)
    driver_init = Ok st ->
  forall l i, (l < n)%nat -> (i < chunk)%nat ->
  exists bits,
    body l i = Ok bits /\
    nth_error (bytestreams st) (l * chunk + i) = Some bits.
Proof.
  intros Hrun.
  pose (J := fun (count : nat) (st : driver_state) =>
    length (bytestreams st) = count /\
    forall l i, (i < chunk)%nat -> (l * chunk + i < count)%nat ->
    exists bits,
      body l i = Ok bits /\
      nth_error (bytestreams st) (l * chunk + i) = Some bits).
  assert (HJ : J (n * chunk)%nat st).
  { refine (for_each_seq_invariant (fun l => J (l * chunk)%nat) _ n 0%nat
              driver_init st Hrun _ _).
    - unfold J. simpl. split; [reflexivity |]. intros l i _ H. lia.
    - intros l a a' _ HJ Hinner.
      replace (S l * chunk)%nat with (l * chunk + (0 + chunk))%nat by lia.
      refine (for_each_seq_invariant (fun i => J (l * chunk + i)%nat) _ chunk
                0%nat a a' Hinner _ _).
      + now rewrite Nat.add_0_r.
      + intros i b b' Hi (Hn & Hold) Hbody.
        apply bind_ok in Hbody. destruct Hbody as [bits [Hbits Hb']].
        injection Hb' as <-. unfold J, record_blob. cbn [bytestreams].
        split; [rewrite length_app, Hn; simpl; lia |].
        intros l0 i0 Hi0 Hlt.
        destruct (Nat.eq_dec (l0 * chunk + i0) (l * chunk + i)) as [E | E].
        * assert (Hl0 : l0 = l).
          { destruct (channel_index (S l0) chunk l0 i0 ltac:(lia) Hi0)
              as (_ & Hd0 & _).
            destruct (channel_index (S l) chunk l i ltac:(lia) ltac:(lia))
              as (_ & Hd & _).
            rewrite E in Hd0. congruence. }
          subst l0. assert (i0 = i) by lia. subst i0.
          exists bits. split; [exact Hbits |].
          rewrite nth_error_app2 by lia.
          rewrite Hn, Nat.sub_diag. reflexivity.
        * destruct (Hold l0 i0 Hi0 ltac:(lia)) as [bits0 [Hb0 Hn0]].
          exists bits0. split; [exact Hb0 |].
          rewrite nth_error_app1 by lia. exact Hn0. }
  intros l i Hl Hi. destruct HJ as [_ HJ]. apply HJ; [exact Hi | nia].
Qed.

(** The blobs of a successful run: what the coder returned, in loop order;
    the bytestream is their concatenation and the start indices are their
    cumulative byte offsets after the cast to int32. *)
Lemma encode_function_blob_list indefinite torchac_encode kv cfg chunk out
  L d1 T H D :
  shape5 kv = (L, d1, T, H, D) ->
  encode_function indefinite torchac_encode kv cfg chunk = Ok out ->
  exists fk fv enc blobs,
    _split_kv kv = Ok (fk, fv) /\
    quantize indefinite (new_encoder fk fv cfg) = Ok enc /\
    bytestream out = concat blobs /\
    start_indices out = to_int32_tensor (cumulative_offsets 0 blobs) /\
    length blobs = (2 * L * chunk)%nat /\
    forall l i, (l < 2 * L)%nat -> (i < chunk)%nat ->
      exists slab row bits,
        nth_error (symbols (quantized_key enc)
                   ++ symbols (quantized_value enc)) l = Some slab /\
        nth_error slab i = Some row /\
        torchac_encode (slice1 l (data3 (cdf out))) [map wrap16 row]
          = Ok bits /\
        nth_error blobs (l * chunk + i) = Some bits.
Proof.
  intros Hs Hrun.
  destruct (encode_function_run _ _ _ _ _ _ Hrun)
    as (fk & fv & enc & cdf_k & cdf_v & ek & ev & cdf_f & ei & st & mk & mv
        & Hsplit & Hq & Hck & Hek & Hcv & Hev & Hcat & Hcat2 & Hloop & _ & _
        & Hout).
  destruct (encode_function_shapes _ _ _ _ _ _ _ _ _ _ _ _ _ _ _ _ _ Hs Hsplit
              Hq Hck Hek Hcv Hev Hcat Hcat2)
    as (HLpos & Hlen & Hshei & Hdei & Hlk & Hlv).
  destruct (coding_loop_offsets _ _ _ _ Hloop) as (_ & Hidx & Hcount).
  pose proof (coding_loop_blobs _ _ _ _ Hloop) as Hblobs.
  exists fk, fv, enc, (bytestreams st).
  split; [exact Hsplit |]. split; [exact Hq |].
  split; [now rewrite Hout |].
  split; [rewrite Hout; cbn [start_indices]; now rewrite Hidx |].
  split; [rewrite Hcount, Hlen; lia |].
  intros l i Hl Hi.
  destruct (Hblobs l i ltac:(lia) Hi) as [bits [Hcall Hnth]].
  unfold coder_call in Hcall. apply bind_ok in Hcall.
  destruct Hcall as [syms [Hsl Hcode]].
  pose proof (slice1_row_ok _ _ _ _ Hsl) as HiT.
  rewrite Hshei in HiT. simpl in HiT.
  assert (Hslab : exists slab, nth_error (data3 ei) l = Some slab).
  { destruct (nth_error (data3 ei) l) as [slab |] eqn:E; [eauto |].
    apply nth_error_None in E. rewrite Hdei, length_app, Hlk, Hlv in E. lia. }
  destruct Hslab as [slab Hslab].
  assert (Hrows : length slab = T).
  { destruct (heads_of_shape kv L d1 T H D Hs) as (_ & _ & HT & _).
    destruct (quantized_bank_ok indefinite kv cfg fk fv enc true Hsplit Hq)
      as [_ Hokk].
    destruct (quantized_bank_ok indefinite kv cfg fk fv enc false Hsplit Hq)
      as [_ Hokv].
    rewrite HT in Hokk, Hokv. unfold bank in Hokk, Hokv.
    rewrite Hdei in Hslab. unfold symbols in Hslab. rewrite <- map_app in Hslab.
    rewrite nth_error_map in Hslab.
    destruct (nth_error (dict_values (quantized_key enc)
                         ++ dict_values (quantized_value enc)) l)
      as [x |] eqn:Ex; [| discriminate].
    injection Hslab as <-.
    pose proof (nth_error_In _ _ Ex) as Hin. apply in_app_or in Hin.
    rewrite Forall_forall in Hokk, Hokv.
    destruct Hin as [Hin | Hin];
      [destruct (Hokk _ Hin) as (_ & Hr & _)
      | destruct (Hokv _ Hin) as (_ & Hr & _)]; exact Hr. }
  assert (Hrow : exists row, nth_error slab i = Some row).
  { destruct (nth_error slab i) as [row |] eqn:E; [eauto |].
    apply nth_error_None in E. lia. }
  destruct Hrow as [row Hrow].
  exists slab, row, bits.
  split; [now rewrite <- Hdei |]. split; [exact Hrow |].
  split; [| exact Hnth].
  unfold slice1_row in Hsl. rewrite Hshei in Hsl.
  destruct (Nat.ltb i T); [| discriminate].
  injection Hsl as <-. rewrite (slice1_nth _ _ _ Hslab) in Hcode.
  cbn [map] in Hcode. rewrite (nth_error_nth _ _ _ Hrow) in Hcode.
  rewrite Hout. cbn [cdf]. rewrite renorm_cast_is_convert. exact Hcode.
Qed.


(** X9.  The bytestream of a successful encode is the concatenation of
    [2 * L * chunk] blobs, slab after slab (the key layers, then the value
    layers) and token after token: the blob at the position [l * chunk + i]
    is what the coder returned for the stored integer CDF of the slab [l] and
    the symbols of its token [i]. *)
Theorem encode_function_blobs indefinite torchac_encode kv cfg chunk out
  L d1 T H D :
  shape5 kv = (L, d1, T, H, D) ->
  encode_function indefinite torchac_encode kv cfg chunk = Ok out ->
  exists fk fv enc blobs,
    _split_kv kv = Ok (fk, fv) /\
    quantize indefinite (new_encoder fk fv cfg) = Ok enc /\
    bytestream out = concat blobs /\
    length blobs = (2 * L * chunk)%nat /\
    forall l i, (l < 2 * L)%nat -> (i < chunk)%nat ->
      exists slab row bits,
        nth_error (symbols (quantized_key enc)
                   ++ symbols (quantized_value enc)) l = Some slab /\
        nth_error slab i = Some row /\
        torchac_encode (slice1 l (data3 (cdf out))) [map wrap16 row]
          = Ok bits /\
        nth_error blobs (l * chunk + i) = Some bits.
Proof.
  intros Hs Hrun.
  destruct (encode_function_blob_list _ _ _ _ _ _ _ _ _ _ _ Hs Hrun)
    as (fk & fv & enc & blobs & Hsplit & Hq & Hb & _ & Hn & Hblobs).
  exists fk, fv, enc, blobs. auto.
Qed.

Lemma encode_function_blobs_witness :
  exists out blobs,
    encode_function indefinite_x86 sample_coder sample_kv sample_config 2
      = Ok out /\
    bytestream out = concat blobs /\ length blobs = 4%nat.
Proof.
  assert (H : exists out,
            encode_function indefinite_x86 sample_coder sample_kv
              sample_config 2 = Ok out)
    by (eexists; vm_compute; reflexivity).
  destruct H as [out H].
  destruct (encode_function_blobs indefinite_x86 sample_coder sample_kv
              sample_config 2 out 1 2 2 1 2 eq_refl H)
    as (fk & fv & enc & blobs & _ & _ & Hb & Hn & _).
  exists out, blobs. split; [exact H |]. split; [exact Hb | exact Hn].
Defined.

(** C4 (as amended).  For every successful encode of a KV tensor with [L]
    layers and [T] tokens, with [T] as the chunk size: [start_indices] has
    length [2 * L * T]; the bytestream is the concatenation of the [2 * L *
    T] blobs the coder returned, in loop order, and the offset recorded for
    each blob is the cumulative byte count of the blobs appended before it,
    stored as a 32-bit integer.  When the bytestream is shorter than
    [2 ^ 31] bytes the stored offsets are these byte counts themselves:
    [start_indices] is non-decreasing, has all entries between 0 and the
    length of the bytestream, and starts with 0. *)
Theorem encode_function_offsets indefinite torchac_encode kv cfg out :
  encode_function indefinite torchac_encode kv cfg (shape_2 kv) = Ok out ->
  length (start_indices out) = (2 * shape_0 kv * shape_2 kv)%nat /\
  exists fk fv enc blobs,
    _split_kv kv = Ok (fk, fv) /\
    quantize indefinite (new_encoder fk fv cfg) = Ok enc /\
    length blobs = (2 * shape_0 kv * shape_2 kv)%nat /\
    bytestream out = concat blobs /\
    (forall l i, (l < 2 * shape_0 kv)%nat -> (i < shape_2 kv)%nat ->
       exists slab row bits,
         nth_error (symbols (quantized_key enc)
                    ++ symbols (quantized_value enc)) l = Some slab /\
         nth_error slab i = Some row /\
         torchac_encode (slice1 l (data3 (cdf out))) [map wrap16 row]
           = Ok bits /\
         nth_error blobs (l * shape_2 kv + i) = Some bits) /\
    (forall i, (i < length blobs)%nat ->
       nth_error (start_indices out) i =
       Some (wrap32 (Z.of_nat (length (concat (firstn i blobs)))))) /\
    (Z.of_nat (length (bytestream out)) < 2 ^ 31 ->
     non_decreasing (start_indices out) /\
     (forall i o, nth_error (start_indices out) i = Some o ->
                  0 <= o <= Z.of_nat (length (bytestream out))) /\
     (forall o, nth_error (start_indices out) 0 = Some o -> o = 0) /\
     (forall i, (i < length blobs)%nat ->
        nth_error (start_indices out) i =
        Some (Z.of_nat (length (concat (firstn i blobs)))))).
Proof.
  intros Hrun.
  destruct (shape5 kv) as [[[[L d1] T] H] D] eqn:Hs.
  assert (HL : shape_0 kv = L) by (unfold shape_0; now rewrite Hs).
  assert (HT : shape_2 kv = T) by (unfold shape_2; now rewrite Hs).
  rewrite HL, HT in *.
  destruct (encode_function_blob_list _ _ _ _ _ _ _ _ _ _ _ Hs Hrun)
    as (fk & fv & enc & blobs & Hsplit & Hq & Hb & Hsi & Hn & Hblobs).
  split.
  - rewrite Hsi. unfold to_int32_tensor.
    now rewrite length_map, cumulative_offsets_length.
  - exists fk, fv, enc, blobs.
    split; [exact Hsplit |]. split; [exact Hq |]. split; [exact Hn |].
    split; [exact Hb |]. split; [exact Hblobs |]. split.
    + intros i Hi. rewrite Hsi. unfold to_int32_tensor.
      rewrite nth_error_map, cumulative_offsets_nth by exact Hi.
      reflexivity.
    + intros Hsmall. rewrite Hb in Hsmall.
      rewrite Hsi, (to_int32_tensor_small _ Hsmall), Hb.
      split; [apply cumulative_offsets_non_decreasing |].
      split; [intros i o; apply cumulative_offsets_bounds |].
      split.
      * intros o Ho. destruct blobs as [| b bs]; [discriminate |].
        simpl in Ho. now injection Ho.
      * intros i Hi. now rewrite cumulative_offsets_nth.
Qed.

Lemma encode_function_offsets_witness :
  exists out,
    encode_function indefinite_x86 sample_coder sample_kv sample_config
      (shape_2 sample_kv) = Ok out /\
    length (start_indices out) = 4%nat /\
    non_decreasing (start_indices out) /\
    (forall o, nth_error (start_indices out) 0 = Some o -> o = 0).
Proof.
  eexists. split; [vm_compute; reflexivity |].
  match goal with
  | |- context [start_indices ?o] =>
      assert (H : encode_function indefinite_x86 sample_coder sample_kv
                    sample_config (shape_2 sample_kv) = Ok o)
        by (vm_compute; reflexivity);
      destruct (encode_function_offsets indefinite_x86 sample_coder sample_kv
                  sample_config o H)
        as (Hlen & fk & fv & enc & blobs & _ & _ & _ & _ & _ & _ & Hsmall)
  end.
  split; [exact Hlen |].
  destruct Hsmall as (Hmono & _ & Hzero & _); [vm_compute; reflexivity |].
  split; assumption.
Defined.
(* ================================================================== *)
(** ** When [encode_function] succeeds *)

Lemma index3_ok {A} (t : Tensor3 A) n r c i :
  shape3 t = (n, r, c) -> (i < length (data3 t))%nat ->
  exists d, nth_error (data3 t) i = Some d /\
            index3 t i = Ok (mkTensor2 (r, c) d).
Proof.
  intros Hs Hi. unfold index3. rewrite Hs.
  destruct (nth_error (data3 t) i) as [d |] eqn:E.
  - exists d. auto.
  - apply nth_error_None in E. lia.
Qed.

(** [quantize] succeeds on tensors with at least one channel. *)
Lemma quantize_ok indefinite k v cfg L T C :
  tensor3_ok L T C k -> tensor3_ok L T C v -> C <> 0%nat ->
  exists enc, quantize indefinite (new_encoder k v cfg) = Ok enc.
Proof.
  intros (Hsk & Hlk & _) (Hsv & Hlv & _) HC. unfold quantize.
  match goal with
  | |- exists enc, bind (for_each ?xs ?body ?acc) _ = Ok enc =>
      destruct (for_each_seq_total
                  (fun (_ : nat) self => fp_k self = k /\ fp_v self = v)
                  body (len3 (fp_k acc)) 0%nat acc) as [e1 [H1 [Hk1 Hv1]]]
  end.
  - split; reflexivity.
  - intros i a Hi [Hka Hva]. cbn [fp_k new_encoder] in Hi.
    assert (HiL : (i < length (data3 k))%nat)
      by (unfold len3 in Hi; rewrite Hsk in Hi; lia).
    destruct (index3_ok k L T C i Hsk HiL) as [d [_ Hidx]].
    rewrite Hka, Hidx. cbn [bind].
    rewrite torch_quant_ok by (simpl; exact HC). cbn [bind].
    eexists. split; [reflexivity |]. cbn [fp_k fp_v set_key]. auto.
  - rewrite H1. cbn [bind].
    match goal with
    | |- exists enc, for_each ?xs ?body ?acc = Ok enc =>
        destruct (for_each_seq_total
                    (fun (_ : nat) self => fp_v self = v)
                    body (len3 (fp_v acc)) 0%nat acc) as [e2 [H2 _]]
    end.
    + exact Hv1.
    + intros i a Hi Hva. rewrite Hv1 in Hi.
      assert (HiL : (i < length (data3 v))%nat)
        by (unfold len3 in Hi; rewrite Hsv in Hi; lia).
      destruct (index3_ok v L T C i Hsv HiL) as [d [_ Hidx]].
      rewrite Hva, Hidx. cbn [bind].
      rewrite torch_quant_ok by (simpl; exact HC). cbn [bind].
      eexists. split; [reflexivity |]. cbn [fp_v set_value]. exact Hva.
    + exists e2. exact H2.
Qed.

(** With bin counts between 2 and 34 and no all-zero row every symbol of a
    bank lies in the alphabet. *)
Lemma bank_in_alphabet indefinite bins fp n d :
  (forall l, 2 <= bins l <= 34) -> rows_nonzero fp ->
  Forall2 (quantized_entry indefinite bins fp) (seq 0 n) d ->
  Forall (symbols_between 0 32) (dict_values d).
Proof.
  intros Hb Hnz HF.
  assert (Hall := entries_forall (fun s => 0 <= s <= 32) (symbols d)).
  unfold symbols in Hall. rewrite Forall_map in Hall. apply Hall.
  intros l t c s He.
  destruct (symbols_entry _ _ _ _ _ _ _ _ _ HF He)
    as (slab & row & x & Hl & Ht & Hc & ->).
  pose proof (Hb l) as Hbl.
  pose proof (symbol_of_range indefinite (bins l) row x
                ltac:(lia) (nth_error_In _ _ Hc)
                (rows_nonzero_row _ _ _ _ _ Hnz Hl Ht)) as Hsym.
  pose proof (center_le_16 (bins l) ltac:(lia)). lia.
Qed.

(** In the dictionaries [quantize] fills, the key [i] is found at the
    position [i]. *)
Lemma dict_get_in_order {V} (d : dict V) :
  forall s,
    (forall i e, nth_error d i = Some e -> fst e = (s + i)%nat) ->
    forall i e, nth_error d i = Some e -> dict_get d (s + i) = Ok (snd e).
Proof.
  induction d as [| [k0 v0] d IH]; intros s Hkeys i e Hi.
  - destruct i; discriminate.
  - pose proof (Hkeys 0%nat _ eq_refl) as H0. simpl in H0.
    rewrite Nat.add_0_r in H0. subst k0.
    destruct i as [| i]; simpl in Hi.
    + injection Hi as <-. simpl. now rewrite Nat.add_0_r, Nat.eqb_refl.
    + simpl. destruct (Nat.eqb_spec s (s + S i)) as [E | E]; [lia |].
      replace (s + S i)%nat with (S s + i)%nat by lia.
      apply IH; [| exact Hi].
      intros j e' Hj. rewrite (Hkeys (S j) e' Hj). lia.
Qed.

(** [concat_max] on a dictionary of maxima [quantize] filled. *)
Lemma concat_max_quantized indefinite bins fp L T C d :
  tensor3_ok L T C fp -> (0 < L)%nat ->
  Forall2 (max_entry indefinite bins fp) (seq 0 L) d ->
  concat_max d = Ok (mkTensor3 (L, T, 1%nat) (maxima d)).
Proof.
  intros (Hs & Hlen & _) HL HF.
  pose proof (Forall2_length_eq _ _ _ HF) as Hld. rewrite length_seq in Hld.
  assert (Hkeys : forall i e, nth_error d i = Some e -> fst e = (0 + i)%nat).
  { intros i e He.
    destruct (Forall2_nth_error_r _ _ _ HF _ _ He) as [l [Hl [Hfst _]]].
    apply nth_error_seq_0 in Hl. now subst l. }
  assert (Hshape : Forall (fun t => shape2 t = (T, 1%nat)) (dict_values d)).
  { unfold dict_values. apply Forall_map. apply Forall_forall. intros e Hin.
    destruct (In_nth_error _ _ Hin) as [i He].
    destruct (Forall2_nth_error_r _ _ _ HF _ _ He)
      as [l [_ (_ & qA & xq & m & Hidx & Htq & ->)]].
    destruct (index3_data _ _ _ Hidx) as [_ Hsh]. rewrite Hs in Hsh.
    destruct (torch_quant_inv _ _ _ _ _ Htq) as (_ & _ & ->).
    cbn [shape2]. now rewrite Hsh. }
  unfold concat_max.
  rewrite (lookup_by_key d (dict_values d)).
  - cbn [bind]. unfold maxima.
    destruct (dict_values d) as [| t0 ts] eqn:Ed.
    + unfold dict_values in Ed. apply (f_equal (@length _)) in Ed.
      rewrite length_map in Ed. simpl in Ed. lia.
    + rewrite (stack2_ok T 1 t0 ts Hshape). rewrite <- Ed.
      unfold dict_values. now rewrite length_map, <- Hld.
  - unfold dict_values. now rewrite length_map.
  - intros i t Ht. unfold dict_values in Ht. rewrite nth_error_map in Ht.
    destruct (nth_error d i) as [e |] eqn:He; [| discriminate].
    injection Ht as <-.
    exact (dict_get_in_order d 0%nat Hkeys i e He).
Qed.

Lemma split_data_row kv k L d1 T H D l t :
  shape5 kv = (L, d1, T, H, D) -> (l < L)%nat -> (t < T)%nat ->
  exists slab,
    nth_error (split_data kv k) l = Some slab /\
    nth_error slab t =
    Some (map (fun c => at5 kv l k t (c / D)%nat (c mod D)%nat)
              (seq 0 (H * D))).
Proof.
  intros Hs Hl Ht. unfold split_data. rewrite Hs.
  rewrite (nth_error_map_seq _ L l Hl). eexists. split; [reflexivity |].
  now rewrite (nth_error_map_seq _ T t Ht).
Qed.

Lemma split_data_row_in kv k H D l t h d :
  (h < H)%nat -> (d < D)%nat ->
  In (at5 kv l k t h d)
     (map (fun c => at5 kv l k t (c / D)%nat (c mod D)%nat) (seq 0 (H * D))).
Proof.
  intros Hh Hd.
  destruct (channel_index H D h d Hh Hd) as (Hc & Hdiv & Hmod).
  apply in_map_iff. exists (h * D + d)%nat.
  split; [now rewrite Hdiv, Hmod | apply in_seq; lia].
Qed.

Lemma split_kv_two kv L T H D :
  shape5 kv = (L, 2, T, H, D)%nat ->
  _split_kv kv =
  Ok (mkTensor3 (L, T, (H * D)%nat) (split_data kv 0),
      mkTensor3 (L, T, (H * D)%nat) (split_data kv 1)).
Proof.
  intros Hs. unfold _split_kv. rewrite Hs.
  replace (L * 2 * T * H * D)%nat with (L * 2 * T * (H * D))%nat by lia.
  now rewrite Nat.eqb_refl.
Qed.

Lemma no_zero_row_split kv k L d1 T H D sh :
  shape5 kv = (L, d1, T, H, D) -> (k < 2)%nat -> no_zero_row kv ->
  rows_nonzero (mkTensor3 sh (split_data kv k)).
Proof.
  intros Hs Hk Hnz. unfold no_zero_row in Hnz. rewrite Hs in Hnz.
  unfold rows_nonzero. cbn [data3].
  apply Forall_forall. intros slab Hslab.
  destruct (In_nth_error _ _ Hslab) as [l Hl].
  assert (HlL : (l < L)%nat).
  { pose proof (proj1 (split_data_ok kv k)) as Hlen.
    unfold shape_0 in Hlen. rewrite Hs in Hlen. rewrite <- Hlen.
    apply nth_error_Some. congruence. }
  apply Forall_forall. intros row Hrow.
  destruct (In_nth_error _ _ Hrow) as [t Ht].
  assert (HtT : (t < T)%nat).
  { pose proof (proj2 (split_data_ok kv k)) as Hok.
    rewrite Forall_forall in Hok. destruct (Hok slab Hslab) as [Hlen _].
    unfold shape_2 in Hlen. rewrite Hs in Hlen. rewrite <- Hlen.
    apply nth_error_Some. congruence. }
  destruct (split_data_row kv k L d1 T H D l t Hs HlL HtT)
    as [slab' [Hl' Ht']].
  rewrite Hl in Hl'. injection Hl' as <-.
  rewrite Ht in Ht'. injection Ht' as ->.
  destruct (Hnz l k t HlL Hk HtT) as (h & d & Hh & Hd & Hx).
  intros Hz. apply Hx.
  eapply amax_abs_zero; [exact Hz |].
  now apply split_data_row_in.
Qed.

(** [encode_function] succeeds once the symbols are in the alphabet, the
    chunk size is at most the number of tokens and the coder does not
    raise. *)
Lemma encode_function_ok_gen indefinite torchac_encode kv cfg chunk
  L d1 T H D fk fv enc :
  shape5 kv = (L, d1, T, H, D) ->
  _split_kv kv = Ok (fk, fv) ->
  quantize indefinite (new_encoder fk fv cfg) = Ok enc ->
  (1 <= L)%nat -> (chunk <= T)%nat ->
  Forall (symbols_between 0 32) (dict_values (quantized_key enc)) ->
  Forall (symbols_between 0 32) (dict_values (quantized_value enc)) ->
  ((0 < chunk)%nat -> forall c s, exists bits, torchac_encode c s = Ok bits) ->
  exists out, encode_function indefinite torchac_encode kv cfg chunk = Ok out.
Proof.
  intros Hs Hsplit Hq HL Hchunk Hsk Hsv Hcoder.
  destruct (heads_of_shape kv L d1 T H D Hs) as (_ & HL0 & HT0 & HC0).
  destruct (split_kv_ok _ _ _ Hsplit) as [Hokfk Hokfv].
  rewrite HL0, HT0, HC0 in Hokfk, Hokfv.
  destruct (quantize_spec _ _ _ _ _ Hq)
    as (Hfk & _ & _ & Fk & Mk & Fv & Mv).
  destruct (quantized_bank_ok indefinite kv cfg fk fv enc true Hsplit Hq)
    as [Hbk Hokk].
  destruct (quantized_bank_ok indefinite kv cfg fk fv enc false Hsplit Hq)
    as [Hbv Hokv].
  rewrite HL0 in Hbk, Hbv. rewrite HT0, HC0 in Hokk, Hokv.
  pose proof Hokfk as Hokfk0.
  destruct Hokfk as (Hshk & Hlenk & Hslk).
  assert (Hlen3k : len3 fk = L) by (unfold len3; now rewrite Hshk).
  assert (Hlen3v : len3 fv = L)
    by (unfold len3; now rewrite (proj1 Hokfv)).
  rewrite Hlen3k in Fk, Mk. rewrite Hlen3v in Fv, Mv.
  unfold encode_function. rewrite Hs, Hsplit. cbn [bind]. rewrite Hq.
  cbn [bind].
  rewrite <- Hfk in Hshk, Hlenk.
  rewrite (compute_cdf_ok enc true L T (H * D) Hshk Hlenk ltac:(lia) Hbk Hokk
             Hsk).
  cbn [bind]. unfold bank in *.
  destruct (dict_values (quantized_key enc)) as [| k0 ks] eqn:Ek;
    [simpl in Hbk; lia |].
  rewrite (stack2_ok T (H * D) k0 ks)
    by (eapply Forall_impl; [| exact Hokk]; intros a Ha; exact (proj1 Ha)).
  cbn [bind].
  rewrite (compute_cdf_ok enc false L T (H * D) Hshk Hlenk ltac:(lia) Hbv Hokv
             Hsv).
  cbn [bind]. unfold bank in *.
  destruct (dict_values (quantized_value enc)) as [| v0 vs] eqn:Ev;
    [simpl in Hbv; lia |].
  rewrite (stack2_ok T (H * D) v0 vs)
    by (eapply Forall_impl; [| exact Hokv]; intros a Ha; exact (proj1 Ha)).
  cbn [bind]. unfold cat3. cbn [shape3 data3]. rewrite !Nat.eqb_refl.
  cbn [andb bind].
  match goal with
  | |- exists out, bind (for_each ?xs ?body ?acc) _ = Ok out =>
      destruct (for_each_seq_total (fun _ _ => True) body
                  (length xs) 0%nat acc I) as [st [Hst _]]
  end.
  - intros l a _ _.
    match goal with
    | |- exists a', for_each ?xs ?body ?acc = Ok a' /\ True =>
        destruct (for_each_seq_total (fun _ _ => True) body
                    chunk 0%nat acc I) as [st [Hst _]]
    end.
    + intros i b Hi _. unfold slice1_row. cbn [shape3].
      destruct (Nat.ltb_spec i T) as [_ | Hge]; [| lia]. cbn [bind].
      match goal with
      | |- context [torchac_encode ?c ?s] =>
          destruct (Hcoder ltac:(lia) c s) as [bits Hbits]; rewrite Hbits
      end.
      cbn [bind]. eauto.
    + exists st. auto.
  - rewrite length_seq in Hst. rewrite Hst. cbn [bind].
    rewrite (concat_max_quantized indefinite _ fk L T (H * D) _ Hokfk0
               ltac:(lia) Mk).
    cbn [bind].
    rewrite (concat_max_quantized indefinite _ fv L T (H * D) _ Hokfv
               ltac:(lia) Mv).
    cbn [bind]. eauto.
Qed.

(** X10.  Sufficient conditions for [encode_function] to succeed: an input
    of shape [[L, 2, T, H, D]] with at least one layer and one channel, no
    all-zero row, bin counts between 2 and 34, a chunk size of at most [T]
    and a coder that does not raise. *)
Theorem encode_function_succeeds indefinite torchac_encode kv cfg chunk
  L T H D :
  shape5 kv = (L, 2, T, H, D)%nat ->
  (1 <= L)%nat -> (1 <= H * D)%nat -> (chunk <= T)%nat ->
  bins_between 2 34 cfg ->
  no_zero_row kv ->
  (forall c s, exists bits, torchac_encode c s = Ok bits) ->
  exists out, encode_function indefinite torchac_encode kv cfg chunk = Ok out.
Proof.
  intros Hs HL HC Hchunk Hcfg Hnz Hcoder.
  pose proof (split_kv_two kv L T H D Hs) as Hsplit.
  set (fk := mkTensor3 (L, T, (H * D)%nat) (split_data kv 0)) in *.
  set (fv := mkTensor3 (L, T, (H * D)%nat) (split_data kv 1)) in *.
  destruct (heads_of_shape kv L 2 T H D Hs) as (_ & HL0 & HT0 & HC0).
  destruct (split_kv_ok _ _ _ Hsplit) as [Hokfk Hokfv].
  rewrite HL0, HT0, HC0 in Hokfk, Hokfv.
  destruct (quantize_ok indefinite fk fv cfg L T (H * D) Hokfk Hokfv
              ltac:(lia)) as [enc Hq].
  destruct (quantize_spec _ _ _ _ _ Hq) as (_ & _ & _ & Fk & _ & Fv & _).
  assert (Hnzk : rows_nonzero fk /\ rows_nonzero fv).
  { split; eapply no_zero_row_split; eauto. }
  destruct Hnzk as [Hnzk Hnzv].
  pose proof (bank_in_alphabet _ _ _ _ _
                (fun l => key_bins_between 2 34 cfg l Hcfg) Hnzk Fk) as Hsk.
  pose proof (bank_in_alphabet _ _ _ _ _
                (fun l => value_bins_between 2 34 cfg l Hcfg) Hnzv Fv) as Hsv.
  exact (encode_function_ok_gen indefinite torchac_encode kv cfg chunk
           L 2 T H D fk fv enc Hs Hsplit Hq HL Hchunk Hsk Hsv
           (fun _ => Hcoder)).
Qed.

Lemma encode_function_succeeds_witness :
  exists out,
    encode_function indefinite_x86 sample_coder sample_kv sample_config 2
    = Ok out.
Proof.
  apply (encode_function_succeeds indefinite_x86 sample_coder sample_kv
           sample_config 2 1 2 1 2 eq_refl); try lia.
  - unfold bins_between; simpl; lia.
  - unfold no_zero_row. simpl. intros l k t Hl Hk Ht.
    exists 0%nat, 0%nat. split; [lia |]. split; [lia |].
    destruct l as [| l]; [| lia].
    destruct k as [| [| k]]; [| | lia];
      (destruct t as [| [| t]]; [| | lia]); vm_compute; discriminate.
  - intros c s. eexists. reflexivity.
Defined.

(* ================================================================== *)
(** ** The scales of the output *)






(* ================================================================== *)
(** ** The CDF a successful encode stores *)


(** The CDF row of a column is a list of finite numbers, the fractions of
    the symbols below each class. *)
Lemma cdf_row_fin T col :
  (0 < T)%nat -> Forall (fun v => 0 <= v) col ->
  exists qs,
    cdf_row T col = map Fin qs /\ length qs = 33%nat /\
    forall a, (a < 33)%nat ->
    exists q, nth_error qs a = Some q /\
      (q == inject_Z (count_below a col) / inject_Z (Z.of_nat T))%Q.
Proof.
  intros HT Hcol.
  pose proof (cdf_row_entry T col HT Hcol) as Hent.
  pose proof (cdf_row_length T col) as Hlen.
  exists (map (fun x => match x with Fin q => q | _ => 0%Q end)
              (cdf_row T col)).
  split; [| split].
  - apply nth_error_ext. intros a. rewrite map_map, nth_error_map.
    destruct (Nat.lt_ge_cases a 33) as [Ha | Ha].
    + destruct (Hent a Ha) as [q [Hq _]]. now rewrite Hq.
    + assert (E : nth_error (cdf_row T col) a = None)
        by (apply nth_error_None; lia).
      now rewrite E.
  - now rewrite length_map.
  - intros a Ha. destruct (Hent a Ha) as [q [Hq Hv]].
    exists q. split; [| exact Hv]. now rewrite nth_error_map, Hq.
Qed.

(** A fraction of the tokens, scaled to the 16-bit range. *)
Lemma count_fraction_range T col a :
  (0 < T)%nat -> length col = T ->
  (0 <= inject_Z (count_below a col) / inject_Z (Z.of_nat T) * inject_Z 65504
   <= inject_Z 65504)%Q.
Proof.
  intros HT Hlen.
  pose proof (count_below_le_length a col) as [Hlo Hhi]. rewrite Hlen in Hhi.
  assert (HTq : (0 < inject_Z (Z.of_nat T))%Q).
  { change 0%Q with (inject_Z 0). rewrite <- Zlt_Qlt. lia. }
  assert (H0 : (0 <= inject_Z (count_below a col) / inject_Z (Z.of_nat T))%Q).
  { apply Qle_shift_div_l; [exact HTq |]. ring_simplify.
    change 0%Q with (inject_Z 0). now rewrite <- Zle_Qle. }
  assert (H1 : (inject_Z (count_below a col) / inject_Z (Z.of_nat T) <= 1)%Q).
  { apply Qle_shift_div_r; [exact HTq |]. ring_simplify.
    now rewrite <- Zle_Qle. }
  change (inject_Z 65504) with 65504%Q. split; lra.
Qed.

(** The entry [a] of a normalized CDF row of a column, read as an unsigned
    16-bit integer. *)
Lemma stored_cdf_row_entry indefinite T col a :
  (0 < T)%nat -> Forall (fun v => 0 <= v) col -> (a < 33)%nat ->
  nth_error (map as_uint16 (normalize_row indefinite 33 (cdf_row T col))) a =
  Some ((round_half_even
           (inject_Z (count_below a col) / inject_Z (Z.of_nat T)
            * inject_Z 65504)
         + Z.of_nat a) mod 2 ^ 16).
Proof.
  intros HT Hcol Ha.
  destruct (cdf_row_fin T col HT Hcol) as (qs & -> & Hlen & Hqs).
  destruct (Hqs a Ha) as [q [Hq Hv]].
  rewrite <- Hlen. rewrite (normalize_row_entry indefinite qs a q Hq).
  rewrite Hlen. f_equal. f_equal. f_equal.
  apply round_half_even_comp.
  change (inject_Z (2 ^ 16) - inject_Z (Z.of_nat 33 - 1))%Q
    with (65536 - 32)%Q.
  rewrite Hv. change (inject_Z 65504) with 65504%Q. ring.
Qed.


(* ================================================================== *)
(** ** Empty inputs *)

Lemma split_kv_empty kv L d1 T H D :
  shape5 kv = (L, d1, T, H, D) -> (L * T * (H * D) = 0)%nat ->
  _split_kv kv =
  Ok (mkTensor3 (L, T, (H * D)%nat) (split_data kv 0),
      mkTensor3 (L, T, (H * D)%nat) (split_data kv 1)).
Proof.
  intros Hs Hz. unfold _split_kv. rewrite Hs.
  replace (L * d1 * T * H * D)%nat with (d1 * (L * T * (H * D)))%nat by lia.
  replace (L * 2 * T * (H * D))%nat with (2 * (L * T * (H * D)))%nat by lia.
  now rewrite Hz, !Nat.mul_0_r.
Qed.

(** The normalized CDF row of a column without tokens: the first entry is
    0 and the others are what the conversion of NaN gives, plus the ramp. *)
Lemma empty_cdf_row indefinite :
  normalize_row indefinite 33 (cdf_row 0 []) =
  0 :: map (fun a => wrap16 (wrap16 indefinite + Z.of_nat a)) (seq 1 32).
Proof.
  assert (E : cdf_row 0 [] = Fin 0 :: repeat NaN 32)
    by (vm_compute; reflexivity).
  rewrite E. unfold normalize_row, add_ramp, arange_int16, wrap16.
  cbv -[wrap Z.add].
  repeat match goal with
  | |- context [wrap 16 (Zpos ?p)] =>
      change (wrap 16 (Zpos p)) with (Zpos p)
  end.
  change (wrap 16 0) with 0. change (wrap 16 (0 + 0)) with 0.
  reflexivity.
Qed.

(** X13.  Empty inputs.  Without a layer [encode_function] raises
    [IndexError] (the CDF estimation reads the first layer), and so it does
    without a channel (the row maximum of an empty row) and, with tokens
    missing, for a chunk size above 0.  Without a token and with the chunk
    size 0 it succeeds without calling the coder: the bytestream and the
    start indices are empty, and every row of the stored CDF holds 0 followed
    by the conversion of NaN plus the ramp. *)
Theorem encode_function_empty_input indefinite torchac_encode kv cfg chunk
  L d1 T H D :
  shape5 kv = (L, d1, T, H, D) ->
  (L = 0%nat ->
   encode_function indefinite torchac_encode kv cfg chunk
   = Raise IndexError) /\
  ((1 <= L)%nat -> (H * D = 0)%nat ->
   encode_function indefinite torchac_encode kv cfg chunk
   = Raise IndexError) /\
  ((1 <= L)%nat -> (1 <= H * D)%nat -> T = 0%nat -> (1 <= chunk)%nat ->
   encode_function indefinite torchac_encode kv cfg chunk
   = Raise IndexError) /\
  ((1 <= L)%nat -> (1 <= H * D)%nat -> T = 0%nat -> chunk = 0%nat ->
   exists out,
     encode_function indefinite torchac_encode kv cfg chunk = Ok out /\
     bytestream out = [] /\ start_indices out = [] /\
     shape3 (cdf out) = ((L + L)%nat, (H * D)%nat, 33%nat) /\
     forall l c slab row,
       nth_error (data3 (cdf out)) l = Some slab ->
       nth_error slab c = Some row ->
       row = 0 :: map (fun a => wrap16 (wrap16 indefinite + Z.of_nat a))
                      (seq 1 32)).
Proof.
  intros Hs.
  destruct (heads_of_shape kv L d1 T H D Hs) as (_ & HL0 & HT0 & HC0).
  split; [| split; [| split]].
  - intros ->. unfold encode_function. rewrite Hs.
    rewrite (split_kv_empty kv 0 d1 T H D Hs eq_refl).
    assert (E : split_data kv 0 = [])
      by (unfold split_data; now rewrite Hs).
    cbn [bind]. unfold quantize. cbn [fp_k fp_v new_encoder len3 shape3 seq
      for_each bind].
    unfold compute_cdf, index3. cbn [fp_k shape3 data3]. rewrite E.
    reflexivity.
  - intros HL HC. unfold encode_function. rewrite Hs.
    rewrite (split_kv_empty kv L d1 T H D Hs)
      by (rewrite HC; lia).
    cbn [bind]. unfold quantize. cbn [fp_k new_encoder len3 shape3].
    destruct L as [| L']; [lia |]. rewrite <- cons_seq.
    cbn [for_each fp_k new_encoder config].
    assert (Hlen : (0 < length (split_data kv 0))%nat).
    { rewrite (proj1 (split_data_ok kv 0)), HL0. lia. }
    destruct (index3_ok (mkTensor3 (S L', T, (H * D)%nat) (split_data kv 0))
                (S L') T (H * D) 0 eq_refl Hlen) as [d [_ Hidx]].
    rewrite Hidx. cbn [bind]. unfold torch_quant. cbn [shape2].
    rewrite HC. reflexivity.
  - intros HL HC -> Hchunk.
    pose proof (split_kv_empty kv L d1 0 H D Hs ltac:(lia)) as Hsplit.
    destruct (split_kv_ok _ _ _ Hsplit) as [Hokfk Hokfv].
    rewrite HL0, HT0, HC0 in Hokfk, Hokfv.
    destruct (quantize_ok indefinite _ _ cfg L 0 (H * D) Hokfk Hokfv
                ltac:(lia)) as [enc Hq].
    destruct L as [| L']; [lia |].
    unfold encode_function. rewrite Hs, Hsplit.
    cbn [bind]. rewrite Hq. cbn [bind].
    destruct (quantize_spec _ _ _ _ _ Hq)
      as (Hfk & _ & _ & Fk & Mk & Fv & Mv).
    destruct (quantized_bank_ok indefinite kv cfg _ _ enc true Hsplit Hq)
      as [Hbk Hokk].
    destruct (quantized_bank_ok indefinite kv cfg _ _ enc false Hsplit Hq)
      as [Hbv Hokv].
    rewrite HL0 in Hbk, Hbv. rewrite HT0, HC0 in Hokk, Hokv.
    assert (Hempty : forall ts, Forall (tensor2_ok 0 (H * D)) ts ->
              Forall (symbols_between 0 32) ts).
    { intros ts Hts. eapply Forall_impl; [| exact Hts].
      intros x (_ & Hlen & _). unfold symbols_between.
      destruct (data2 x); [constructor | discriminate]. }
    pose proof (Hempty _ Hokk) as Hsk. pose proof (Hempty _ Hokv) as Hsv.
    destruct Hokfk as (Hshk & Hlenk & Hslk).
    rewrite <- Hfk in Hshk, Hlenk.
    rewrite (compute_cdf_ok enc true (S L') 0 (H * D) Hshk Hlenk ltac:(lia)
               Hbk Hokk Hsk).
    cbn [bind]. unfold bank in *.
    destruct (dict_values (quantized_key enc)) as [| k0 ks] eqn:Ek;
      [simpl in Hbk; lia |].
    rewrite (stack2_ok 0 (H * D) k0 ks)
      by (eapply Forall_impl; [| exact Hokk]; intros a Ha; exact (proj1 Ha)).
    cbn [bind].
    rewrite (compute_cdf_ok enc false (S L') 0 (H * D) Hshk Hlenk ltac:(lia)
               Hbv Hokv Hsv).
    cbn [bind]. unfold bank in *.
    destruct (dict_values (quantized_value enc)) as [| v0 vs] eqn:Ev;
      [simpl in Hbv; lia |].
    rewrite (stack2_ok 0 (H * D) v0 vs)
      by (eapply Forall_impl; [| exact Hokv]; intros a Ha; exact (proj1 Ha)).
    cbn [bind]. unfold cat3. cbn [shape3 data3]. rewrite !Nat.eqb_refl.
    cbn [andb bind]. cbn [len3 shape3 Nat.add].
    rewrite <- cons_seq. cbn [for_each].
    destruct chunk as [| chunk']; [lia |]. rewrite <- cons_seq.
    cbn [for_each]. unfold slice1_row at 1. cbn [shape3 Nat.ltb Nat.leb bind].
    reflexivity.
  - intros HL HC -> ->.
    pose proof (split_kv_empty kv L d1 0 H D Hs ltac:(lia)) as Hsplit.
    destruct (split_kv_ok _ _ _ Hsplit) as [Hokfk Hokfv].
    rewrite HL0, HT0, HC0 in Hokfk, Hokfv.
    destruct (quantize_ok indefinite _ _ cfg L 0 (H * D) Hokfk Hokfv
                ltac:(lia)) as [enc Hq].
    destruct (quantized_bank_ok indefinite kv cfg _ _ enc true Hsplit Hq)
      as [Hbk Hokk].
    destruct (quantized_bank_ok indefinite kv cfg _ _ enc false Hsplit Hq)
      as [Hbv Hokv].
    rewrite HL0 in Hbk, Hbv. rewrite HT0, HC0 in Hokk, Hokv.
    assert (Hempty : forall ts, Forall (tensor2_ok 0 (H * D)) ts ->
              Forall (symbols_between 0 32) ts).
    { intros ts Hts. eapply Forall_impl; [| exact Hts].
      intros x (_ & Hlen & _). unfold symbols_between.
      destruct (data2 x); [constructor | discriminate]. }
    pose proof (Hempty _ Hokk) as Hsk. pose proof (Hempty _ Hokv) as Hsv.
    unfold bank in *.
    destruct (encode_function_ok_gen indefinite torchac_encode kv cfg 0
                L d1 0 H D _ _ enc Hs Hsplit Hq HL ltac:(lia) Hsk Hsv
                ltac:(lia)) as [out Hrun].
    exists out. split; [exact Hrun |].
    destruct (encode_function_run _ _ _ _ _ _ Hrun)
      as (fk & fv & enc' & cdf_k & cdf_v & ek & ev & cdf_f & ei & st & mk
          & mv & Hsplit' & Hq' & Hck & Hek & Hcv & Hev & Hcat & Hcat2
          & Hloop & _ & _ & Hout).
    rewrite Hsplit in Hsplit'. injection Hsplit' as <- <-.
    rewrite Hq in Hq'. injection Hq' as <-.
    destruct (coding_loop_offsets _ _ _ _ Hloop) as (_ & Hidx & Hcount).
    rewrite Nat.mul_0_r in Hcount.
    destruct (bytestreams st) eqn:Eb; [| discriminate].
    destruct Hokfk as (Hshk & Hlenk & Hslk).
    destruct (quantize_spec _ _ _ _ _ Hq) as (Hfk & _).
    rewrite <- Hfk in Hshk, Hlenk.
    rewrite (compute_cdf_ok enc true L 0 (H * D) Hshk Hlenk ltac:(lia) Hbk
               Hokk Hsk) in Hck.
    rewrite (compute_cdf_ok enc false L 0 (H * D) Hshk Hlenk ltac:(lia) Hbv
               Hokv Hsv) in Hcv.
    injection Hck as <-. injection Hcv as <-.
    unfold cat3 in Hcat. cbn [shape3 data3] in Hcat.
    rewrite !Nat.eqb_refl in Hcat. cbn [andb] in Hcat. injection Hcat as <-.
    rewrite Hout. cbn [bytestream start_indices cdf].
    rewrite Hidx. split; [reflexivity |]. split; [reflexivity |].
    rewrite renorm_cast_is_convert. split; [reflexivity |].
    intros l c slab row Hslab Hrow.
    rewrite convert_rows in Hslab. cbn [shape3 data3 snd] in Hslab.
    unfold bank in Hslab.
    rewrite <- map_app, !nth_error_map in Hslab.
    destruct (nth_error (dict_values (quantized_key enc)
                         ++ dict_values (quantized_value enc)) l)
      as [x |] eqn:Ex; [| discriminate].
    cbn [option_map] in Hslab. injection Hslab as <-.
    rewrite !nth_error_map in Hrow.
    destruct (nth_error (seq 0 (H * D)) c) as [c' |]; [| discriminate].
    cbn [option_map] in Hrow. injection Hrow as <-.
    assert (Hcol : column x c' = []).
    { pose proof (nth_error_In _ _ Ex) as Hin. apply in_app_or in Hin.
      rewrite Forall_forall in Hokk, Hokv.
      assert (Hx : tensor2_ok 0 (H * D) x)
        by (destruct Hin as [Hin | Hin]; [now apply Hokk | now apply Hokv]).
      destruct Hx as (_ & Hlen & _). unfold column.
      destruct (data2 x); [reflexivity | discriminate]. }
    rewrite Hcol. apply empty_cdf_row.
Qed.

Lemma encode_function_empty_input_witness :
  encode_function indefinite_x86 sample_coder no_layer_kv sample_config 0
    = Raise IndexError /\
  exists out,
    encode_function indefinite_x86 sample_coder no_token_kv sample_config 0
      = Ok out /\
    bytestream out = [] /\ start_indices out = [].
Proof.
  split.
  - exact (proj1 (encode_function_empty_input indefinite_x86 sample_coder
                    no_layer_kv sample_config 0 0 2 1 1 1 eq_refl) eq_refl).
  - destruct (proj2 (proj2 (proj2
                (encode_function_empty_input indefinite_x86 sample_coder
                   no_token_kv sample_config 0 1 2 0 1 1 eq_refl)))
                ltac:(lia) ltac:(simpl; lia) eq_refl eq_refl)
      as (out & Hrun & Hb & Hi & _).
    exists out. auto.
Defined.
(* ================================================================== *)
(** ** The layout with the heads before the tokens *)

Lemma permute_01324_shape t d0 d1 d2 d3 d4 :
  shape5 t = (d0, d1, d2, d3, d4) ->
  shape5 (permute_01324 t) = (d0, d1, d3, d2, d4) /\
  forall i0 i1 i2 i3 i4,
    at5 (permute_01324 t) i0 i1 i2 i3 i4 = at5 t i0 i1 i3 i2 i4.
Proof. intros Hs. unfold permute_01324. rewrite Hs. split; reflexivity. Qed.

(** X14.  The format ["huggingface"]: a tensor of shape [[L, 2, H, T, D]]
    is encoded with the chunk size [T], its axis 3, after the heads and the
    tokens have been swapped; the entry [(l, k, h, t, d)] of the input is the
    channel [h * D + d] of the token [t] of the layer [l] of the keys
    ([k = 0]) or of the values ([k = 1]).  Swapping twice gives the input
    back. *)
Theorem to_bytes_huggingface indefinite torchac_encode output_to_bytes
  (self : CacheGenSerializer) (tensor : Tensor5) L H T D :
  fmt self = "huggingface"%string ->
  shape5 tensor = (L, 2, H, T, D)%nat ->
  to_bytes indefinite torchac_encode output_to_bytes self tensor =
    (output_dict <- encode_function indefinite torchac_encode
                      (permute_01324 tensor) (cachegen_config self) T ;;
     Ok (output_to_bytes output_dict)) /\
  (exists fk fv,
     _split_kv (permute_01324 tensor) = Ok (fk, fv) /\
     shape3 fk = (L, T, H * D)%nat /\ shape3 fv = (L, T, H * D)%nat /\
     forall l t h d,
       (l < L)%nat -> (t < T)%nat -> (h < H)%nat -> (d < D)%nat ->
       entry3 (data3 fk) l t (h * D + d) = Some (at5 tensor l 0 h t d) /\
       entry3 (data3 fv) l t (h * D + d) = Some (at5 tensor l 1 h t d)) /\
  permute_01324 (permute_01324 tensor) = tensor.
Proof.
  intros Hfmt Hs.
  destruct (permute_01324_shape tensor L 2 H T D Hs) as [Hps Hat].
  split; [| split].
  - unfold to_bytes. rewrite Hfmt. cbn [String.eqb Ascii.eqb Bool.eqb].
    rewrite Hps. reflexivity.
  - rewrite (split_kv_two _ L T H D Hps).
    eexists. eexists. split; [reflexivity |]. cbn [shape3 data3].
    split; [reflexivity |]. split; [reflexivity |].
    intros l t h d Hl Ht Hh Hd.
    rewrite !(split_data_entry _ _ L 2 T H D l t h d Hps Hl Ht Hh Hd).
    now rewrite !Hat.
  - destruct tensor as [[[[[d0 d1] d2] d3] d4] f]. reflexivity.
Qed.

Lemma to_bytes_huggingface_witness :
  to_bytes indefinite_x86 sample_coder sample_output_to_bytes
    (mkSerializer sample_config 256 "huggingface") hf_kv =
  (output_dict <- encode_function indefinite_x86 sample_coder
                    (permute_01324 hf_kv) sample_config 2 ;;
   Ok (sample_output_to_bytes output_dict)).
Proof.
  exact (proj1 (to_bytes_huggingface indefinite_x86 sample_coder
                  sample_output_to_bytes
                  (mkSerializer sample_config 256 "huggingface") hf_kv
                  1 1 2 2 eq_refl eq_refl)).
Defined.
(* ================================================================== *)
(** ** The encoder on the gpu *)

Lemma convert_4d_shape indefinite (t : Tensor4 fval) :
  shape4 (_convert_to_int_and_normalize_4d indefinite t true) = shape4 t.
Proof. reflexivity. Qed.

Lemma unsqueeze_repeat_shape {A} n (t : Tensor3 A) d0 d1 d2 :
  shape3 t = (d0, d1, d2) ->
  shape4 (unsqueeze_repeat n t) = (d0, n, d1, d2).
Proof. intros Hs. unfold unsqueeze_repeat. now rewrite Hs. Qed.

(** The reshape of the repeated CDF to rows of [Lp] entries is never
    refused when the last axis has an entry. *)
Lemma reshape_rows_ok indefinite chunk (cdf_f : Tensor3 fval) d0 d1 d2 :
  shape3 cdf_f = (d0, d1, d2) -> d2 <> 0%nat ->
  exists rows,
    reshape_rows
      (_convert_to_int_and_normalize_4d indefinite
         (unsqueeze_repeat chunk cdf_f) true)
      (snd (shape4 (_convert_to_int_and_normalize_4d indefinite
                      (unsqueeze_repeat chunk cdf_f) true))) = Ok rows.
Proof.
  intros Hs Hd. unfold reshape_rows.
  rewrite convert_4d_shape, (unsqueeze_repeat_shape chunk cdf_f d0 d1 d2 Hs).
  cbn [snd]. destruct (Nat.eqb_spec d2 0) as [E | _]; [contradiction |].
  rewrite Nat.Div0.mod_mul. cbn [Nat.eqb]. eauto.
Qed.

(** What a successful run of [encode_function_gpu] went through. *)
Lemma encode_function_gpu_run indefinite encode_fast kv cfg chunk out :
  encode_function_gpu indefinite encode_fast kv cfg chunk = Ok out ->
  exists fk fv enc cdf_k cdf_v ek ev cdf_f ei rows blobs mk mv,
    _split_kv kv = Ok (fk, fv) /\
    quantize indefinite (new_encoder fk fv cfg) = Ok enc /\
    compute_cdf enc true = Ok cdf_k /\
    stack2 (dict_values (quantized_key enc)) = Ok ek /\
    compute_cdf enc false = Ok cdf_v /\
    stack2 (dict_values (quantized_value enc)) = Ok ev /\
    cat3 cdf_k cdf_v = Ok cdf_f /\
    cat3 ek ev = Ok ei /\
    reshape_rows
      (_convert_to_int_and_normalize_4d indefinite
         (unsqueeze_repeat chunk cdf_f) true)
      (snd (shape4 (_convert_to_int_and_normalize_4d indefinite
                      (unsqueeze_repeat chunk cdf_f) true))) = Ok rows /\
    encode_fast rows (flatten3 (tmap3 wrap16 ei)) 10000 64 chunk = Ok blobs /\
    blobs <> [] /\
    concat_max (max_tensors_key enc) = Ok mk /\
    concat_max (max_tensors_value enc) = Ok mv /\
    out = mkOutput (concat blobs)
            (to_int32_tensor (cumulative_offsets 0 blobs))
            (_renorm_cast_cdf_ indefinite cdf_f 16) mk mv
            (fst (heads_of kv)) (snd (heads_of kv)).
Proof.
  unfold encode_function_gpu, heads_of.
  destruct (shape5 kv) as [[[[? ?] ?] nh] hs].
  intros H. inv_bind H. destruct a as [fk fv].
  inv_bind H. rename a into enc. inv_bind H. rename a into cdf_k.
  inv_bind H. rename a into ek. inv_bind H. rename a into cdf_v.
  inv_bind H. rename a into ev. inv_bind H. rename a into cdf_f.
  inv_bind H. rename a into ei. inv_bind H. rename a into rows.
  inv_bind H. rename a into blobs. inv_bind H.
  inv_bind H. rename a0 into mk. inv_bind H. rename a0 into mv.
  injection H as <-.
  exists fk, fv, enc, cdf_k, cdf_v, ek, ev, cdf_f, ei, rows, blobs, mk, mv.
  rewrite fold_record_blob_gpu in *. cbn [bytestreams indices driver_init
    current_index app] in *.
  repeat (split; [assumption |]).
  split; [| auto].
  intros ->. discriminate.
Qed.

(** X15.  The bookkeeping of [encode_function_gpu]: the bytestream of a
    successful run is the concatenation of the blobs the batched coder
    returned, of which there is at least one, and the start indices are
    their cumulative byte offsets, converted to int32.  When the batched
    coder returns no blob the function raises [IndexError] (it reads the
    first blob), on every input the serial encoder accepts. *)
Theorem encode_function_gpu_blobs indefinite encode_fast kv cfg chunk :
  (forall out,
     encode_function_gpu indefinite encode_fast kv cfg chunk = Ok out ->
     exists rows syms blobs,
       encode_fast rows syms 10000 64 chunk = Ok blobs /\ blobs <> [] /\
       bytestream out = concat blobs /\
       start_indices out = to_int32_tensor (cumulative_offsets 0 blobs)) /\
  (forall torchac_encode chunk' o,
     encode_function indefinite torchac_encode kv cfg chunk' = Ok o ->
     (forall rows syms, encode_fast rows syms 10000 64 chunk = Ok []) ->
     encode_function_gpu indefinite encode_fast kv cfg chunk
     = Raise IndexError).
Proof.
  split.
  - intros out Hrun.
    destruct (encode_function_gpu_run _ _ _ _ _ _ Hrun)
      as (fk & fv & enc & cdf_k & cdf_v & ek & ev & cdf_f & ei & rows & blobs
          & mk & mv & _ & _ & _ & _ & _ & _ & _ & _ & _ & Hfast & Hne & _ & _
          & ->).
    exists rows, (flatten3 (tmap3 wrap16 ei)), blobs. auto.
  - intros torchac_encode chunk' o Hrun Hsilent.
    destruct (encode_function_run _ _ _ _ _ _ Hrun)
      as (fk & fv & enc & cdf_k & cdf_v & ek & ev & cdf_f & ei & st & mk & mv
          & Hsplit & Hq & Hck & Hek & Hcv & Hev & Hcat & Hcat2 & _).
    destruct (compute_cdf_shape _ _ _ Hck) as [ch Hshck].
    destruct (cat3_shape _ _ _ Hcat) as (_ & _ & Hlast & _).
    rewrite Hshck in Hlast. cbn [snd] in Hlast.
    destruct (shape3 cdf_f) as [[d0 d1] d2] eqn:Hshf. cbn [snd] in Hlast.
    destruct (reshape_rows_ok indefinite chunk cdf_f d0 d1 d2 Hshf
                ltac:(lia)) as [rows Hrows].
    unfold encode_function_gpu.
    destruct (shape5 kv) as [[[[? ?] ?] nh] hs].
    rewrite Hsplit. cbn [bind]. rewrite Hq. cbn [bind].
    rewrite Hck. cbn [bind]. rewrite Hek. cbn [bind].
    rewrite Hcv. cbn [bind]. rewrite Hev. cbn [bind].
    rewrite Hcat. cbn [bind]. rewrite Hcat2. cbn [bind].
    rewrite Hrows. cbn [bind]. rewrite Hsilent. reflexivity.
Qed.

Lemma encode_function_gpu_blobs_witness :
  encode_function_gpu indefinite_x86 silent_encode_fast sample_kv
    sample_config 2 = Raise IndexError.
Proof.
  assert (H : exists o,
            encode_function indefinite_x86 sample_coder sample_kv
              sample_config 2 = Ok o)
    by (eexists; vm_compute; reflexivity).
  destruct H as [o H].
  exact (proj2 (encode_function_gpu_blobs indefinite_x86 silent_encode_fast
                  sample_kv sample_config 2)
           sample_coder 2%nat o H (fun _ _ => eq_refl)).
Defined.

(** X16.  The two encoders agree on what they store beside the bytes: when
    [encode_function_gpu] and [encode_function] both succeed on an input and
    a configuration, whatever the coders and the chunk sizes, their outputs
    hold the same integer CDF, the same scales of the keys and of the
    values, and the same numbers of heads and head sizes. *)
Theorem encode_function_gpu_agrees indefinite encode_fast torchac_encode
  kv cfg chunk chunk' o1 o2 :
  encode_function_gpu indefinite encode_fast kv cfg chunk = Ok o1 ->
  encode_function indefinite torchac_encode kv cfg chunk' = Ok o2 ->
  cdf o1 = cdf o2 /\
  out_max_tensors_key o1 = out_max_tensors_key o2 /\
  out_max_tensors_value o1 = out_max_tensors_value o2 /\
  num_heads o1 = num_heads o2 /\ head_size o1 = head_size o2.
Proof.
  intros H1 H2.
  destruct (encode_function_gpu_run _ _ _ _ _ _ H1)
    as (fk & fv & enc & cdf_k & cdf_v & ek & ev & cdf_f & ei & rows & blobs
        & mk & mv & Hsplit & Hq & Hck & Hek & Hcv & Hev & Hcat & Hcat2 & _ & _
        & _ & Hmk & Hmv & ->).
  destruct (encode_function_run _ _ _ _ _ _ H2)
    as (fk' & fv' & enc' & cdf_k' & cdf_v' & ek' & ev' & cdf_f' & ei' & st
        & mk' & mv' & Hsplit' & Hq' & Hck' & Hek' & Hcv' & Hev' & Hcat'
        & Hcat2' & _ & Hmk' & Hmv' & ->).
  rewrite Hsplit in Hsplit'. injection Hsplit' as <- <-.
  rewrite Hq in Hq'. injection Hq' as <-.
  rewrite Hck in Hck'. injection Hck' as <-.
  rewrite Hcv in Hcv'. injection Hcv' as <-.
  rewrite Hcat in Hcat'. injection Hcat' as <-.
  rewrite Hmk in Hmk'. injection Hmk' as <-.
  rewrite Hmv in Hmv'. injection Hmv' as <-.
  cbn. auto.
Qed.

Lemma encode_function_gpu_agrees_witness :
  exists o1 o2,
    encode_function_gpu indefinite_x86 sample_encode_fast sample_kv
      sample_config 2 = Ok o1 /\
    encode_function indefinite_x86 sample_coder sample_kv sample_config 1
      = Ok o2 /\
    cdf o1 = cdf o2.
Proof.
  assert (H1 : exists o,
            encode_function_gpu indefinite_x86 sample_encode_fast sample_kv
              sample_config 2 = Ok o)
    by (eexists; vm_compute; reflexivity).
  assert (H2 : exists o,
            encode_function indefinite_x86 sample_coder sample_kv
              sample_config 1 = Ok o)
    by (eexists; vm_compute; reflexivity).
  destruct H1 as [o1 H1]. destruct H2 as [o2 H2].
  exists o1, o2. split; [exact H1 |]. split; [exact H2 |].
  exact (proj1 (encode_function_gpu_agrees indefinite_x86 sample_encode_fast
                  sample_coder sample_kv sample_config 2 1 o1 o2 H1 H2)).
Defined.
(* ================================================================== *)
(** ** What the batched coder is handed *)

Lemma Ok_inj {A} (a b : A) : Ok a = Ok b -> a = b.
Proof. intros H. now injection H. Qed.

Lemma Some_inj {A} (a b : A) : Some a = Some b -> a = b.
Proof. intros H. now injection H. Qed.

Lemma length_concat_uniform {A} K (ls : list (list A)) :
  Forall (fun l => length l = K) ls ->
  length (concat ls) = (length ls * K)%nat.
Proof.
  induction 1 as [| l ls Hl _ IH]; simpl; [reflexivity |].
  now rewrite length_app, Hl, IH.
Qed.

Lemma Forall_concat {A} (P : A -> Prop) (ls : list (list A)) :
  Forall (Forall P) ls -> Forall P (concat ls).
Proof.
  induction 1 as [| l ls Hl _ IH]; simpl; [constructor |].
  apply Forall_app. split; assumption.
Qed.

(** Regrouping the concatenation of rows of [K] entries in rows of [K]
    gives the rows back. *)
Lemma regroup_rows {A} K (rows : list (list A)) :
  Forall (fun r => length r = K) rows ->
  map (fun k => firstn K (skipn (k * K) (concat rows)))
      (seq 0 (length rows)) = rows.
Proof.
  intros HF.
  rewrite (map_nth_error_seq _ (fun r => r) rows); [apply map_id |].
  intros k r Hr. now apply firstn_skipn_concat.
Qed.

Lemma normalize_row_length indefinite Lp row :
  length row = Lp -> length (normalize_row indefinite Lp row) = Lp.
Proof.
  intros H. unfold normalize_row, add_ramp, arange_int16.
  rewrite length_map, length_combine, !length_map, length_seq. lia.
Qed.

(** The symbols of a bank on which [compute_cdf] succeeds are all in the
    alphabet. *)
Lemma compute_cdf_alphabet self is_key T C cdf :
  compute_cdf self is_key = Ok cdf ->
  Forall (tensor2_ok T C) (bank self is_key) ->
  Forall (symbols_between 0 32) (bank self is_key).
Proof.
  intros Hcdf Hok.
  pose proof (compute_cdf_first_layer _ _ _ Hcdf) as H0.
  assert (Hall := entries_forall (fun s => 0 <= s <= 32)
                    (map (@data2 Z) (bank self is_key))).
  rewrite Forall_map in Hall. apply Hall.
  intros l t c s He.
  destruct (Z_le_dec 0 s) as [Hlo | Hlo];
    [destruct (Z_le_dec s 32) as [Hhi | Hhi]; [lia |] |].
  - rewrite (compute_cdf_bad self is_key T C H0 Hok) in Hcdf;
      [discriminate |].
    exists l, t, c, s. split; [exact He | lia].
  - rewrite (compute_cdf_bad self is_key T C H0 Hok) in Hcdf;
      [discriminate |].
    exists l, t, c, s. split; [exact He | lia].
Qed.

(** The 4-dimensional normalization of the repeated CDF is the repetition
    of the 3-dimensional normalization. *)
Lemma convert_4d_repeat indefinite n (t : Tensor3 fval) :
  data4 (_convert_to_int_and_normalize_4d indefinite (unsqueeze_repeat n t)
           true) =
  map (fun slab => repeat slab n)
      (data3 (_convert_to_int_and_normalize indefinite t true)).
Proof.
  unfold _convert_to_int_and_normalize_4d, _convert_to_int_and_normalize,
    unsqueeze_repeat, tmap4, tmap3, map3d, map2d.
  destruct (shape3 t) as [[d0 d1] d2]. cbn [shape4 data4 shape3 data3 snd].
  rewrite !map_map. apply map_ext. intros slab.
  now rewrite !map_repeat.
Qed.

(** The rows the reshape of the repeated and normalized CDF gives. *)
Lemma reshape_rows_repeat indefinite chunk (t : Tensor3 fval) d0 d1 d2 :
  shape3 t = (d0, d1, d2) -> d2 <> 0%nat ->
  reshape_rows
    (_convert_to_int_and_normalize_4d indefinite (unsqueeze_repeat chunk t)
       true)
    (snd (shape4 (_convert_to_int_and_normalize_4d indefinite
                    (unsqueeze_repeat chunk t) true))) =
  Ok (map (fun k =>
             firstn d2
               (skipn (k * d2)
                  (concat (concat (concat
                     (map (fun slab => repeat slab chunk)
                        (data3 (_convert_to_int_and_normalize indefinite t
                                  true))))))))
          (seq 0 (d0 * chunk * d1))).
Proof.
  intros Hs Hd. unfold reshape_rows.
  rewrite convert_4d_shape, (unsqueeze_repeat_shape chunk t d0 d1 d2 Hs).
  cbn [snd]. destruct (Nat.eqb_spec d2 0) as [E | _]; [contradiction |].
  rewrite Nat.Div0.mod_mul. cbn [Nat.eqb].
  rewrite Nat.div_mul by exact Hd.
  now rewrite convert_4d_repeat.
Qed.

(** The rows of the normalized CDF of a run, slab by slab. *)
Lemma normalized_cdf_ok indefinite (banks : list (Tensor2 Z)) n T C :
  Forall (fun slab => length slab = C /\
                      Forall (fun row => length row = 33%nat) slab)
    (data3 (_convert_to_int_and_normalize indefinite
              (mkTensor3 (n, C, 33%nat)
                 (map (fun x => map (fun c => cdf_row T (column x c))
                                    (seq 0 C)) banks)) true)).
Proof.
  rewrite convert_rows. cbn [shape3 data3 snd].
  rewrite map_map. apply Forall_map. apply Forall_forall. intros x _.
  split; [now rewrite !length_map, length_seq |].
  rewrite map_map. apply Forall_map. apply Forall_forall. intros c _.
  apply normalize_row_length. apply cdf_row_length.
Qed.

Lemma nth_error_repeat_slabs {A} n (slabs : list (list (list A))) l i slab :
  nth_error slabs l = Some slab -> (i < n)%nat ->
  nth_error (concat (map (fun s => repeat s n) slabs)) (l * n + i)
  = Some slab.
Proof.
  intros Hl Hi.
  rewrite (nth_error_concat_uniform n _
             ltac:(apply Forall_map; apply Forall_forall; intros s _;
                   apply repeat_length)
             l (repeat slab n) i);
    [| now rewrite nth_error_map, Hl | exact Hi].
  now apply nth_error_repeat.
Qed.

(** X17.  What [encode_function_gpu] hands to the batched coder: one CDF
    row per slab, chunk position and channel, the row [(l * chunk + i) * C
    + c] being the stored integer CDF of the channel [c] of the slab [l],
    and one symbol per slab, token and channel, the symbol
    [(l * T + t) * C + c] being the symbol of the token [t] and the channel
    [c] of the slab [l] as int16 (the key layers first, then the value
    layers).  With [chunk = T] the row and the symbol of the same index
    belong to the same slab and channel. *)
Theorem encode_function_gpu_inputs indefinite encode_fast kv cfg chunk out
  L d1 T H D :
  shape5 kv = (L, d1, T, H, D) ->
  encode_function_gpu indefinite encode_fast kv cfg chunk = Ok out ->
  exists fk fv enc rows syms blobs,
    _split_kv kv = Ok (fk, fv) /\
    quantize indefinite (new_encoder fk fv cfg) = Ok enc /\
    encode_fast rows syms 10000 64 chunk = Ok blobs /\
    bytestream out = concat blobs /\
    length rows = ((L + L) * chunk * (H * D))%nat /\
    length syms = ((L + L) * T * (H * D))%nat /\
    (forall l i c, (l < L + L)%nat -> (i < chunk)%nat -> (c < H * D)%nat ->
       exists slab row,
         nth_error (data3 (cdf out)) l = Some slab /\
         nth_error slab c = Some row /\
         nth_error rows ((l * chunk + i) * (H * D) + c) = Some row) /\
    (forall l t c s,
       entry3 (symbols (quantized_key enc) ++ symbols (quantized_value enc))
              l t c = Some s ->
       nth_error syms ((l * T + t) * (H * D) + c) = Some (wrap16 s)).
Proof.
  intros Hs Hrun.
  destruct (encode_function_gpu_run _ _ _ _ _ _ Hrun)
    as (fk & fv & enc & cdf_k & cdf_v & ek & ev & cdf_f & ei & rows & blobs
        & mk & mv & Hsplit & Hq & Hck & Hek & Hcv & Hev & Hcat & Hcat2
        & Hrows & Hfast & _ & _ & _ & Hout).
  destruct (encode_function_shapes _ _ _ _ _ _ _ _ _ _ _ _ _ _ _ _ _ Hs Hsplit
              Hq Hck Hek Hcv Hev Hcat Hcat2)
    as (HLpos & Hlen & Hshei & Hdei & Hlk & Hlv).
  destruct (heads_of_shape kv L d1 T H D Hs) as (_ & HL0 & HT0 & HC0).
  destruct (split_kv_ok _ _ _ Hsplit) as [(Hshk & Hlenk & _) _].
  destruct (quantize_spec _ _ _ _ _ Hq) as (Hfk & _).
  destruct (quantized_bank_ok indefinite kv cfg fk fv enc true Hsplit Hq)
    as [Hbk Hokk].
  destruct (quantized_bank_ok indefinite kv cfg fk fv enc false Hsplit Hq)
    as [Hbv Hokv].
  rewrite HL0, HT0, HC0 in *.
  pose proof (compute_cdf_alphabet _ _ _ _ _ Hck Hokk) as Hsk.
  pose proof (compute_cdf_alphabet _ _ _ _ _ Hcv Hokv) as Hsv.
  rewrite <- Hfk in Hshk, Hlenk.
  rewrite (compute_cdf_ok enc true L T (H * D) Hshk Hlenk HLpos Hbk Hokk Hsk)
    in Hck.
  rewrite (compute_cdf_ok enc false L T (H * D) Hshk Hlenk HLpos Hbv Hokv Hsv)
    in Hcv.
  injection Hck as <-. injection Hcv as <-.
  unfold cat3 in Hcat. cbn [shape3 data3] in Hcat.
  rewrite !Nat.eqb_refl in Hcat. cbn [andb] in Hcat. injection Hcat as <-.
  unfold bank in *. rewrite <- map_app in Hrows, Hout.
  set (banks := dict_values (quantized_key enc)
                ++ dict_values (quantized_value enc)) in *.
  set (cdf_f := mkTensor3 ((L + L)%nat, (H * D)%nat, 33%nat)
                  (map (fun x => map (fun c => cdf_row T (column x c))
                                     (seq 0 (H * D))) banks)) in *.
  pose proof (normalized_cdf_ok indefinite banks (L + L) T (H * D)) as Hwf.
  fold cdf_f in Hwf.
  set (N := _convert_to_int_and_normalize indefinite cdf_f true) in *.
  assert (HlenN : length (data3 N) = (L + L)%nat).
  { unfold N. rewrite convert_rows. unfold cdf_f. cbn [data3].
    unfold banks. now rewrite !length_map, length_app, Hbk, Hbv. }
  (* the slabs of the repeated tensor and its rows *)
  set (R4 := map (fun slab => repeat slab chunk) (data3 N)).
  assert (HR4 : Forall (fun g => length g = chunk) R4).
  { unfold R4. apply Forall_map. apply Forall_forall. intros s _.
    apply repeat_length. }
  assert (HR3 : Forall (fun slab => length slab = (H * D)%nat /\
                          Forall (fun row => length row = 33%nat) slab)
                  (concat R4)).
  { apply Forall_concat. unfold R4. apply Forall_map.
    eapply Forall_impl; [| exact Hwf]. intros slab Hslab.
    apply Forall_forall. intros s Hin. apply repeat_spec in Hin.
    now subst s. }
  assert (HR2 : Forall (fun row => length row = 33%nat) (concat (concat R4))).
  { apply Forall_concat. eapply Forall_impl; [| exact HR3].
    intros slab [_ Hr]. exact Hr. }
  assert (HlenR3 : length (concat R4) = ((L + L) * chunk)%nat).
  { rewrite (length_concat_uniform chunk R4 HR4). unfold R4.
    now rewrite length_map, HlenN. }
  assert (HlenR2 : length (concat (concat R4))
                   = ((L + L) * chunk * (H * D))%nat).
  { rewrite (length_concat_uniform (H * D) (concat R4)), HlenR3;
      [reflexivity |].
    eapply Forall_impl; [| exact HR3]. intros slab [Hl _]. exact Hl. }
  assert (Erows : rows = concat (concat R4)).
  { rewrite (reshape_rows_repeat indefinite chunk cdf_f (L + L) (H * D) 33
               eq_refl ltac:(lia)) in Hrows.
    fold N in Hrows. fold R4 in Hrows.
    apply Ok_inj in Hrows. rewrite <- Hrows, <- HlenR2.
    apply regroup_rows. exact HR2. }
  (* the symbols *)
  assert (Hsymwf : Forall (fun slab => length slab = T /\
                             Forall (fun row => length row = (H * D)%nat) slab)
                     (data3 ei)).
  { rewrite Hdei. unfold symbols. rewrite <- map_app. apply Forall_map.
    apply Forall_app.
    split; [eapply Forall_impl; [| exact Hokk]
           | eapply Forall_impl; [| exact Hokv]];
      intros x (_ & Hr & Hc); auto. }
  exists fk, fv, enc, rows, (flatten3 (tmap3 wrap16 ei)), blobs.
  split; [exact Hsplit |]. split; [exact Hq |]. split; [exact Hfast |].
  split; [now rewrite Hout |].
  split; [now rewrite Erows |].
  assert (Hmapwf : Forall (fun slab => length slab = T /\
                             Forall (fun row => length row = (H * D)%nat) slab)
                     (map3d wrap16 (data3 ei))).
  { unfold map3d, map2d. apply Forall_map.
    eapply Forall_impl; [| exact Hsymwf]. intros slab [Hl Hr].
    split; [now rewrite length_map |].
    apply Forall_map. eapply Forall_impl; [| exact Hr].
    intros row Hrow. simpl. now rewrite length_map. }
  assert (Hrowswf : Forall (fun row => length row = (H * D)%nat)
                      (concat (map3d wrap16 (data3 ei)))).
  { apply Forall_concat. eapply Forall_impl; [| exact Hmapwf].
    intros slab [_ Hr]. exact Hr. }
  assert (Hslabswf : Forall (fun slab => length slab = T)
                       (map3d wrap16 (data3 ei))).
  { eapply Forall_impl; [| exact Hmapwf]. intros slab [Hl _]. exact Hl. }
  split; [| split].
  - unfold flatten3, tmap3. cbn [data3].
    rewrite (length_concat_uniform (H * D) _ Hrowswf).
    rewrite (length_concat_uniform T _ Hslabswf).
    unfold map3d. rewrite length_map, Hdei, length_app, Hlk, Hlv.
    reflexivity.
  - intros l i c Hl Hi Hc.
    assert (Hslab : exists slab, nth_error (data3 N) l = Some slab).
    { destruct (nth_error (data3 N) l) as [slab |] eqn:E; [eauto |].
      apply nth_error_None in E. lia. }
    destruct Hslab as [slab Hslab].
    pose proof Hwf as Hwf'. rewrite Forall_forall in Hwf'.
    destruct (Hwf' slab (nth_error_In _ _ Hslab)) as [HslabC _].
    assert (Hrow : exists row, nth_error slab c = Some row).
    { destruct (nth_error slab c) as [row |] eqn:E; [eauto |].
      apply nth_error_None in E. lia. }
    destruct Hrow as [row Hrow].
    exists slab, row.
    rewrite Hout. cbn [cdf]. rewrite renorm_cast_is_convert. fold N.
    split; [exact Hslab |]. split; [exact Hrow |].
    rewrite Erows.
    rewrite (nth_error_concat_uniform (H * D) (concat R4)
               ltac:(eapply Forall_impl; [| exact HR3];
                     intros s [Hs' _]; exact Hs')
               (l * chunk + i) slab c); [exact Hrow | | exact Hc].
    unfold R4. now apply nth_error_repeat_slabs.
  - intros l t c s He.
    destruct (entry3_inv _ _ _ _ _ He) as (slab & row & Hl & Ht & Hc).
    rewrite <- Hdei in Hl.
    pose proof Hsymwf as Hw. rewrite Forall_forall in Hw.
    destruct (Hw slab (nth_error_In _ _ Hl)) as [HslabT Hrowsok].
    rewrite Forall_forall in Hrowsok.
    pose proof (Hrowsok row (nth_error_In _ _ Ht)) as HrowC.
    assert (HtT : (t < T)%nat)
      by (rewrite <- HslabT; apply nth_error_Some; congruence).
    assert (HcC : (c < H * D)%nat)
      by (rewrite <- HrowC; apply nth_error_Some; congruence).
    unfold flatten3, tmap3. cbn [data3].
    rewrite (nth_error_concat_uniform (H * D) _ Hrowswf (l * T + t)
               (map wrap16 row) c); [| | exact HcC].
    + now rewrite nth_error_map, Hc.
    + rewrite (nth_error_concat_uniform T _ Hslabswf l
                 (map2d wrap16 slab) t); [| | exact HtT].
      * unfold map2d. now rewrite nth_error_map, Ht.
      * unfold map3d. now rewrite nth_error_map, Hl.
Qed.

Lemma encode_function_gpu_inputs_witness :
  exists out rows syms blobs,
    encode_function_gpu indefinite_x86 sample_encode_fast sample_kv
      sample_config 2 = Ok out /\
    sample_encode_fast rows syms 10000 64 2 = Ok blobs /\
    length rows = 8%nat /\ length syms = 8%nat.
Proof.
  assert (H : exists o,
            encode_function_gpu indefinite_x86 sample_encode_fast sample_kv
              sample_config 2 = Ok o)
    by (eexists; vm_compute; reflexivity).
  destruct H as [out H].
  destruct (encode_function_gpu_inputs indefinite_x86 sample_encode_fast
              sample_kv sample_config 2 out 1 2 2 1 2 eq_refl H)
    as (fk & fv & enc & rows & syms & blobs & _ & _ & Hf & _ & Hr & Hsy & _).
  exists out, rows, syms, blobs. auto.
Defined.
(* ================================================================== *)
(** ** The state [quantize] leaves *)

Lemma wrap8_range z : -128 <= wrap8 z <= 127.
Proof.
  unfold wrap8, wrap. change (2 ^ (8 - 1)) with 128. change (2 ^ 8) with 256.
  pose proof (Z.mod_pos_bound (z + 128) 256 ltac:(lia)). lia.
Qed.

Lemma Forall2_keys {V} (R : nat -> nat * V -> Prop) :
  (forall l e, R l e -> fst e = l) ->
  forall xs d, Forall2 R xs d -> map fst d = xs.
Proof.
  intros HR xs d HF. induction HF as [| x e xs d Hxe _ IH]; simpl;
    [reflexivity |].
  now rewrite (HR _ _ Hxe), IH.
Qed.

Lemma max_entry_ok indefinite bins fp L T C l e :
  tensor3_ok L T C fp ->
  max_entry indefinite bins fp l e ->
  tensor2_ok T 1 (snd e) /\
  Forall (Forall (fun m => (0 <= m)%Q)) (data2 (snd e)).
Proof.
  intros (Hshape & _ & Hslabs) (_ & qA & xq & m & Hidx & Htq & Hsnd).
  destruct (index3_data _ _ _ Hidx) as [Hdata Hsh]. rewrite Hshape in Hsh.
  simpl in Hsh.
  apply torch_quant_inv in Htq. destruct Htq as (_ & _ & ->).
  rewrite Forall_forall in Hslabs.
  destruct (Hslabs _ (nth_error_In _ _ Hdata)) as [Hrows _].
  rewrite Hsnd, Hsh. unfold tensor2_ok. cbn [fst shape2 data2]. split.
  - split; [reflexivity |]. split; [now rewrite length_map |].
    apply Forall_map. apply Forall_forall. intros row _. reflexivity.
  - apply Forall_map. apply Forall_forall. intros row _.
    constructor; [apply amax_abs_nonneg | constructor].
Qed.

Lemma quantized_entry_int8 indefinite bins fp l e :
  quantized_entry indefinite bins fp l e ->
  Forall (Forall (fun s => -128 <= s <= 127)) (data2 (snd e)).
Proof.
  intros (_ & qA & xq & m & _ & Htq & ->).
  apply torch_quant_inv in Htq. destruct Htq as (_ & -> & _).
  rewrite shift_symbols_data. apply Forall_map. apply Forall_forall.
  intros row _. apply Forall_map. apply Forall_forall. intros x _.
  unfold symbol_of. apply wrap8_range.
Qed.

Lemma Forall2_values {A V} (R : A -> nat * V -> Prop) (P : V -> Prop) :
  (forall l e, R l e -> P (snd e)) ->
  forall xs d, Forall2 R xs d -> Forall P (dict_values d).
Proof.
  intros HR xs d HF. unfold dict_values.
  induction HF as [| x e xs d Hxe _ IH]; simpl; constructor; eauto.
Qed.

(** Without a channel the first layer already fails: the row maximum of an
    empty row. *)
Lemma quantize_no_channel indefinite k v cfg L T :
  tensor3_ok (S L) T 0 k ->
  quantize indefinite (new_encoder k v cfg) = Raise IndexError.
Proof.
  intros (Hs & Hlen & _). unfold quantize.
  cbn [fp_k new_encoder]. unfold len3 at 1. rewrite Hs.
  rewrite <- cons_seq. cbn [for_each fp_k new_encoder config].
  destruct (index3_ok k (S L) T 0 0 Hs ltac:(lia)) as [d [_ Hidx]].
  rewrite Hidx. reflexivity.
Qed.

(** X18.  The state [quantize] leaves.  On well-shaped tensors of [L]
    layers, [T] tokens and [C] channels it succeeds exactly when there is no
    layer or at least one channel (otherwise it raises [IndexError]).  After
    a success the inputs and the configuration are unchanged, each of the
    four dictionaries holds the keys [0 .. L - 1] in increasing order, the
    symbol tensors have the shape [[T, C]] with entries in the int8 range,
    and the tensors of maxima have the shape [[T, 1]] with entries that are
    not negative. *)
Theorem quantize_layout indefinite k v cfg L T C :
  tensor3_ok L T C k -> tensor3_ok L T C v ->
  (is_ok (quantize indefinite (new_encoder k v cfg)) = true <->
   L = 0%nat \/ C <> 0%nat) /\
  (L <> 0%nat -> C = 0%nat ->
   quantize indefinite (new_encoder k v cfg) = Raise IndexError) /\
  (forall enc,
     quantize indefinite (new_encoder k v cfg) = Ok enc ->
     fp_k enc = k /\ fp_v enc = v /\ config enc = cfg /\
     map fst (quantized_key enc) = seq 0 L /\
     map fst (max_tensors_key enc) = seq 0 L /\
     map fst (quantized_value enc) = seq 0 L /\
     map fst (max_tensors_value enc) = seq 0 L /\
     Forall (tensor2_ok T C) (dict_values (quantized_key enc)) /\
     Forall (tensor2_ok T C) (dict_values (quantized_value enc)) /\
     Forall (tensor2_ok T 1) (dict_values (max_tensors_key enc)) /\
     Forall (tensor2_ok T 1) (dict_values (max_tensors_value enc)) /\
     all_entries (fun s => -128 <= s <= 127)
       (dict_values (quantized_key enc)) /\
     all_entries (fun s => -128 <= s <= 127)
       (dict_values (quantized_value enc)) /\
     all_entries (fun m => (0 <= m)%Q) (dict_values (max_tensors_key enc)) /\
     all_entries (fun m => (0 <= m)%Q)
       (dict_values (max_tensors_value enc))).
Proof.
  intros Hk Hv.
  assert (Hfail : L <> 0%nat -> C = 0%nat ->
            quantize indefinite (new_encoder k v cfg) = Raise IndexError).
  { intros HL ->. destruct L as [| L']; [contradiction |].
    exact (quantize_no_channel indefinite k v cfg L' T Hk). }
  split; [| split; [exact Hfail |]].
  - split.
    + intros Hok. destruct (Nat.eq_dec L 0) as [-> | HL]; [now left |].
      destruct (Nat.eq_dec C 0) as [HC | HC]; [| now right].
      rewrite (Hfail HL HC) in Hok. discriminate.
    + intros [-> | HC].
      * destruct Hk as (Hsk & _). destruct Hv as (Hsv & _).
        unfold quantize. cbn [fp_k fp_v new_encoder]. unfold len3.
        rewrite Hsk. cbn [seq for_each bind fp_v new_encoder].
        rewrite Hsv. reflexivity.
      * destruct (quantize_ok indefinite k v cfg L T C Hk Hv HC) as [enc ->].
        reflexivity.
  - intros enc Hq.
    destruct (quantize_spec _ _ _ _ _ Hq)
      as (Hfk & Hfv & Hcfg & Fk & Mk & Fv & Mv).
    assert (Hlk : len3 k = L) by (unfold len3; now rewrite (proj1 Hk)).
    assert (Hlv : len3 v = L) by (unfold len3; now rewrite (proj1 Hv)).
    rewrite Hlk in Fk, Mk. rewrite Hlv in Fv, Mv.
    repeat (split; [assumption |]).
    split; [exact (Forall2_keys _ (fun l e H => proj1 H) _ _ Fk) |].
    split; [exact (Forall2_keys _ (fun l e H => proj1 H) _ _ Mk) |].
    split; [exact (Forall2_keys _ (fun l e H => proj1 H) _ _ Fv) |].
    split; [exact (Forall2_keys _ (fun l e H => proj1 H) _ _ Mv) |].
    split; [exact (Forall2_values _ _
                     (fun l e H => quantized_entry_ok _ _ _ _ _ _ _ _ Hk H)
                     _ _ Fk) |].
    split; [exact (Forall2_values _ _
                     (fun l e H => quantized_entry_ok _ _ _ _ _ _ _ _ Hv H)
                     _ _ Fv) |].
    split; [exact (Forall2_values _ _
                     (fun l e H => proj1 (max_entry_ok _ _ _ _ _ _ _ _ Hk H))
                     _ _ Mk) |].
    split; [exact (Forall2_values _ _
                     (fun l e H => proj1 (max_entry_ok _ _ _ _ _ _ _ _ Hv H))
                     _ _ Mv) |].
    split; [exact (Forall2_values _ _
                     (fun l e H => quantized_entry_int8 _ _ _ _ _ H)
                     _ _ Fk) |].
    split; [exact (Forall2_values _ _
                     (fun l e H => quantized_entry_int8 _ _ _ _ _ H)
                     _ _ Fv) |].
    split; [exact (Forall2_values _ _
                     (fun l e H => proj2 (max_entry_ok _ _ _ _ _ _ _ _ Hk H))
                     _ _ Mk) |].
    exact (Forall2_values _ _
             (fun l e H => proj2 (max_entry_ok _ _ _ _ _ _ _ _ Hv H))
             _ _ Mv).
Qed.

Lemma quantize_layout_witness :
  exists enc,
    quantize indefinite_x86 (new_encoder sample_k sample_v sample_config)
      = Ok enc /\
    map fst (quantized_key enc) = [0%nat] /\
    map fst (max_tensors_value enc) = [0%nat].
Proof.
  assert (Hk : tensor3_ok 1 2 2 sample_k)
    by (repeat split; repeat constructor).
  assert (Hv : tensor3_ok 1 2 2 sample_v)
    by (repeat split; repeat constructor).
  exists sample_encoder.
  assert (Hq : quantize indefinite_x86
                 (new_encoder sample_k sample_v sample_config)
               = Ok sample_encoder) by (vm_compute; reflexivity).
  split; [exact Hq |].
  destruct (proj2 (proj2 (quantize_layout indefinite_x86 sample_k sample_v
                            sample_config 1 2 2 Hk Hv))
              sample_encoder Hq)
    as (_ & _ & _ & H1 & _ & _ & H2 & _).
  split; [exact H1 | exact H2].
Defined.

(* ================================================================== *)
(** ** The stored CDF is increasing *)

(** The first 32 entries of the normalized CDF row of a column, read as
    unsigned 16-bit integers, are strictly increasing from 0. *)
Lemma stored_cdf_row_increasing indefinite T col row :
  (0 < T)%nat -> length col = T -> Forall (fun v => 0 <= v) col ->
  row = map as_uint16 (normalize_row indefinite 33 (cdf_row T col)) ->
  strictly_increasing (firstn 32 row) /\
  Forall (fun u => 0 <= u <= 65535) (firstn 32 row).
Proof.
  intros HT Hlen Hcol ->.
  assert (Hval : forall a, (a < 32)%nat ->
    exists r, 0 <= r <= 65504 /\
      r = round_half_even
            (inject_Z (count_below a col) / inject_Z (Z.of_nat T)
             * inject_Z 65504) /\
      nth_error
        (firstn 32 (map as_uint16
                      (normalize_row indefinite 33 (cdf_row T col)))) a
      = Some (r + Z.of_nat a)).
  { intros a Ha. eexists. split; [| split; [reflexivity |]].
    - destruct (count_fraction_range T col a HT Hlen) as [Hlo Hhi].
      apply round_half_even_bounds; [exact Hlo | exact Hhi].
    - rewrite nth_error_firstn.
      destruct (Nat.ltb_spec a 32) as [_ | Hge]; [| lia].
      rewrite (stored_cdf_row_entry indefinite T col a HT Hcol ltac:(lia)).
      f_equal. apply Z.mod_small.
      destruct (count_fraction_range T col a HT Hlen) as [Hlo Hhi].
      pose proof (round_half_even_bounds _ 0 65504 Hlo Hhi).
      change (2 ^ 16) with 65536. lia. }
  assert (Hlen32 : length (firstn 32 (map as_uint16
                     (normalize_row indefinite 33 (cdf_row T col))))
                   = 32%nat).
  { rewrite length_firstn, length_map,
      (normalize_row_length indefinite 33 _ (cdf_row_length T col)).
    reflexivity. }
  split.
  - intros i j a b Hij Hi Hj.
    assert (Hj32 : (j < 32)%nat)
      by (rewrite <- Hlen32; apply nth_error_Some; congruence).
    destruct (Hval i ltac:(lia)) as (ri & _ & Eri & Hni).
    destruct (Hval j Hj32) as (rj & _ & Erj & Hnj).
    rewrite Hi in Hni. injection Hni as ->.
    rewrite Hj in Hnj. injection Hnj as ->.
    assert (ri <= rj).
    { rewrite Eri, Erj. apply round_half_even_mono.
      apply Qmult_le_compat_r; [| discriminate].
      apply Qdiv_tokens_le; [exact HT |].
      apply count_below_mono. lia. }
    lia.
  - apply Forall_forall. intros u Hin.
    destruct (In_nth_error _ _ Hin) as [a Ha].
    assert (Ha32 : (a < 32)%nat)
      by (rewrite <- Hlen32; apply nth_error_Some; congruence).
    destruct (Hval a Ha32) as (r & Hr & _ & Hn).
    rewrite Ha in Hn. injection Hn as ->. lia.
Qed.

(** X19.  The integer CDF a successful encode of at least one token stores
    can be read back: in every row, one per slab and channel, the first 32
    entries, read as unsigned 16-bit integers, start at 0 and are strictly
    increasing. *)
Theorem encode_function_cdf_increasing indefinite torchac_encode kv cfg chunk
  out L d1 T H D :
  shape5 kv = (L, d1, T, H, D) -> (0 < T)%nat ->
  encode_function indefinite torchac_encode kv cfg chunk = Ok out ->
  length (data3 (cdf out)) = (L + L)%nat /\
  forall l c slab row,
    nth_error (data3 (cdf out)) l = Some slab ->
    nth_error slab c = Some row ->
    length slab = (H * D)%nat /\ length row = 33%nat /\
    nth_error (map as_uint16 row) 0 = Some 0 /\
    strictly_increasing (firstn 32 (map as_uint16 row)) /\
    Forall (fun u => 0 <= u <= 65535) (firstn 32 (map as_uint16 row)).
Proof.
  intros Hs HT Hrun.
  destruct (encode_function_run _ _ _ _ _ _ Hrun)
    as (fk & fv & enc & cdf_k & cdf_v & ek & ev & cdf_f & ei & st & mk & mv
        & Hsplit & Hq & Hck & Hek & Hcv & Hev & Hcat & Hcat2 & Hloop & Hmk
        & Hmv & Hout).
  destruct (encode_function_shapes _ _ _ _ _ _ _ _ _ _ _ _ _ _ _ _ _ Hs Hsplit
              Hq Hck Hek Hcv Hev Hcat Hcat2) as (HLpos & _).
  destruct (heads_of_shape kv L d1 T H D Hs) as (_ & HL0 & HT0 & HC0).
  destruct (split_kv_ok _ _ _ Hsplit) as [(Hshk & Hlenk & _) _].
  destruct (quantize_spec _ _ _ _ _ Hq) as (Hfk & _).
  destruct (quantized_bank_ok indefinite kv cfg fk fv enc true Hsplit Hq)
    as [Hbk Hokk].
  destruct (quantized_bank_ok indefinite kv cfg fk fv enc false Hsplit Hq)
    as [Hbv Hokv].
  rewrite HL0, HT0, HC0 in *.
  pose proof (compute_cdf_alphabet _ _ _ _ _ Hck Hokk) as Hsk.
  pose proof (compute_cdf_alphabet _ _ _ _ _ Hcv Hokv) as Hsv.
  rewrite <- Hfk in Hshk, Hlenk.
  rewrite (compute_cdf_ok enc true L T (H * D) Hshk Hlenk HLpos Hbk Hokk Hsk)
    in Hck.
  rewrite (compute_cdf_ok enc false L T (H * D) Hshk Hlenk HLpos Hbv Hokv Hsv)
    in Hcv.
  injection Hck as <-. injection Hcv as <-.
  unfold cat3 in Hcat. cbn [shape3 data3] in Hcat.
  rewrite !Nat.eqb_refl in Hcat. cbn [andb] in Hcat. injection Hcat as <-.
  unfold bank in *.
  rewrite Hout. cbn [cdf]. rewrite renorm_cast_is_convert, convert_rows.
  cbn [shape3 data3 snd]. rewrite <- map_app.
  split; [now rewrite !length_map, length_app, Hbk, Hbv |].
  intros l c slab row Hslab Hrow.
  rewrite !nth_error_map in Hslab.
  destruct (nth_error (dict_values (quantized_key enc)
                       ++ dict_values (quantized_value enc)) l)
    as [x |] eqn:Ex; [| discriminate].
  cbn [option_map] in Hslab. apply Some_inj in Hslab. subst slab.
  rewrite !nth_error_map in Hrow.
  destruct (nth_error (seq 0 (H * D)) c) as [c' |]; [| discriminate].
  cbn [option_map] in Hrow. apply Some_inj in Hrow. subst row.
  assert (Hx : symbols_between 0 32 x /\ tensor2_ok T (H * D) x).
  { pose proof (nth_error_In _ _ Ex) as Hin. apply in_app_or in Hin.
    rewrite Forall_forall in Hsk, Hsv, Hokk, Hokv.
    destruct Hin as [Hin | Hin];
      [split; [apply Hsk | apply Hokk] | split; [apply Hsv | apply Hokv]];
      exact Hin. }
  destruct Hx as [Hxs (_ & Hxlen & _)].
  pose proof (column_in_alphabet 0 32 x c' ltac:(lia) Hxs) as Hcol.
  assert (Hcol0 : Forall (fun v => 0 <= v) (column x c'))
    by (eapply Forall_impl; [| exact Hcol]; intros v Hv; simpl in Hv; lia).
  assert (Hcollen : length (column x c') = T)
    by (rewrite column_length; exact Hxlen).
  split; [now rewrite !length_map, length_seq |].
  split; [apply normalize_row_length, cdf_row_length |].
  split.
  - rewrite (stored_cdf_row_entry indefinite T _ 0 HT Hcol0 ltac:(lia)).
    rewrite (count_below_0 _ Hcol0).
    rewrite (round_half_even_comp _ (inject_Z 0)).
    + now rewrite round_half_even_Z.
    + change (inject_Z 0) with 0%Q. unfold Qdiv. ring.
  - exact (stored_cdf_row_increasing indefinite T (column x c') _ HT Hcollen
             Hcol0 eq_refl).
Qed.

Lemma encode_function_cdf_increasing_witness :
  exists out,
    encode_function indefinite_x86 sample_coder sample_kv sample_config 2
      = Ok out /\
    length (data3 (cdf out)) = 2%nat.
Proof.
  assert (H : exists out,
            encode_function indefinite_x86 sample_coder sample_kv
              sample_config 2 = Ok out)
    by (eexists; vm_compute; reflexivity).
  destruct H as [out H].
  exists out. split; [exact H |].
  exact (proj1 (encode_function_cdf_increasing indefinite_x86 sample_coder
                  sample_kv sample_config 2 out 1 2 2 1 2 eq_refl
                  ltac:(lia) H)).
Defined.
